(** * telegram-scraper: the crawl orchestrator and the message extractor

    A shallow embedding of [launch] (the standalone crawl loop) and of
    [ParseMessage] / [fetchfilefromtelegram] (the Telegram message
    extractor), with the properties their specification states; and of
    the code around them: how the standalone mode collects its seeds
    ([StartDaprStandaloneMode], [readURLsFromFile]), the helpers that
    clear a directory and unpack an archive, and the YouTube adapter's
    [GetVideos], with properties read off the code. *)

From Stdlib Require Import ZArith Lia Ascii.
From stdpp Require Import gmap strings list fin_maps.

Local Open Scope Z_scope.

(** Go's [int] is a 64-bit two's-complement integer. *)
Definition wrap64 (z : Z) : Z := (z + 2 ^ 63) mod 2 ^ 64 - 2 ^ 63.

(** What a call does besides changing the world: it comes back with a
    value, or it panics. *)
Inductive outcome (A : Type) : Type :=
| Returned (a : A)
| Panicked.
Arguments Returned {A} a.
Arguments Panicked {A}.

(** Go's [error]: [None] is [nil], [Some msg] an error with that message. *)
Abbreviation error := (option string) (only parsing).

(* ================================================================== *)
(** * The orchestrator: [launch] *)
(* ================================================================== *)

Module Orchestrator.

(** [state.Page] and [state.Layer], with the fields [launch] touches. *)
Record Page := mkPage { URL : string; Status : string; Timestamp : Z }.
Record Layer := mkLayer { Depth : Z; Pages : list Page }.

#[global] Instance Page_eq_dec : EqDecision Page.
Proof. solve_decision. Defined.
#[global] Instance Layer_eq_dec : EqDecision Layer.
Proof. solve_decision. Defined.

(** The collaborators of [launch], over a world [W] they may change:
    [now] is [time.Now], [Run] is [crawl.Run] (it returns the outlinks, a
    slice of pointers any of which may be nil, and an error, or it
    panics), [StoreLayers] is the state manager's checkpoint write.
    [range_order] is the order in which a [for ... range] over a Go map
    yields the map's values: any rearrangement, and it may differ from
    one moment of the world to the next. *)
Record Collaborators (W : Type) := mkCollaborators {
  now : W -> Z;
  Run : W -> Page -> W * outcome (list (option Page) * error);
  StoreLayers : W -> list Layer -> W * outcome error;
  range_order : W -> list Page -> list Page;
  range_order_perm : forall w l, range_order w l ≡ₚ l
}.
Arguments now {W} _ _.
Arguments Run {W} _ _ _.
Arguments StoreLayers {W} _ _ _.
Arguments range_order {W} _ _ _.
Arguments range_order_perm {W} _ _ _.

(** The variables of [launch] that outlive one page: [seenURLs], [list]
    (here [layers]: the slice of layer pointers, each layer read through
    its index), and the world. [visits] is a record kept for the proofs:
    the frontier entries handed to [crawl.Run], oldest first. *)
Record State (W : Type) := mkState {
  seenURLs : gset string;
  layers : list Layer;
  world : W;
  visits : list Page
}.
Arguments mkState {W} _ _ _ _.
Arguments seenURLs {W} _.
Arguments layers {W} _.
Arguments world {W} _.
Arguments visits {W} _.

(** The loop over [outlinks]: an outlink not yet in [seenURLs] is marked
    seen and kept in [uniqueOutlinks] under its URL. Reading the URL of a
    nil outlink panics; what was marked seen before stays marked. *)
Fixpoint dedup_outlinks (outlinks : list (option Page)) (seen : gset string)
    (uniqueOutlinks : gmap string Page) : outcome (gmap string Page) * gset string :=
  match outlinks with
  | [] => (Returned uniqueOutlinks, seen)
  | None :: _ => (Panicked, seen)
  | Some ol :: rest =>
      if decide (URL ol ∈ seen)
      then dedup_outlinks rest seen uniqueOutlinks
      else dedup_outlinks rest ({[URL ol]} ∪ seen) (<[URL ol := ol]> uniqueOutlinks)
  end.

(** [uniquePages[page.URL] = page] for each page in turn: the last page
    with a URL is the one kept. *)
Definition index_by_url (pages : list Page) : gmap string Page :=
  foldl (fun m page => <[URL page := page]> m) ∅ pages.

Section Launch.
Context {W : Type} (C : Collaborators W).

(** The values of a Go map in the order a [range] loop yields them. *)
Definition range_values (w : W) (m : gmap string Page) : list Page :=
  range_order C w ((map_to_list m).*2).

(** The index [l.Depth+1] of the layer below [l]. *)
Definition next_depth (l : Layer) : Z := wrap64 (Depth l + 1).

(** "Add unique pages to the next layer": when [list] is longer than
    [l.Depth+1] the layer at that index takes the pages and is rebuilt
    from a map keyed by URL (a negative index panics); otherwise a new
    layer of depth [l.Depth+1] is appended. *)
Definition add_to_next_layer (w : W) (frontier : list Layer) (l : Layer)
    (pag : list Page) : outcome (list Layer) :=
  if decide (next_depth l < Z.of_nat (length frontier)) then
    if decide (next_depth l < 0) then Panicked
    else match frontier !! Z.to_nat (next_depth l) with
         | None => Panicked
         | Some existing =>
             let uniquePages := index_by_url (Pages existing ++ pag) in
             Returned (<[Z.to_nat (next_depth l) :=
                          mkLayer (Depth existing) (range_values w uniquePages)]> frontier)
         end
  else Returned (frontier ++ [mkLayer (next_depth l) pag]).

(** The checkpoint write; its error is logged, and a panic in it is
    recovered like any other inside the page's closure. *)
Definition checkpoint (w : W) (frontier : list Layer) : W :=
  (StoreLayers C w frontier).1.

(** The closure run for one page [la := l.Pages[j]] that is not fetched.
    [la] is a copy of the slice element: the result pairs the copy as the
    closure leaves it (dropped by the loop) with the variables that
    persist. *)
Definition visit_page (st : State W) (l : Layer) (la : Page) : Page * State W :=
  let la1 := mkPage (URL la) (Status la) (now C (world st)) in
  let seen := seenURLs st in
  let called := visits st ++ [la] in
  match Run C (world st) la1 with
  | (w, Panicked) => (la1, mkState seen (layers st) w called)
  | (w, Returned (_, Some _)) =>
      (mkPage (URL la1) "error" (Timestamp la1),
       mkState seen (layers st) (checkpoint w (layers st)) called)
  | (w, Returned (outlinks, None)) =>
      let la2 := mkPage (URL la1) "fetched" (Timestamp la1) in
      match dedup_outlinks outlinks seen ∅ with
      | (Panicked, seen') => (la2, mkState seen' (layers st) w called)
      | (Returned uniqueOutlinks, seen') =>
          let pag := range_values w uniqueOutlinks in
          if decide (0 < length pag)%nat then
            match add_to_next_layer w (layers st) l pag with
            | Panicked => (la2, mkState seen' (layers st) w called)
            | Returned list' => (la2, mkState seen' list' (checkpoint w list') called)
            end
          else (la2, mkState seen' (layers st) (checkpoint w (layers st)) called)
      end
  end.

(** One turn of the two nested [for] loops, at layer [i] and page [j]:
    [None] when [i] has reached [len(list)]. *)
Definition launch_step (c : nat * nat * State W) : option (nat * nat * State W) :=
  let '(i, j, st) := c in
  match layers st !! i with
  | None => None
  | Some l =>
      match Pages l !! j with
      | None => Some (S i, 0%nat, st)
      | Some la =>
          if decide (Status la = "fetched") then Some (i, S j, st)
          else Some (i, S j, (visit_page st l la).2)
      end
  end.

(** The loops, run for at most [fuel] turns. *)
Fixpoint launch_loop (fuel : nat) (c : nat * nat * State W) : option (State W) :=
  match fuel with
  | O => None
  | S fuel' =>
      match launch_step c with
      | None => Some c.2
      | Some c' => launch_loop fuel' c'
      end
  end.

(** The loop state after [n] turns (it stays where it is once the loops
    have ended). *)
Fixpoint launch_after (n : nat) (c : nat * nat * State W) : nat * nat * State W :=
  match n with
  | O => c
  | S n' => match launch_step c with
            | None => c
            | Some c' => launch_after n' c'
            end
  end.

(** [launch]: [seenURLs] starts as the seed strings; [frontier] is the
    [list] that [sm.SeedSetup(stringList)] returned. *)
Definition launch_start (stringList : list string) (frontier : list Layer) (w : W) : nat * nat * State W :=
  (0%nat, 0%nat, mkState (list_to_set stringList) frontier w []).

Definition launch (fuel : nat) (stringList : list string) (frontier : list Layer) (w : W) : option (State W) :=
  launch_loop fuel (launch_start stringList frontier w).

End Launch.

(** Modelled from the spec: [SeedSetup] on a store that holds no state
    (its code is not part of the sources): "Depth 0 holds all seeds", each
    seed a Page that is not yet visited. *)
Definition seed_layers (seeds : list string) : list Layer :=
  [mkLayer 0 ((fun u => mkPage u "unvisited" 0) <$> seeds)].

End Orchestrator.

(* ================================================================== *)
(** * The extractor: [ParseMessage] and [fetchfilefromtelegram] *)
(* ================================================================== *)

Module Extractor.

(** ** TDLib client types

    The fields the extractor reads. A Go pointer is an [option] ([None]
    is nil), an interface value an [option] of its dynamic type. *)

Record RemoteFile := mkRemoteFile { RemoteFile_Id : string }.
Record LocalFile := mkLocalFile { LocalFile_Path : string }.
Record File := mkFile {
  File_Id : Z;
  File_Remote : option RemoteFile;
  File_Local : option LocalFile
}.
Record Thumbnail := mkThumbnail { Thumbnail_File : option File }.
Record FormattedText := mkFormattedText { Text : string }.

Record MessageText := mkMessageText { MessageText_Text : option FormattedText }.
Record Video := mkVideo {
  Video_Thumbnail : option Thumbnail;
  Video_Video : option File
}.
Record MessageVideo := mkMessageVideo {
  MessageVideo_Video : option Video;
  MessageVideo_Caption : option FormattedText
}.
Record PhotoSize := mkPhotoSize { PhotoSize_Photo : option File }.
Record Photo := mkPhoto { Photo_Sizes : list (option PhotoSize) }.
Record MessagePhoto := mkMessagePhoto {
  MessagePhoto_Photo : option Photo;
  MessagePhoto_Caption : option FormattedText
}.
Record Animation := mkAnimation { Animation_Thumbnail : option Thumbnail }.
Record MessageAnimation := mkMessageAnimation {
  MessageAnimation_Animation : option Animation;
  MessageAnimation_Caption : option FormattedText
}.
Record MessageAnimatedEmoji := mkMessageAnimatedEmoji { AnimatedEmoji_Emoji : string }.
Record Poll := mkPoll { Poll_Question : option FormattedText }.
Record MessagePoll := mkMessagePoll { MessagePoll_Poll : option Poll }.
(** [Prize] is an interface; what is kept of its dynamic value is the
    string its [GiveawayPrizeType] method returns. *)
Record MessageGiveaway := mkMessageGiveaway { Giveaway_Prize : option string }.
Record MessagePaidMedia := mkMessagePaidMedia { PaidMedia_Caption : option FormattedText }.
Record Sticker := mkSticker { Sticker_Sticker : option File }.
Record MessageSticker := mkMessageSticker { MessageSticker_Sticker : option Sticker }.
Record VideoNote := mkVideoNote {
  VideoNote_Thumbnail : option Thumbnail;
  VideoNote_Video : option File
}.
Record MessageVideoNote := mkMessageVideoNote { MessageVideoNote_VideoNote : option VideoNote }.
Record Document := mkDocument {
  Document_FileName : string;
  Document_Thumbnail : option Thumbnail;
  Document_Document : option File
}.
Record MessageDocument := mkMessageDocument { MessageDocument_Document : option Document }.

(** The dynamic type of [message.Content]: one constructor per case of
    the type switch, each holding the pointer, and [ContentOther] for any
    other kind, with its [MessageContentType]. *)
Inductive MessageContent :=
| ContentText (content : option MessageText)
| ContentVideo (content : option MessageVideo)
| ContentPhoto (content : option MessagePhoto)
| ContentAnimation (content : option MessageAnimation)
| ContentAnimatedEmoji (content : option MessageAnimatedEmoji)
| ContentPoll (content : option MessagePoll)
| ContentGiveaway (content : option MessageGiveaway)
| ContentPaidMedia (content : option MessagePaidMedia)
| ContentSticker (content : option MessageSticker)
| ContentGiveawayWinners
| ContentGiveawayCompleted
| ContentVideoNote (content : option MessageVideoNote)
| ContentDocument (content : option MessageDocument)
| ContentOther (type : string).

Record ReactionTypeEmoji := mkReactionTypeEmoji { Emoji : string }.
Inductive ReactionType :=
| ReactionEmoji (r : option ReactionTypeEmoji)
| ReactionCustomEmoji
| ReactionPaid.
Record MessageReaction := mkMessageReaction {
  Reaction_Type : option ReactionType;
  TotalCount : Z
}.
Record MessageReactions := mkMessageReactions { Reactions_Reactions : list (option MessageReaction) }.
Record MessageReplyInfo := mkMessageReplyInfo { ReplyCount : Z }.
Record MessageInteractionInfo := mkMessageInteractionInfo {
  ReplyInfo : option MessageReplyInfo;
  Reactions : option MessageReactions
}.
Record Message := mkMessage {
  Id : Z;
  ChatId : Z;
  Date : Z;
  EditDate : Z;
  InteractionInfo : option MessageInteractionInfo;
  Content : option MessageContent
}.
Record MessageLink := mkMessageLink { Link : string }.
Record Chat := mkChat { Chat_Id : Z; Title : string }.
Record SupergroupFullInfo := mkSupergroupFullInfo { MemberCount : Z }.

(** ** The output model ([model.Post]) *)

Record Comment := mkComment { Comment_Author : string; Comment_Text : string; Comment_Time : Z }.

Record EngagementData := mkEngagementData {
  E_FollowerCount : Z;
  E_FollowingCount : Z;
  E_LikeCount : Z;
  E_PostCount : Z;
  E_ViewsCount : Z;
  E_CommentCount : Z;
  E_ShareCount : Z
}.

Record ChannelData := mkChannelData {
  C_ChannelID : Z;
  C_ChannelName : string;
  C_ChannelProfileImage : string;
  C_ChannelEngagementData : EngagementData;
  C_ChannelURLExternal : string;
  C_ChannelURL : string
}.

(** A [time.Time] is kept as its seconds since the Unix epoch. *)
Record Post := mkPost {
  PostLink : string;
  ChannelID : Z;
  PostUID : string;
  URL : string;
  PublishedAt : Z;
  CreatedAt : Z;
  LanguageCode : string;
  Engagement : Z;
  ViewCount : Z;
  LikeCount : Z;
  ShareCount : Z;
  CommentCount : Z;
  ChannelName : string;
  Description : string;
  IsAd : bool;
  PostType : list string;
  TranscriptText : string;
  ImageText : string;
  PlatformName : string;
  LikesCount : Z;
  SharesCount : Z;
  CommentsCount : Z;
  ViewsCount : Z;
  SearchableText : string;
  AllText : string;
  ThumbURL : string;
  MediaURL : string;
  Channel : ChannelData;
  Comments : list Comment;
  PostReactions : gmap string Z
}.

(** The zero [time.Time], January 1 of year 1. *)
Definition zeroTime : Z := -62135596800.

(** [model.Post{}], the zero value. *)
Definition emptyPost : Post :=
  mkPost "" 0 "" "" zeroTime zeroTime "" 0 0 0 0 0 "" "" false [] "" "" "" 0 0 0 0 "" "" "" ""
    (mkChannelData 0 "" "" (mkEngagementData 0 0 0 0 0 0 0) "" "") [] ∅.

(** ** Library functions *)

(** [strings.Split(s, sep)] for a separator of one byte. *)
Fixpoint Split (s : string) (sep : ascii) : list string :=
  match s with
  | EmptyString => [EmptyString]
  | String c rest =>
      if Ascii.eqb c sep then EmptyString :: Split rest sep
      else match Split rest sep with
           | [] => [String c EmptyString]
           | part :: parts => String c part :: parts
           end
  end.

(** The year of the proleptic Gregorian calendar in which day [days]
    (counted from 1970-01-01) falls. *)
Definition year_of_days (days : Z) : Z :=
  let z := days + 719468 in
  let era := z / 146097 in
  let doe := z - era * 146097 in
  let yoe := (doe - doe / 1460 + doe / 36524 - doe / 146096) / 365 in
  let doy := doe - (365 * yoe + yoe / 4 - yoe / 100) in
  let mp := (5 * doy + 2) / 153 in
  if mp <? 10 then yoe + era * 400 else yoe + era * 400 + 1.

(** [time.Unix(sec, 0).Year()], in a zone [offset] seconds east of UTC. *)
Definition Year (offset : Z) (sec : Z) : Z := year_of_days ((sec + offset) / 86400).

(** [MessageContentType] of each kind of content (TDLib's type names). *)
Definition MessageContentType (c : MessageContent) : string :=
  match c with
  | ContentText _ => "messageText"
  | ContentVideo _ => "messageVideo"
  | ContentPhoto _ => "messagePhoto"
  | ContentAnimation _ => "messageAnimation"
  | ContentAnimatedEmoji _ => "messageAnimatedEmoji"
  | ContentPoll _ => "messagePoll"
  | ContentGiveaway _ => "messageGiveaway"
  | ContentPaidMedia _ => "messagePaidMedia"
  | ContentSticker _ => "messageSticker"
  | ContentGiveawayWinners => "messageGiveawayWinners"
  | ContentGiveawayCompleted => "messageGiveawayCompleted"
  | ContentVideoNote _ => "messageVideoNote"
  | ContentDocument _ => "messageDocument"
  | ContentOther type => type
  end.

(** ** Collaborators and effects *)

(** The calls the extractor makes, over a world [W]: the TDLib client
    ([GetRemoteFile], [DownloadFile]), the helpers of the package that
    wrap it ([GetMessageComments], [GetViewCount],
    [GetMessageShareCount]) and the state manager
    ([UploadBlobFileAndDelete], [StoreData]). Each returns what the Go
    function returns, or panics. [local_offset] is the offset of
    [time.Local] at an instant. *)
Record Platform (W : Type) := mkPlatform {
  local_offset : Z -> Z;
  GetMessageComments : W -> Z -> Z -> string -> W * outcome (list Comment * error);
  GetRemoteFile : W -> string -> W * outcome (option File * error);
  DownloadFile : W -> Z -> W * outcome (option File * error);
  UploadBlobFileAndDelete : W -> string -> string -> string -> string -> W * outcome error;
  GetViewCount : W -> Message -> string -> W * outcome Z;
  GetMessageShareCount : W -> Z -> Z -> string -> W * outcome (Z * error);
  StoreData : W -> string -> string -> Post -> W * outcome error
}.
Arguments local_offset {W} _ _.
Arguments GetMessageComments {W} _ _ _ _ _.
Arguments GetRemoteFile {W} _ _ _.
Arguments DownloadFile {W} _ _ _.
Arguments UploadBlobFileAndDelete {W} _ _ _ _ _ _.
Arguments GetViewCount {W} _ _ _ _.
Arguments GetMessageShareCount {W} _ _ _ _ _.
Arguments StoreData {W} _ _ _ _ _.

(** The calls made, kept for the proofs: which remote file was asked
    for, what was handed to the blob sink, what was handed to the store. *)
Inductive Event :=
| AskedComments (chatId messageId : Z) (channelName : string)
| AskedRemoteFile (remoteFileId : string)
| AskedDownload (fileId : Z)
| Uploaded (crawlid channelName link path : string)
| AskedViewCount (channelName : string)
| AskedShareCount (chatId messageId : Z) (channelName : string)
| Stored (crawlid channelName : string) (post : Post).

(** What one call of [ParseMessage] has at hand: the world, the calls
    made so far, its named results [post] and [err], and which of the two
    inner deferred recovers have been set up. *)
Record Frame (W : Type) := mkFrame {
  world : W;
  trace : list Event;
  post : Post;
  err : error;
  comments_recover : bool;
  reactions_recover : bool
}.
Arguments mkFrame {W} _ _ _ _ _ _.
Arguments world {W} _.
Arguments trace {W} _.
Arguments post {W} _.
Arguments err {W} _.
Arguments comments_recover {W} _.
Arguments reactions_recover {W} _.

(** A computation that reads and changes the frame and may panic; the
    frame reached is kept when it panics. *)
Definition M (W A : Type) : Type := Frame W -> outcome A * Frame W.

Definition ret {W A} (a : A) : M W A := fun s => (Returned a, s).
Definition panic {W A} : M W A := fun s => (Panicked, s).
Definition bind {W A B} (m : M W A) (k : A -> M W B) : M W B :=
  fun s => match m s with
           | (Returned a, s') => k a s'
           | (Panicked, s') => (Panicked, s')
           end.

Notation "x <- m ;; k" := (bind m (fun x => k))
  (at level 100, m at next level, right associativity).
Notation "m ;;; k" := (bind m (fun _ => k))
  (at level 100, right associativity).

(** Following a pointer: a nil one panics. *)
Definition deref {W A} (p : option A) : M W A :=
  match p with Some a => ret a | None => panic end.

(** One call of a collaborator: it is noted in the trace, and the world
    moves on. *)
Definition call {W A} (ev : Event) (f : W -> W * outcome A) : M W A :=
  fun s =>
    let '(w, r) := f (world s) in
    (r, mkFrame w (trace s ++ [ev]) (post s) (err s)
          (comments_recover s) (reactions_recover s)).

Definition set_err {W} (e : error) : M W unit :=
  fun s => (Returned tt, mkFrame (world s) (trace s) (post s) e
                           (comments_recover s) (reactions_recover s)).
Definition set_post {W} (p : Post) : M W unit :=
  fun s => (Returned tt, mkFrame (world s) (trace s) p (err s)
                           (comments_recover s) (reactions_recover s)).
Definition defer_comments_recover {W} : M W unit :=
  fun s => (Returned tt, mkFrame (world s) (trace s) (post s) (err s)
                           true (reactions_recover s)).
Definition defer_reactions_recover {W} : M W unit :=
  fun s => (Returned tt, mkFrame (world s) (trace s) (post s) (err s)
                           (comments_recover s) true).

Section Extract.
Context {W : Type} (P : Platform W).

(** [fetchfilefromtelegram]: the path of the downloaded file, or the
    empty string. Its deferred recover turns a panic (a nil file, a nil
    [Local], a panic of the client) into the zero value of the result. *)
Definition fetchfilefromtelegram_body (downloadid : string) : M W string :=
  r <- call (AskedRemoteFile downloadid) (fun w => GetRemoteFile P w downloadid) ;;
  match r.2 with
  | Some _ => ret ""
  | None =>
      f <- deref r.1 ;;
      d <- call (AskedDownload (File_Id f)) (fun w => DownloadFile P w (File_Id f)) ;;
      match d.2 with
      | Some _ => ret ""
      | None =>
          downloadedFile <- deref d.1 ;;
          loc <- deref (File_Local downloadedFile) ;;
          if decide (LocalFile_Path loc = "") then ret ""
          else ret (LocalFile_Path loc)
      end
  end.

Definition fetchfilefromtelegram (downloadid : string) : M W string :=
  fun s => match fetchfilefromtelegram_body downloadid s with
           | (Returned path, s') => (Returned path, s')
           | (Panicked, s') => (Returned "", s')
           end.

(** [processMessageSafely]: the remote ids of a video message's
    thumbnail and video, and its caption; an error when the message, its
    video or the thumbnail is nil. *)
Definition processMessageSafely (mymsg : option MessageVideo)
    : M W (string * string * string * error) :=
  match mymsg with
  | None => ret ("", "", "", Some "invalid or corrupt message structure")
  | Some m =>
      match MessageVideo_Video m with
      | None => ret ("", "", "", Some "invalid or corrupt message structure")
      | Some v =>
          match Video_Thumbnail v with
          | None => ret ("", "", "", Some "invalid or corrupt message structure")
          | Some th =>
              tf <- deref (Thumbnail_File th) ;;
              tr <- deref (File_Remote tf) ;;
              vf <- deref (Video_Video v) ;;
              vr <- deref (File_Remote vf) ;;
              caption <- deref (MessageVideo_Caption m) ;;
              ret (RemoteFile_Id tr, RemoteFile_Id vr, Text caption, None)
          end
      end
  end.

(** The two lines that follow each media reference in [ParseMessage]:
    [path := fetchfilefromtelegram(tdlibClient, id)] and
    [err = sm.UploadBlobFileAndDelete(crawlid, channelName, mlr.Link, path)]. *)
Definition fetch_and_upload (crawlid channelName link id : string) : M W unit :=
  path <- fetchfilefromtelegram id ;;
  e <- call (Uploaded crawlid channelName link path)
         (fun w => UploadBlobFileAndDelete P w crawlid channelName link path) ;;
  set_err e.

(** [x.Thumbnail.File.Remote.Id]. *)
Definition thumbnail_remote_id (th : option Thumbnail) : M W string :=
  t <- deref th ;;
  f <- deref (Thumbnail_File t) ;;
  r <- deref (File_Remote f) ;;
  ret (RemoteFile_Id r).

(** [f.Remote.Id] for a file pointer [f]. *)
Definition file_remote_id (f : option File) : M W string :=
  f' <- deref f ;;
  r <- deref (File_Remote f') ;;
  ret (RemoteFile_Id r).

(** The type switch on [message.Content]: the description, the
    thumbnail path and the video path it leaves. *)
Definition extract_content (crawlid channelName link : string)
    (content : option MessageContent) : M W (string * string * string) :=
  match content with
  | Some (ContentText content) =>
      c <- deref content ;;
      t <- deref (MessageText_Text c) ;;
      ret (Text t, "", "")
  | Some (ContentVideo content) =>
      r <- processMessageSafely content ;;
      let '(thumbnailPath, videoPath, description, _) := r in
      fetch_and_upload crawlid channelName link thumbnailPath ;;;
      fetch_and_upload crawlid channelName link videoPath ;;;
      ret (description, thumbnailPath, videoPath)
  | Some (ContentPhoto content) =>
      c <- deref content ;;
      caption <- deref (MessagePhoto_Caption c) ;;
      photo <- deref (MessagePhoto_Photo c) ;;
      size0 <- deref (mjoin (Photo_Sizes photo !! 0%nat)) ;;
      thumbnailPath <- file_remote_id (PhotoSize_Photo size0) ;;
      fetch_and_upload crawlid channelName link thumbnailPath ;;;
      ret (Text caption, thumbnailPath, "")
  | Some (ContentAnimation content) =>
      c <- deref content ;;
      caption <- deref (MessageAnimation_Caption c) ;;
      animation <- deref (MessageAnimation_Animation c) ;;
      thumbnailPath <- thumbnail_remote_id (Animation_Thumbnail animation) ;;
      fetch_and_upload crawlid channelName link thumbnailPath ;;;
      ret (Text caption, thumbnailPath, "")
  | Some (ContentAnimatedEmoji content) =>
      c <- deref content ;;
      ret (AnimatedEmoji_Emoji c, "", "")
  | Some (ContentPoll content) =>
      c <- deref content ;;
      poll <- deref (MessagePoll_Poll c) ;;
      question <- deref (Poll_Question poll) ;;
      ret (Text question, "", "")
  | Some (ContentGiveaway content) =>
      c <- deref content ;;
      prize <- deref (Giveaway_Prize c) ;;
      ret (prize, "", "")
  | Some (ContentPaidMedia content) =>
      c <- deref content ;;
      caption <- deref (PaidMedia_Caption c) ;;
      ret (Text caption, "", "")
  | Some (ContentSticker content) =>
      c <- deref content ;;
      sticker <- deref (MessageSticker_Sticker c) ;;
      thumbnailPath <- file_remote_id (Sticker_Sticker sticker) ;;
      fetch_and_upload crawlid channelName link thumbnailPath ;;;
      ret ("", thumbnailPath, "")
  | Some ContentGiveawayWinners => ret ("", "", "")
  | Some ContentGiveawayCompleted => ret ("", "", "")
  | Some (ContentVideoNote content) =>
      c <- deref content ;;
      note <- deref (MessageVideoNote_VideoNote c) ;;
      thumbnailPath <- thumbnail_remote_id (VideoNote_Thumbnail note) ;;
      fetch_and_upload crawlid channelName link thumbnailPath ;;;
      videoPath <- file_remote_id (VideoNote_Video note) ;;
      fetch_and_upload crawlid channelName link thumbnailPath ;;;
      ret ("", thumbnailPath, videoPath)
  | Some (ContentDocument content) =>
      c <- deref content ;;
      document <- deref (MessageDocument_Document c) ;;
      thumbnailPath <- thumbnail_remote_id (Document_Thumbnail document) ;;
      fetch_and_upload crawlid channelName link thumbnailPath ;;;
      videoPath <- file_remote_id (Document_Document document) ;;
      fetch_and_upload crawlid channelName link thumbnailPath ;;;
      ret (Document_FileName document, thumbnailPath, videoPath)
  | Some (ContentOther _) => ret ("", "", "")
  | None => ret ("", "", "")
  end.

(** The comments of the message: fetched when it has reply info with a
    positive count, after the comments recover has been deferred. *)
Definition fetch_comments (msg : Message) (chat : option Chat) (channelName : string)
    : M W (list Comment) :=
  match InteractionInfo msg with
  | Some (mkMessageInteractionInfo (Some replyInfo) _) =>
      defer_comments_recover ;;;
      if decide (0 < ReplyCount replyInfo) then
        ch <- deref chat ;;
        r <- call (AskedComments (Chat_Id ch) (Id msg) channelName)
               (fun w => GetMessageComments P w (Chat_Id ch) (Id msg) channelName) ;;
        set_err r.2 ;;;
        ret r.1
      else ret []
  | _ => ret []
  end.

(** The loop over the reaction entries: [reactions[emoji] = count] for
    each entry whose type is an emoji. A nil entry and a nil emoji
    pointer panic. *)
Fixpoint count_reactions (entries : list (option MessageReaction))
    (reactions : gmap string Z) : outcome (gmap string Z) :=
  match entries with
  | [] => Returned reactions
  | None :: _ => Panicked
  | Some reaction :: rest =>
      match Reaction_Type reaction with
      | Some (ReactionEmoji (Some emojiReaction)) =>
          count_reactions rest (<[Emoji emojiReaction := TotalCount reaction]> reactions)
      | Some (ReactionEmoji None) => Panicked
      | Some ReactionCustomEmoji | Some ReactionPaid | None =>
          count_reactions rest reactions
      end
  end.

Definition aggregate_reactions (msg : Message) : M W (gmap string Z) :=
  match InteractionInfo msg with
  | Some (mkMessageInteractionInfo _ (Some (mkMessageReactions (entry :: entries)))) =>
      defer_reactions_recover ;;;
      match count_reactions (entry :: entries) ∅ with
      | Returned reactions => ret reactions
      | Panicked => panic
      end
  | _ => ret ∅
  end.

(** The body of [ParseMessage]; what it returns is what its [return]
    statement names. [last linkParts] is [linkParts[len(linkParts)-1]]
    when [len(linkParts) > 0], and [None] otherwise. *)
Definition ParseMessage_body (crawlid : string) (message : option Message)
    (mlr : option MessageLink) (chat : option Chat)
    (supergroupInfo : option SupergroupFullInfo) (postcount viewcount : Z)
    (channelName : string) : M W (Post * error) :=
  msg <- deref message ;;
  let publishedAt := Date msg in
  if decide (Year (local_offset P publishedAt) publishedAt < 2018) then ret (emptyPost, None)
  else
    lnk <- deref mlr ;;
    let linkParts := Split (Link lnk) "/" in
    match last linkParts with
    | None => ret (emptyPost, None)
    | Some messageNumber =>
        comments <- fetch_comments msg chat channelName ;;
        c <- extract_content crawlid channelName (Link lnk) (Content msg) ;;
        let '(description, thumbnailPath, videoPath) := c in
        reactions <- aggregate_reactions msg ;;
        content <- deref (Content msg) ;;
        let posttype := [MessageContentType content] in
        let createdAt := EditDate msg in
        vc <- call (AskedViewCount channelName) (fun w => GetViewCount P w msg channelName) ;;
        let postUid := (messageNumber +:+ "-" +:+ channelName)%string in
        ch <- deref chat ;;
        sc <- call (AskedShareCount (Chat_Id ch) (Id msg) channelName)
                (fun w => GetMessageShareCount P w (Chat_Id ch) (Id msg) channelName) ;;
        let sharecount := sc.1 in
        info <- deref supergroupInfo ;;
        let p :=
          {| PostLink := Link lnk;
             ChannelID := ChatId msg;
             PostUID := postUid;
             URL := Link lnk;
             PublishedAt := publishedAt;
             CreatedAt := createdAt;
             LanguageCode := "RU";
             Engagement := vc;
             ViewCount := vc;
             LikeCount := 0;
             ShareCount := sharecount;
             CommentCount := Z.of_nat (length comments);
             ChannelName := Title ch;
             Description := description;
             IsAd := false;
             PostType := posttype;
             TranscriptText := "";
             ImageText := "";
             PlatformName := "Telegram";
             LikesCount := 0;
             SharesCount := sharecount;
             CommentsCount := Z.of_nat (length comments);
             ViewsCount := vc;
             SearchableText := "";
             AllText := "";
             ThumbURL := thumbnailPath;
             MediaURL := videoPath;
             Channel :=
               {| C_ChannelID := ChatId msg;
                  C_ChannelName := Title ch;
                  C_ChannelProfileImage := "";
                  C_ChannelEngagementData :=
                    {| E_FollowerCount := MemberCount info;
                       E_FollowingCount := 0;
                       E_LikeCount := 0;
                       E_PostCount := postcount;
                       E_ViewsCount := viewcount;
                       E_CommentCount := 0;
                       E_ShareCount := 0 |};
                  C_ChannelURLExternal := ("https://t.me/c/" +:+ channelName)%string;
                  C_ChannelURL := "" |};
             Comments := comments;
             PostReactions := reactions |} in
        set_post p ;;;
        e <- call (Stored crawlid channelName p) (fun w => StoreData P w crawlid channelName p) ;;
        set_err e ;;;
        ret (p, None)
    end.

(** [ParseMessage]: the body under its deferred recovers. A [return]
    sets the named results. A panic is recovered by the recover deferred
    last: the reactions one or the comments one when set up, which only
    log, and otherwise the outer one, which sets [err]; the named results
    are returned as they stand. *)
Definition ParseMessage (crawlid : string) (message : option Message)
    (mlr : option MessageLink) (chat : option Chat)
    (supergroupInfo : option SupergroupFullInfo) (postcount viewcount : Z)
    (channelName : string) (w : W) : Post * error * Frame W :=
  let s0 := mkFrame w [] emptyPost None false false in
  match ParseMessage_body crawlid message mlr chat supergroupInfo postcount viewcount
          channelName s0 with
  | (Returned (p, e), s) => (p, e, s)
  | (Panicked, s) =>
      if reactions_recover s || comments_recover s
      then (post s, err s, s)
      else (post s, Some "failed to parse message", s)
  end.

End Extract.

End Extractor.

(* ================================================================== *)
(** * Standalone mode: [StartDaprStandaloneMode] and [readURLsFromFile] *)
(* ================================================================== *)

Module Standalone.
Import Extractor.

(** ** Library functions *)

(** [strings.TrimSpace] removes the leading and the trailing white space
    of a string, as Unicode defines it ([unicode.IsSpace]), rune by rune
    in the string's UTF-8 bytes. The white-space runes are the six ASCII
    ones (tab, line feed, vertical tab, form feed, carriage return,
    space), U+0085 and U+00A0 (two bytes each), and U+1680,
    U+2000..U+200A, U+2028, U+2029, U+202F, U+205F and U+3000 (three
    bytes each); a byte sequence that is not the encoding of one of these
    is not white space. *)
Definition asciiSpace (c : ascii) : bool :=
  bool_decide (c ∈ ["009"; "010"; "011"; "012"; "013"; " "]%char).

Definition space2 (c1 c2 : ascii) : bool :=
  bool_decide ((c1, c2) ∈ [("194", "133"); ("194", "160")]%char).

Definition space3 (c1 c2 c3 : ascii) : bool :=
  bool_decide ((c1, c2, c3) ∈
    [("225", "154", "128");
     ("226", "128", "128"); ("226", "128", "129"); ("226", "128", "130");
     ("226", "128", "131"); ("226", "128", "132"); ("226", "128", "133");
     ("226", "128", "134"); ("226", "128", "135"); ("226", "128", "136");
     ("226", "128", "137"); ("226", "128", "138");
     ("226", "128", "168"); ("226", "128", "169"); ("226", "128", "175");
     ("226", "129", "159");
     ("227", "128", "128")]%char).

(** The bytes left when the runes at the head that [sp1], [sp2], [sp3]
    take for white space are dropped. *)
Fixpoint trim (sp1 : ascii -> bool) (sp2 : ascii -> ascii -> bool)
    (sp3 : ascii -> ascii -> ascii -> bool) (l : list ascii) : list ascii :=
  match l with
  | c1 :: l1 =>
      if sp1 c1 then trim sp1 sp2 sp3 l1
      else match l1 with
           | c2 :: l2 =>
               if sp2 c1 c2 then trim sp1 sp2 sp3 l2
               else match l2 with
                    | c3 :: l3 => if sp3 c1 c2 c3 then trim sp1 sp2 sp3 l3 else l
                    | [] => l
                    end
           | [] => l
           end
  | [] => l
  end.

(** Leading white space is read forwards; trailing white space is read
    from the last byte backwards. *)
Definition TrimLeft (l : list ascii) : list ascii := trim asciiSpace space2 space3 l.
Definition TrimRight (l : list ascii) : list ascii :=
  reverse (trim asciiSpace (fun c2 c1 => space2 c1 c2) (fun c3 c2 c1 => space3 c1 c2 c3)
             (reverse l)).

Definition TrimSpace (s : string) : string :=
  String.string_of_list_ascii (TrimRight (TrimLeft (String.list_ascii_of_string s))).

(** [strings.HasPrefix(s, prefix)]. *)
Definition HasPrefix (s prefix : string) : bool := String.prefix prefix s.

(** ** [readURLsFromFile] *)

(** The loop over the lines: a line is trimmed, and appended to [urls]
    unless it is empty or starts with '#'. *)
Fixpoint collect_urls (lines : list string) (urls : list string) : list string :=
  match lines with
  | [] => urls
  | line :: rest =>
      let line := TrimSpace line in
      if bool_decide (line <> "") && negb (HasPrefix line "#")
      then collect_urls rest (urls ++ [line])
      else collect_urls rest urls
  end.

(** [ReadFile] is [os.ReadFile] on the file system as it stands: the
    content of a file and a nil error, or an error. *)
Definition readURLsFromFile (ReadFile : string -> string * error) (filename : string)
    : list string * error :=
  let '(data, err) := ReadFile filename in
  match err with
  | Some e => ([], Some e)
  | None => (collect_urls (Split data "010") [], None)
  end.

(** ** [StartDaprStandaloneMode] *)

(** How [StartDaprStandaloneMode] ends: [log.Fatal] ends the process with
    the message logged; [GenCode] is called and the process exits with
    status 0; or [launch] is called with the URLs collected. *)
Inductive Started :=
| Fatal (msg : string)
| RanGenCode
| Launched (urls : list string).

Definition StartDaprStandaloneMode (ReadFile : string -> string * error)
    (urlList : list string) (urlFile : string) (generateCode : bool) : Started :=
  let urls := [] in
  let urls := if decide (0 < length urlList)%nat then urls ++ urlList else urls in
  let collected :=
    if decide (urlFile <> "") then
      match readURLsFromFile ReadFile urlFile with
      | (_, Some _) => None
      | (fileURLs, None) => Some (urls ++ fileURLs)
      end
    else Some urls in
  match collected with
  | None => Fatal "Failed to read URLs from file"
  | Some urls =>
      if decide (length urls = 0)%nat
      then Fatal "No URLs provided. Use --urls or --url-file to specify URLs to crawl"
      else if generateCode then RanGenCode
      else Launched urls
  end.

End Standalone.

(** How far a loop that is run for a number of turns has come: it has
    ended with a result, or it is still running. *)
Inductive progress (A : Type) : Type :=
| Finished (a : A)
| Running.
Arguments Finished {A} a.
Arguments Running {A}.

(* ================================================================== *)
(** * Clearing a directory: [removeMultimedia] *)
(* ================================================================== *)

Module Cleanup.

(** The file system calls of [removeMultimedia], over a world [W].
    [Stat] is [os.Stat]: the [IsDir] of the info returned (nil when there
    is none) and the error. [IsNotExist] is [os.IsNotExist] on an error
    that is not nil. [walk_next] is [filepath.Walk] seen from the function
    it is given: the next call the walk of a root makes of that function,
    with the path and the error it passes and the world in which it makes
    it, or [None] when the walk is over. [RemoveAll] is [os.RemoveAll]. *)
Record FileSystem (W : Type) := mkFileSystem {
  Stat : W -> string -> option bool * error;
  IsNotExist : string -> bool;
  walk_next : W -> string -> option (W * string * error);
  RemoveAll : W -> string -> W * error
}.
Arguments Stat {W} _ _ _.
Arguments IsNotExist {W} _ _.
Arguments walk_next {W} _ _ _.
Arguments RemoveAll {W} _ _ _.

(** The world, and the calls of [os.RemoveAll] made so far, each with
    the error it returned (kept for the proofs). *)
Record Removing (W : Type) := mkRemoving {
  files : W;
  removed : list (string * error)
}.
Arguments mkRemoving {W} _ _.
Arguments files {W} _.
Arguments removed {W} _.

Section Remove.
Context {W : Type} (FS : FileSystem W).

(** The function handed to [filepath.Walk]. *)
Definition remove_entry (filedir : string) (s : Removing W) (path : string) (err : error)
    : Removing W * error :=
  match err with
  | Some e => (s, Some e)
  | None =>
      if decide (path = filedir) then (s, None)
      else
        let '(w, e) := RemoveAll FS (files s) path in
        (mkRemoving w (removed s ++ [(path, e)]), e)
  end.

(** [filepath.Walk(root, fn)], for a function that returns no [SkipDir]
    and no [SkipAll] (os errors are neither): the walk stops at the first
    error the function returns, and returns it. *)
Fixpoint Walk (fuel : nat) (root : string)
    (fn : Removing W -> string -> error -> Removing W * error)
    (s : Removing W) : Removing W * progress error :=
  match fuel with
  | O => (s, Running)
  | S fuel' =>
      match walk_next FS (files s) root with
      | None => (s, Finished None)
      | Some (w, path, err) =>
          match fn (mkRemoving w (removed s)) path err with
          | (s', Some e) => (s', Finished (Some e))
          | (s', None) => Walk fuel' root fn s'
          end
      end
  end.

(** [removeMultimedia]. Calling [IsDir] on a nil info panics. *)
Definition removeMultimedia (fuel : nat) (filedir : string) (w : W)
    : Removing W * progress (outcome error) :=
  let s := mkRemoving w [] in
  let '(info, err) := Stat FS w filedir in
  if (match err with Some e => IsNotExist FS e | None => false end)
  then (s, Finished (Returned None))
  else
    match err with
    | Some e => (s, Finished (Returned (Some e)))
    | None =>
        match info with
        | None => (s, Finished Panicked)
        | Some isDir =>
            if negb isDir then (s, Finished (Returned err))
            else
              match Walk fuel filedir (remove_entry filedir) s with
              | (s', Running) => (s', Running)
              | (s', Finished (Some e)) => (s', Finished (Returned (Some e)))
              | (s', Finished None) => (s', Finished (Returned None))
              end
        end
    end.

End Remove.

End Cleanup.

(* ================================================================== *)
(** * Fetching and unpacking an archive: [downloadAndExtractTarball] *)
(* ================================================================== *)

Module Archive.

(** A [tar.Header], with the fields the extraction reads. *)
Record Header := mkHeader { Name : string; Typeflag : ascii }.

Definition TypeReg : ascii := "0"%char.
Definition TypeDir : ascii := "5"%char.

(** What [tarReader.Next] returns: [io.EOF] at the end of the archive,
    another error, or the header of the next entry. *)
Inductive Next_result :=
| Next_EOF
| Next_error (e : string)
| Next_header (header : Header).

(** The calls the extraction makes, over a world [W]: [NewReader] is
    [gzip.NewReader] on the reader given, [Next] is [tarReader.Next],
    [Join] and [Dir] are those of [path/filepath], [MkdirAll] and [Create]
    those of [os], and [Copy] is [io.Copy] of the current entry into the
    file created at a path. *)
Record Tools (W : Type) := mkTools {
  NewReader : W -> W * error;
  Next : W -> W * Next_result;
  Join : string -> string -> string;
  Dir : string -> string;
  MkdirAll : W -> string -> W * error;
  Create : W -> string -> W * error;
  Copy : W -> string -> W * error
}.
Arguments NewReader {W} _ _.
Arguments Next {W} _ _.
Arguments Join {W} _ _ _.
Arguments Dir {W} _ _.
Arguments MkdirAll {W} _ _ _.
Arguments Create {W} _ _ _.
Arguments Copy {W} _ _ _.

(** The calls made on the file system, kept for the proofs. *)
Inductive Op :=
| MadeDir (path : string)
| Created (path : string)
| Copied (path : string)
| Closed (path : string)
| ClosedGzip
| ClosedBody.

#[global] Instance Op_eq_dec : EqDecision Op.
Proof. solve_decision. Defined.

(** The world, the calls made so far with the error each returned, and
    the files whose [Close] is deferred, oldest first. *)
Record Extracting (W : Type) := mkExtracting {
  disk : W;
  ops : list (Op * error);
  deferred : list string
}.
Arguments mkExtracting {W} _ _ _.
Arguments disk {W} _.
Arguments ops {W} _.
Arguments deferred {W} _.

Section Extract.
Context {W : Type} (T : Tools W).

(** The [for] loop, run for at most [fuel] entries. *)
Fixpoint extract_entries (fuel : nat) (targetDir : string) (s : Extracting W)
    : Extracting W * progress error :=
  match fuel with
  | O => (s, Running)
  | S fuel' =>
      let '(w, r) := Next T (disk s) in
      match r with
      | Next_EOF => (mkExtracting w (ops s) (deferred s), Finished None)
      | Next_error e => (mkExtracting w (ops s) (deferred s), Finished (Some e))
      | Next_header header =>
          let targetPath := Join T targetDir (Name header) in
          if decide (Typeflag header = TypeDir) then
            let '(w1, err) := MkdirAll T w targetPath in
            let s1 := mkExtracting w1 (ops s ++ [(MadeDir targetPath, err)]) (deferred s) in
            match err with
            | Some e => (s1, Finished (Some e))
            | None => extract_entries fuel' targetDir s1
            end
          else if decide (Typeflag header = TypeReg) then
            let '(w1, err) := MkdirAll T w (Dir T targetPath) in
            let s1 := mkExtracting w1 (ops s ++ [(MadeDir (Dir T targetPath), err)])
                        (deferred s) in
            match err with
            | Some e => (s1, Finished (Some e))
            | None =>
                let '(w2, err) := Create T w1 targetPath in
                let s2 := mkExtracting w2 (ops s1 ++ [(Created targetPath, err)])
                            (deferred s1) in
                match err with
                | Some e => (s2, Finished (Some e))
                | None =>
                    let '(w3, err) := Copy T w2 targetPath in
                    let s3 := mkExtracting w3 (ops s2 ++ [(Copied targetPath, err)])
                                (deferred s2 ++ [targetPath]) in
                    match err with
                    | Some e => (s3, Finished (Some e))
                    | None => extract_entries fuel' targetDir s3
                    end
                end
            end
          else extract_entries fuel' targetDir (mkExtracting w (ops s) (deferred s))
      end
  end.

(** The deferred calls, run when the function returns: the files are
    closed, last created first, and then the gzip reader. *)
Definition run_deferred (s : Extracting W) : Extracting W :=
  mkExtracting (disk s)
    (ops s ++ ((fun path => (Closed path, None)) <$> reverse (deferred s)) ++
       [(ClosedGzip, None)])
    [].

Definition downloadAndExtractTarballFromReader (fuel : nat) (targetDir : string) (w : W)
    : Extracting W * progress error :=
  let '(w0, err) := NewReader T w in
  match err with
  | Some e => (mkExtracting w0 [] [], Finished (Some e))
  | None =>
      match extract_entries fuel targetDir (mkExtracting w0 [] []) with
      | (s, Running) => (s, Running)
      | (s, Finished e) => (run_deferred s, Finished e)
      end
  end.

End Extract.

(** ** [downloadAndExtractTarball] *)

(** An [http.Request] and an [http.Response], with the fields read. *)
Record Request := mkRequest {
  Method : string;
  Request_URL : string;
  Request_Header : list (string * string)
}.
Record Response := mkResponse { StatusCode : Z; Status : string }.

(** [req.Header.Set(key, value)]: the value replaces those the key had. *)
Definition Header_Set (req : Request) (key value : string) : Request :=
  mkRequest (Method req) (Request_URL req)
    (filter (fun kv => kv.1 <> key) (Request_Header req) ++ [(key, value)]).

(** [NewRequest] is [http.NewRequest] for a method and a URL, with no
    body; [Do] is the [Do] of a fresh [http.Client]. Either returns a
    pointer, which may be nil, and an error. *)
Record Web (W : Type) := mkWeb {
  NewRequest : string -> string -> option Request * error;
  Do : W -> Request -> W * (option Response * error)
}.
Arguments NewRequest {W} _ _ _.
Arguments Do {W} _ _ _.

Section Download.
Context {W : Type} (H : Web W) (T : Tools W).

(** The headers are set on the request before the error of
    [http.NewRequest] is looked at: a nil request panics there. The
    deferred [resp.Body.Close] runs when the function returns, after the
    deferred calls of the extraction. *)
Definition downloadAndExtractTarball (fuel : nat) (url targetDir : string) (w : W)
    : Extracting W * progress (outcome error) :=
  let '(req, err) := NewRequest H "GET" url in
  match req with
  | None => (mkExtracting w [] [], Finished Panicked)
  | Some req =>
      let req := Header_Set req "User-Agent" "Mozilla/5.0 (Windows NT 10.0; Win64; x64)" in
      let req := Header_Set req "Accept" "*/*" in
      match err with
      | Some e => (mkExtracting w [] [], Finished (Returned (Some e)))
      | None =>
          let '(w1, (resp, err)) := Do H w req in
          match err with
          | Some e => (mkExtracting w1 [] [], Finished (Returned (Some e)))
          | None =>
              match resp with
              | None => (mkExtracting w1 [] [], Finished Panicked)
              | Some resp =>
                  if decide (StatusCode resp <> 200) then
                    (mkExtracting w1 [(ClosedBody, None)] [],
                     Finished (Returned (Some ("non-200 status returned: " +:+ Status resp))))
                  else
                    match downloadAndExtractTarballFromReader T fuel targetDir w1 with
                    | (s, Running) => (s, Running)
                    | (s, Finished e) =>
                        (mkExtracting (disk s) (ops s ++ [(ClosedBody, None)]) (deferred s),
                         Finished (Returned e))
                    end
              end
          end
      end
  end.

End Download.

End Archive.

(* ================================================================== *)
(** * The YouTube adapter *)
(* ================================================================== *)

Module YouTube.

(** A [client.Message]: an interface value, kept as what its getters
    return. [GetReactions] and [GetThumbnails] return maps, which may be
    nil. *)
Record Message := mkMessage {
  GetID : string;
  GetTitle : string;
  GetDescription : string;
  GetTimestamp : Z;
  GetViews : Z;
  GetCommentCount : Z;
  GetThumbnails : option (gmap string string);
  GetLanguage : string;
  GetReactions : option (gmap string Z)
}.

(** A [client.Client], over a world [W], with the methods that
    [NewClientAdapter] and [GetVideos] call. A message it returns may be
    nil. *)
Record Client (W : Type) := mkClient {
  GetChannelType : string;
  GetMessages : W -> string -> Z -> Z -> Z -> W * (list (option Message) * error)
}.
Arguments GetChannelType {W} _.
Arguments GetMessages {W} _ _ _ _ _ _.

Record YouTubeVideo := mkYouTubeVideo {
  ID : string;
  ChannelID : string;
  Title : string;
  Description : string;
  PublishedAt : Z;
  ViewCount : Z;
  LikeCount : Z;
  CommentCount : Z;
  Thumbnails : option (gmap string string);
  Language : string
}.

(** A [ClientAdapter]: its [client] field, which is nil in the zero
    value. *)
Record ClientAdapter (W : Type) := mkClientAdapter { client : option (Client W) }.
Arguments mkClientAdapter {W} _.
Arguments client {W} _.

Section Adapter.
Context {W : Type}.

Definition NewClientAdapter (c : option (Client W)) : option (ClientAdapter W) * error :=
  match c with
  | None => (None, Some "client cannot be nil")
  | Some c' =>
      if decide (GetChannelType c' <> "youtube")
      then (None, Some "client is not a YouTube client")
      else (Some (mkClientAdapter (Some c')), None)
  end.

(** The video made of one message. *)
Definition video_of (channelID : string) (msg : Message) : YouTubeVideo :=
  let video :=
    {| ID := GetID msg;
       ChannelID := channelID;
       Title := GetTitle msg;
       Description := GetDescription msg;
       PublishedAt := GetTimestamp msg;
       ViewCount := GetViews msg;
       LikeCount := 0;
       CommentCount := GetCommentCount msg;
       Thumbnails := GetThumbnails msg;
       Language := GetLanguage msg |} in
  match GetReactions msg with
  | Some reactions =>
      match reactions !! "like" with
      | Some likeCount =>
          {| ID := ID video; ChannelID := ChannelID video; Title := Title video;
             Description := Description video; PublishedAt := PublishedAt video;
             ViewCount := ViewCount video; LikeCount := likeCount;
             CommentCount := CommentCount video; Thumbnails := Thumbnails video;
             Language := Language video |}
      | None => video
      end
  | None => video
  end.

(** The loop over the messages; calling a getter of a nil message
    panics. *)
Fixpoint convert_messages (channelID : string) (messages : list (option Message))
    (videos : list YouTubeVideo) : outcome (list YouTubeVideo) :=
  match messages with
  | [] => Returned videos
  | None :: _ => Panicked
  | Some msg :: rest => convert_messages channelID rest (videos ++ [video_of channelID msg])
  end.

Definition GetVideos (a : ClientAdapter W) (w : W) (channelID : string)
    (fromTime toTime limit : Z) : W * outcome (list YouTubeVideo * error) :=
  match client a with
  | None => (w, Panicked)
  | Some c =>
      let '(w', (messages, err)) := GetMessages c w channelID fromTime toTime limit in
      match err with
      | Some e => (w', Returned ([], Some e))
      | None =>
          match convert_messages channelID messages [] with
          | Returned videos => (w', Returned (videos, None))
          | Panicked => (w', Panicked)
          end
      end
  end.

Definition GetVideosFromChannel (a : ClientAdapter W) (w : W) (channelID : string)
    (fromTime toTime limit : Z) : W * outcome (list YouTubeVideo * error) :=
  GetVideos a w channelID fromTime toTime limit.

End Adapter.

End YouTube.

(* ================================================================== *)
(** * Properties of [launch] *)
(* ================================================================== *)

Module LaunchFacts.
Import Orchestrator.
Set Warnings "-clear-no-such-hyp".

(** A page not yet visited, as a seed or an outlink comes. *)
Definition unvisited (u : string) : Page := mkPage u "unvisited" 0.

(** A crawl in which visiting [src] finds the identifiers [found], and
    visiting anything else finds nothing; a map is ranged over in the
    order of its listing. *)
Definition finds (src : string) (found : list string) : Collaborators unit :=
  mkCollaborators unit (fun _ => 0%Z)
    (fun w p => (w, Returned (if decide (URL p = src)
                              then (fun u => Some (unvisited u)) <$> found
                              else [], None)))
    (fun w _ => (w, Returned None))
    (fun _ l => l) (fun _ l => Permutation_refl l).

(** The identifiers of a list of pages, and of a batch of outlinks. *)
Definition urls (pages : list Page) : list string := URL <$> pages.
Definition outlink_urls (outlinks : list (option Page)) : gset string :=
  list_to_set (URL <$> omap id outlinks).

(** ** The map keyed by URL *)

Lemma index_by_url_snoc l p :
  index_by_url (l ++ [p]) = <[URL p := p]> (index_by_url l).
Proof. unfold index_by_url. by rewrite foldl_app. Qed.

Lemma index_by_url_lookup_Some l k p :
  index_by_url l !! k = Some p -> p ∈ l /\ URL p = k.
Proof.
  induction l as [|q l IH] using rev_ind.
  - unfold index_by_url; simpl. by rewrite lookup_empty.
  - rewrite index_by_url_snoc. intros H.
    destruct (decide (URL q = k)) as [<-|Hne].
    + rewrite lookup_insert_eq in H. inversion H; subst. split; [|done].
      apply elem_of_app; right. by apply list_elem_of_singleton.
    + rewrite lookup_insert_ne in H by done.
      destruct (IH H) as [? ?]. split; [|done]. apply elem_of_app; by left.
Qed.

Lemma index_by_url_dom l : dom (index_by_url l) = list_to_set (urls l).
Proof.
  induction l as [|q l IH] using rev_ind.
  - unfold index_by_url; simpl. by rewrite dom_empty_L.
  - rewrite index_by_url_snoc, dom_insert_L, IH. unfold urls.
    rewrite fmap_app, list_to_set_app_L. simpl.
    rewrite union_empty_r_L. apply union_comm_L.
Qed.

Lemma index_by_url_size l : (size (index_by_url l) <= length l)%nat.
Proof.
  induction l as [|q l IH] using rev_ind.
  - unfold index_by_url; simpl. by rewrite map_size_empty.
  - rewrite index_by_url_snoc, length_app. simpl.
    rewrite map_size_insert.
    destruct (index_by_url l !! URL q); simpl; lia.
Qed.

Lemma index_by_url_values_perm l :
  NoDup (urls l) -> (map_to_list (index_by_url l)).*2 ≡ₚ l.
Proof.
  induction l as [|q l IH] using rev_ind; intros Hnd.
  - unfold index_by_url; simpl. by rewrite map_to_list_empty.
  - unfold urls in Hnd. rewrite fmap_app in Hnd. apply NoDup_app in Hnd as (Hl & Hq & _).
    rewrite index_by_url_snoc.
    assert (index_by_url l !! URL q = None) as Hnone.
    { apply not_elem_of_dom. rewrite index_by_url_dom. intros Hin.
      apply elem_of_list_to_set in Hin. apply (Hq _ Hin). simpl. left. }
    rewrite (map_to_list_insert _ _ _ Hnone). simpl. rewrite (IH Hl).
    by rewrite Permutation_app_comm.
Qed.

(** ** The batch of outlinks *)

(** [seenURLs] only grows, and only by identifiers of the outlinks. *)
Lemma dedup_outlinks_seen outlinks : forall seen uniq r seen',
  dedup_outlinks outlinks seen uniq = (r, seen') ->
  seen ⊆ seen' /\ seen' ⊆ seen ∪ outlink_urls outlinks.
Proof.
  induction outlinks as [|[ol|] rest IH]; intros seen uniq r seen' H; simpl in H.
  - inversion H; subst. set_solver.
  - unfold outlink_urls in *. simpl. destruct (decide (URL ol ∈ seen)).
    + destruct (IH _ _ _ _ H). set_solver.
    + destruct (IH _ _ _ _ H). set_solver.
  - inversion H; subst. set_solver.
Qed.

(** The outlinks kept are those that were new to [seenURLs], each under
    its own URL. *)
Lemma dedup_outlinks_returned outlinks : forall seen uniq uniq' seen',
  dedup_outlinks outlinks seen uniq = (Returned uniq', seen') ->
  dom uniq ⊆ seen ->
  dom uniq' = dom uniq ∪ (seen' ∖ seen) /\
  (forall k p, uniq' !! k = Some p -> uniq !! k = Some p \/ URL p = k).
Proof.
  induction outlinks as [|[ol|] rest IH]; intros seen uniq uniq' seen' H Hdom; simpl in H.
  - inversion H; subst. split; [set_solver | auto].
  - destruct (decide (URL ol ∈ seen)) as [Hin|Hnin].
    + apply (IH _ _ _ _ H Hdom).
    + pose proof (dedup_outlinks_seen _ _ _ _ _ H) as [Hsub _].
      destruct (IH _ _ _ _ H) as [Hd Hv].
      { rewrite dom_insert_L. set_solver. }
      split.
      * rewrite Hd, dom_insert_L. apply set_eq. intros u.
        rewrite !elem_of_union, !elem_of_difference, elem_of_union, elem_of_singleton.
        destruct (decide (u = URL ol)) as [->|Hne].
        -- split; [|tauto]. intros _. right. split; [|done]. apply Hsub. set_solver.
        -- tauto.
      * intros k p Hk. destruct (Hv k p Hk) as [Hk'|Hk']; [|by right].
        destruct (decide (URL ol = k)) as [<-|Hne].
        -- rewrite lookup_insert_eq in Hk'. inversion Hk'; subst. by right.
        -- rewrite lookup_insert_ne in Hk' by done. by left.
  - discriminate.
Qed.

Section Facts.
Context {W : Type} (C : Collaborators W).

Lemma range_values_perm w m : range_values C w m ≡ₚ (map_to_list m).*2.
Proof. apply range_order_perm. Qed.

Lemma range_values_length w (m : gmap string Page) : length (range_values C w m) = size m.
Proof. rewrite range_values_perm, length_fmap. apply length_map_to_list. Qed.

Lemma range_values_elem w (m : gmap string Page) p :
  p ∈ range_values C w m <-> exists k, m !! k = Some p.
Proof.
  rewrite range_values_perm, list_elem_of_fmap. split.
  - intros [[k q] [-> Hin]]. exists k. by apply elem_of_map_to_list.
  - intros [k Hk]. exists (k, p). split; [done|]. by apply elem_of_map_to_list.
Qed.

(** The pages kept from one batch of outlinks: new to [seen], one per URL. *)
Lemma fresh_pages w outlinks seen uniq seen' :
  dedup_outlinks outlinks seen ∅ = (Returned uniq, seen') ->
  let pag := range_values C w uniq in
  NoDup (urls pag) /\ list_to_set (urls pag) = seen' ∖ seen.
Proof.
  intros H pag.
  destruct (dedup_outlinks_returned _ _ _ _ _ H) as [Hd Hv]; [set_solver|].
  rewrite dom_empty_L, union_empty_l_L in Hd.
  assert (urls pag ≡ₚ (map_to_list uniq).*1) as Hp.
  { unfold pag, urls. rewrite range_values_perm.
    rewrite <- list_fmap_compose.
    erewrite list_fmap_ext; [reflexivity|].
    intros i [k p] Hi. simpl.
    assert ((k, p) ∈ map_to_list uniq) as Hin by (eapply list_elem_of_lookup_2; eauto).
    apply elem_of_map_to_list in Hin. destruct (Hv _ _ Hin) as [He|He]; [|done].
    by rewrite lookup_empty in He. }
  split.
  - rewrite Hp. apply NoDup_fst_map_to_list.
  - rewrite <- Hd. apply set_eq. intros u. rewrite elem_of_list_to_set, Hp.
    rewrite elem_of_dom. rewrite list_elem_of_fmap. split.
    + intros [[k p] [-> Hin]]. apply elem_of_map_to_list in Hin. eauto.
    + intros [p Hk]. exists (u, p). split; [done|]. by apply elem_of_map_to_list.
Qed.

(** A layer rebuilt from the map keyed by URL: no longer than before, with
    the same identifiers, and the same pages when the identifiers were
    distinct. *)
Lemma rebuilt_length w pages :
  (length (range_values C w (index_by_url pages)) <= length pages)%nat.
Proof. rewrite range_values_length. apply index_by_url_size. Qed.

Lemma rebuilt_perm w pages :
  NoDup (urls pages) -> range_values C w (index_by_url pages) ≡ₚ pages.
Proof. intros H. rewrite range_values_perm. by apply index_by_url_values_perm. Qed.

Lemma rebuilt_urls w pages u :
  u ∈ urls (range_values C w (index_by_url pages)) <-> u ∈ urls pages.
Proof.
  unfold urls. rewrite !list_elem_of_fmap. split.
  - intros [p [-> Hp]]. apply range_values_elem in Hp as [k Hk].
    apply index_by_url_lookup_Some in Hk as [Hin _]. eauto.
  - intros [p [-> Hp]].
    assert (URL p ∈ dom (index_by_url pages)) as Hd.
    { rewrite index_by_url_dom. apply elem_of_list_to_set. unfold urls.
      apply list_elem_of_fmap. eauto. }
    apply elem_of_dom in Hd as [q Hq]. exists q. split.
    + by apply index_by_url_lookup_Some in Hq as [_ ->].
    + apply range_values_elem. eauto.
Qed.

(** ** One visit *)

(** How one visit may change the frontier: not at all; or the layer at
    index [l.Depth+1] takes the new pages and is rebuilt; or a layer of the
    new pages is appended. The new pages are those whose identifiers
    [seenURLs] gained. *)
Inductive frontier_change (seen seen' : gset string) (l : Layer)
    (L L' : list Layer) : Prop :=
| fc_same : L' = L -> frontier_change seen seen' l L L'
| fc_merge w existing pag :
    pag <> [] -> NoDup (urls pag) -> list_to_set (urls pag) = seen' ∖ seen ->
    0 <= next_depth l -> L !! Z.to_nat (next_depth l) = Some existing ->
    L' = <[Z.to_nat (next_depth l) :=
            mkLayer (Depth existing) (range_values C w (index_by_url (Pages existing ++ pag)))]> L ->
    frontier_change seen seen' l L L'
| fc_append pag :
    pag <> [] -> NoDup (urls pag) -> list_to_set (urls pag) = seen' ∖ seen ->
    Z.of_nat (length L) <= next_depth l ->
    L' = L ++ [mkLayer (next_depth l) pag] ->
    frontier_change seen seen' l L L'.

Lemma visit_page_effect st l la :
  let st' := (visit_page C st l la).2 in
  visits st' = visits st ++ [la] /\
  seenURLs st ⊆ seenURLs st' /\
  frontier_change (seenURLs st) (seenURLs st') l (layers st) (layers st').
Proof.
  unfold visit_page.
  destruct (Run C (world st) _) as [w [[outlinks [e|]]|]]; simpl.
  - split; [done|]. split; [done|]. by apply fc_same.
  - destruct (dedup_outlinks outlinks (seenURLs st) ∅) as [[uniq|] seen'] eqn:Hd.
    + pose proof (dedup_outlinks_seen _ _ _ _ _ Hd) as [Hsub _].
      pose proof (fresh_pages w _ _ _ _ Hd) as [Hnd Hset]. simpl in Hnd, Hset.
      destruct (decide (0 < length (range_values C w uniq))%nat) as [Hlen|Hlen].
      * assert (range_values C w uniq <> []) as Hne
          by (intros Heq; rewrite Heq in Hlen; simpl in Hlen; lia).
        unfold add_to_next_layer.
        destruct (decide (next_depth l < Z.of_nat (length (layers st)))) as [Hlt|Hge].
        -- destruct (decide (next_depth l < 0)) as [Hneg|Hpos]; simpl.
           ++ split; [done|]. split; [done|]. by apply fc_same.
           ++ destruct (layers st !! Z.to_nat (next_depth l)) as [existing|] eqn:Hex; simpl.
              ** split; [done|]. split; [done|].
                 eapply fc_merge; eauto. lia.
              ** split; [done|]. split; [done|]. by apply fc_same.
        -- simpl. split; [done|]. split; [done|]. eapply fc_append; eauto. lia.
      * simpl. split; [done|]. split; [done|]. by apply fc_same.
    + pose proof (dedup_outlinks_seen _ _ _ _ _ Hd) as [Hsub _]. simpl.
      split; [done|]. split; [done|]. by apply fc_same.
  - split; [done|]. split; [done|]. by apply fc_same.
Qed.

Local Open Scope nat_scope.

(** ** Termination *)

Fixpoint tail_weight (ls : list Layer) : nat :=
  match ls with
  | [] => 0
  | l :: ls' => S (length (Pages l)) + tail_weight ls'
  end.

(** The turns the loops still need when nothing new is discovered. *)
Definition remaining (i j : nat) (L : list Layer) : nat :=
  match L !! i with
  | None => 0
  | Some l => S (length (Pages l) - j) + tail_weight (drop (S i) L)
  end.

Lemma tail_weight_app ls ls' : tail_weight (ls ++ ls') = tail_weight ls + tail_weight ls'.
Proof. induction ls as [|l ls IH]; simpl; [done|]. rewrite IH. lia. Qed.

Lemma tail_weight_insert ls : forall n old x,
  ls !! n = Some old ->
  tail_weight (<[n := x]> ls) + length (Pages old) = tail_weight ls + length (Pages x).
Proof.
  induction ls as [|l ls IH]; intros [|n] old x H; simpl in *; try done.
  - inversion H; subst. lia.
  - specialize (IH _ _ x H). lia.
Qed.

Lemma remaining_change seen seen' l L L' i j l0 la :
  frontier_change seen seen' l L L' ->
  L !! i = Some l0 -> Pages l0 !! j = Some la ->
  (0 < size (seen' ∖ seen) /\
   remaining i (S j) L' <= remaining i j L + size (seen' ∖ seen))
  \/ (L' = L /\ remaining i (S j) L' < remaining i j L).
Proof.
  intros Hfc Hi Hj.
  pose proof (lookup_lt_Some _ _ _ Hj) as Hjlt.
  pose proof (lookup_lt_Some _ _ _ Hi) as Hilt.
  destruct Hfc as [->|w existing pag Hne Hnd Hset Hpos Hex ->|pag Hne Hnd Hset Hge ->].
  - right. split; [done|]. unfold remaining. rewrite Hi. lia.
  - left. rewrite <- Hset, (size_list_to_set _ Hnd). unfold urls. rewrite length_fmap.
    split; [destruct pag; [done|simpl; lia]|].
    set (d := Z.to_nat (next_depth l)) in *.
    set (x := mkLayer _ _).
    assert (length (Pages x) <= length (Pages existing) + length pag) as Hx.
    { unfold x; simpl. etrans; [apply rebuilt_length|]. by rewrite length_app. }
    pose proof (lookup_lt_Some _ _ _ Hex) as Hdlt.
    clearbody x.
    unfold remaining. rewrite list_lookup_insert, Hi.
    destruct (decide (d = i ∧ d < length L)) as [[-> _]|Hn].
    + rewrite drop_insert_lt by lia. rewrite Hex in Hi. inversion Hi; subst. lia.
    + destruct (decide (d < S i)).
      * rewrite drop_insert_lt by lia. lia.
      * rewrite drop_insert_ge by lia.
        assert (drop (S i) L !! (d - S i) = Some existing) as Hdrop.
        { rewrite lookup_drop. rewrite <- Hex. f_equal. lia. }
        pose proof (tail_weight_insert _ _ _ x Hdrop). lia.
  - left. rewrite <- Hset, (size_list_to_set _ Hnd). unfold urls. rewrite length_fmap.
    split; [destruct pag; [done|simpl; lia]|].
    unfold remaining. rewrite lookup_app_l by done. rewrite Hi.
    rewrite drop_app_le by lia. rewrite tail_weight_app. simpl. lia.
Qed.

(** ** Where the identifiers are *)

Definition all_pages (L : list Layer) : list Page := concat (Pages <$> L).

(** Identifier [u] names a page of the layer at index [idx]. *)
Definition in_layer (L : list Layer) (idx : nat) (u : string) : Prop :=
  exists l, L !! idx = Some l /\ u ∈ urls (Pages l).

(** Every identifier of the frontier is in [seenURLs]. *)
Definition seen_covers (seen : gset string) (L : list Layer) : Prop :=
  forall idx u, in_layer L idx u -> u ∈ seen.

(** No identifier appears in two layers. *)
Definition one_layer_each (L : list Layer) : Prop :=
  forall a b u, in_layer L a u -> in_layer L b u -> a = b.

Lemma elem_of_all_pages L p :
  p ∈ all_pages L <-> exists idx l, L !! idx = Some l /\ p ∈ Pages l.
Proof.
  unfold all_pages. induction L as [|l0 L IH]; simpl.
  - split; [by intros ?%elem_of_nil | by intros (idx & l & ? & _)].
  - rewrite elem_of_app, IH. split.
    + intros [H|(idx & l & Hl & Hp)]; [by exists 0, l0 | by exists (S idx), l].
    + intros ([|idx] & l & Hl & Hp); simpl in Hl.
      * inversion Hl; subst. by left.
      * right. eauto.
Qed.

Lemma in_layer_all_pages L u :
  u ∈ urls (all_pages L) <-> exists idx, in_layer L idx u.
Proof.
  unfold urls, in_layer. rewrite list_elem_of_fmap. split.
  - intros (p & -> & Hp). apply elem_of_all_pages in Hp as (idx & l & Hl & Hp).
    exists idx, l. split; [done|]. apply list_elem_of_fmap. eauto.
  - intros (idx & l & Hl & Hu). apply list_elem_of_fmap in Hu as (p & -> & Hp).
    exists p. split; [done|]. apply elem_of_all_pages. eauto.
Qed.

Lemma urls_app l1 l2 u : u ∈ urls (l1 ++ l2) <-> u ∈ urls l1 \/ u ∈ urls l2.
Proof. unfold urls. by rewrite fmap_app, elem_of_app. Qed.

(** One visit adds identifiers to at most one layer, all of them new to
    [seenURLs]. *)
Lemma frontier_change_in_layer seen seen' l L L' :
  frontier_change seen seen' l L L' ->
  exists d (N : gset string), N ⊆ seen' ∖ seen /\
    forall idx u, in_layer L' idx u <-> in_layer L idx u \/ (idx = d /\ u ∈ N).
Proof.
  intros [->|w existing pag Hne Hnd Hset Hpos Hex ->|pag Hne Hnd Hset Hge ->].
  - exists 0, ∅. split; [set_solver|]. intros idx u. set_solver.
  - exists (Z.to_nat (next_depth l)), (list_to_set (urls pag)).
    split; [by rewrite Hset|]. intros idx u.
    pose proof (lookup_lt_Some _ _ _ Hex) as Hlt.
    unfold in_layer. rewrite elem_of_list_to_set.
    destruct (decide (idx = Z.to_nat (next_depth l))) as [->|Hne'].
    + rewrite list_lookup_insert_eq by done. split.
      * intros (x & Hx & Hu). inversion Hx; subst; clear Hx. simpl in Hu.
        apply rebuilt_urls, urls_app in Hu as [Hu|Hu]; eauto.
      * intros [(x & Hx & Hu)|[_ Hu]]; eexists; (split; [done|]); simpl;
          apply rebuilt_urls, urls_app; [left|by right].
        rewrite Hex in Hx. by inversion Hx; subst.
    + rewrite list_lookup_insert_ne by done. split; [by left|]. by intros [?|[? _]].
  - exists (length L), (list_to_set (urls pag)).
    split; [by rewrite Hset|]. intros idx u.
    unfold in_layer. rewrite elem_of_list_to_set.
    destruct (decide (idx < length L)) as [Hlt|Hge'].
    + rewrite lookup_app_l by done. split; [by left|]. intros [?|[? _]]; [done|lia].
    + destruct (decide (idx = length L)) as [->|Hne'].
      * rewrite lookup_app_r by lia. rewrite Nat.sub_diag. simpl. split.
        -- intros (x & Hx & Hu). inversion Hx; subst. eauto.
        -- intros [(x & Hx & _)|[_ Hu]]; [|eauto].
           apply lookup_lt_Some in Hx. lia.
      * split.
        -- intros (x & Hx & _). apply lookup_lt_Some in Hx.
           rewrite length_app in Hx. simpl in Hx. lia.
        -- intros [(x & Hx & _)|[? _]]; [|done]. apply lookup_lt_Some in Hx. lia.
Qed.

Lemma frontier_change_dedup seen seen' l L L' :
  seen ⊆ seen' ->
  frontier_change seen seen' l L L' ->
  seen_covers seen L -> one_layer_each L ->
  seen_covers seen' L' /\ one_layer_each L'.
Proof.
  intros Hsub Hfc Hcov Hone.
  destruct (frontier_change_in_layer _ _ _ _ _ Hfc) as (d & N & HN & Hin).
  split.
  - intros idx u [Hu|[_ Hu]]%Hin; [|set_solver]. apply Hsub. eauto.
  - intros a b u [Ha|[-> Ha]]%Hin [Hb|[-> Hb]]%Hin; [eauto| | |done].
    + apply Hcov in Ha. set_solver.
    + apply Hcov in Hb. set_solver.
Qed.

(** ** Pages that stay where they are *)

(** The layer at each index sends its pages to a later index, or to a
    negative one (where adding panics and changes nothing). *)
Definition forward (L : list Layer) : Prop :=
  forall idx l, L !! idx = Some l ->
    (Z.of_nat idx < next_depth l \/ next_depth l < 0)%Z.

(** The pages the loops have gone past at layer [i], page [j]. *)
Definition passed (i j : nat) (L : list Layer) : list Page :=
  all_pages (take i L) ++
  match L !! i with Some l => take j (Pages l) | None => [] end.

(** Every page of [L] is still a page of [L'], in the layer of the same index. *)
Definition kept (L L' : list Layer) : Prop :=
  forall idx l, L !! idx = Some l ->
    exists l', L' !! idx = Some l' /\ forall p, p ∈ Pages l -> p ∈ Pages l'.

Lemma kept_refl L : kept L L.
Proof. intros idx l Hl. eauto. Qed.

Lemma kept_trans L1 L2 L3 : kept L1 L2 -> kept L2 L3 -> kept L1 L3.
Proof.
  intros H12 H23 idx l Hl. destruct (H12 _ _ Hl) as (l2 & Hl2 & Hp2).
  destruct (H23 _ _ Hl2) as (l3 & Hl3 & Hp3). eauto.
Qed.

Lemma wrap64_range z : (- 2 ^ 63 <= wrap64 z < 2 ^ 63)%Z.
Proof. unfold wrap64. pose proof (Z.mod_pos_bound (z + 2 ^ 63) (2 ^ 64)). lia. Qed.

Lemma wrap64_small z : (- 2 ^ 63 <= z < 2 ^ 63)%Z -> wrap64 z = z.
Proof. intros H. unfold wrap64. rewrite Z.mod_small; lia. Qed.

Lemma wrap64_max : wrap64 (2 ^ 63) = (- 2 ^ 63)%Z.
Proof. reflexivity. Qed.

(** A frontier whose layers have their index as [Depth] sends its pages
    forward. *)
Lemma depth_is_index_forward L :
  (forall idx l, L !! idx = Some l -> Depth l = Z.of_nat idx /\ (Z.of_nat idx < 2 ^ 63)%Z) ->
  forward L.
Proof.
  intros H idx l Hl. destruct (H _ _ Hl) as [Hd Hlt]. unfold next_depth. rewrite Hd.
  destruct (decide (Z.of_nat idx + 1 < 2 ^ 63)%Z).
  - left. rewrite wrap64_small; lia.
  - right. assert (Z.of_nat idx + 1 = 2 ^ 63)%Z as -> by lia. by rewrite wrap64_max.
Qed.

Lemma all_pages_app L1 L2 : all_pages (L1 ++ L2) = all_pages L1 ++ all_pages L2.
Proof. unfold all_pages. by rewrite fmap_app, concat_app. Qed.

Lemma all_pages_insert L d existing x :
  L !! d = Some existing ->
  all_pages L = all_pages (take d L) ++ Pages existing ++ all_pages (drop (S d) L) /\
  all_pages (<[d := x]> L) = all_pages (take d L) ++ Pages x ++ all_pages (drop (S d) L).
Proof.
  intros Hex. pose proof (lookup_lt_Some _ _ _ Hex) as Hlt. split.
  - rewrite <- (take_drop_middle _ _ _ Hex) at 1. rewrite all_pages_app.
    unfold all_pages at 2. by rewrite fmap_cons, concat_cons.
  - rewrite (insert_take_drop _ _ _ Hlt), all_pages_app.
    unfold all_pages at 2. by rewrite fmap_cons, concat_cons.
Qed.

Lemma frontier_change_forward seen seen' l L L' :
  frontier_change seen seen' l L L' -> forward L -> forward L'.
Proof.
  intros [->|w existing pag Hne Hnd Hset Hpos Hex ->|pag Hne Hnd Hset Hge ->] Hfw; [done| |].
  - intros idx x. rewrite list_lookup_insert.
    destruct (decide _) as [[<- _]|_]; [|apply Hfw].
    intros Hx. inversion Hx; subst. apply (Hfw _ _ Hex).
  - intros idx x Hx. destruct (decide (idx < length L)) as [Hlt|Hnlt].
    + rewrite lookup_app_l in Hx by done. by apply Hfw.
    + assert (idx = length L) as ->.
      { apply lookup_lt_Some in Hx. rewrite length_app in Hx. simpl in Hx. lia. }
      rewrite lookup_app_r, Nat.sub_diag in Hx by lia. inversion Hx; subst.
      unfold next_depth at 1 3. simpl. 
      pose proof (wrap64_range (Depth l + 1)) as Hr. fold (next_depth l) in Hr.
      destruct (decide (next_depth l + 1 < 2 ^ 63)%Z).
      * left. rewrite wrap64_small; lia.
      * right. assert (next_depth l + 1 = 2 ^ 63)%Z as -> by lia. by rewrite wrap64_max.
Qed.

Lemma frontier_change_prefix seen seen' l L L' i l0 :
  frontier_change seen seen' l L L' ->
  (Z.of_nat i < next_depth l \/ next_depth l < 0)%Z ->
  L !! i = Some l0 ->
  take (S i) L' = take (S i) L.
Proof.
  intros [->|w existing pag Hne Hnd Hset Hpos Hex ->|pag Hne Hnd Hset Hge ->] Hfw Hi; [done| |].
  - apply take_insert_ge. lia.
  - apply take_app_le. apply lookup_lt_Some in Hi. lia.
Qed.

Lemma frontier_change_pages seen seen' l L L' :
  frontier_change seen seen' l L L' ->
  NoDup (urls (all_pages L)) -> seen_covers seen L ->
  NoDup (urls (all_pages L')) /\ kept L L'.
Proof.
  intros Hfc Hnd Hcov.
  assert (forall pag, NoDup (urls pag) -> list_to_set (urls pag) = seen' ∖ seen ->
            NoDup (urls (all_pages L ++ pag))) as Hfresh.
  { intros pag Hp Hset. unfold urls. rewrite fmap_app. apply NoDup_app.
    split; [done|]. split; [|done]. intros u Hu Hu'.
    apply in_layer_all_pages in Hu as [idx Hu]. apply Hcov in Hu.
    assert (u ∈ seen' ∖ seen) as Hd by (rewrite <- Hset; by apply elem_of_list_to_set).
    set_solver. }
  destruct Hfc as [->|w existing pag Hne Hp Hset Hpos Hex ->|pag Hne Hp Hset Hge ->].
  - split; [done | apply kept_refl].
  - set (d := Z.to_nat (next_depth l)) in *.
    set (x := mkLayer _ _).
    destruct (all_pages_insert L d existing x Hex) as [HL HL'].
    pose proof (Hfresh pag Hp Hset) as Hnd'.
    assert (Pages x ≡ₚ Pages existing ++ pag) as Hperm.
    { unfold x; simpl. apply rebuilt_perm.
      rewrite HL in Hnd'. unfold urls in Hnd' |- *.
      rewrite !fmap_app in Hnd'. rewrite fmap_app.
      rewrite <- !app_assoc in Hnd'. apply NoDup_app in Hnd' as (_ & _ & Hnd').
      rewrite (Permutation_app_comm (URL <$> all_pages _)) in Hnd'.
      rewrite app_assoc in Hnd'. by apply NoDup_app in Hnd' as (Hnd' & _ & _). }
    split.
    + assert (all_pages (<[d:=x]> L) ≡ₚ all_pages L ++ pag) as Hall.
      { rewrite HL', HL, Hperm. rewrite <- !app_assoc. do 2 f_equiv.
        apply Permutation_app_comm. }
      unfold urls. rewrite Hall. exact Hnd'.
    + intros idx y Hy. rewrite list_lookup_insert.
      destruct (decide _) as [[<- _]|_]; [|eauto].
      exists x. split; [done|]. intros p Hpin. rewrite Hperm.
      rewrite Hex in Hy. inversion Hy; subst. apply elem_of_app. by left.
  - split.
    + rewrite all_pages_app. unfold all_pages at 2. simpl. rewrite app_nil_r. by apply Hfresh.
    + intros idx y Hy. exists y. split; [|done].
      rewrite lookup_app_l; [done|]. by apply lookup_lt_Some in Hy.
Qed.

(** ** Invariants of the loops *)

Lemma launch_after_invariant (P : nat * nat * State W -> Prop) :
  (forall c c', P c -> launch_step C c = Some c' -> P c') ->
  forall n c, P c -> P (launch_after C n c).
Proof.
  intros Hstep n. induction n as [|n IH]; intros c Hc; simpl; [done|].
  destruct (launch_step C c) as [c'|] eqn:Hs; [|done]. eauto.
Qed.

Lemma launch_loop_invariant (P : nat * nat * State W -> Prop) :
  (forall c c', P c -> launch_step C c = Some c' -> P c') ->
  forall n c st, P c -> launch_loop C n c = Some st ->
  exists i j, P (i, j, st) /\ launch_step C (i, j, st) = None.
Proof.
  intros Hstep n. induction n as [|n IH]; intros c st Hc Hrun; simpl in Hrun; [done|].
  destruct (launch_step C c) as [c'|] eqn:Hs.
  - eauto.
  - inversion Hrun; subst. destruct c as [[i j] st]. eauto.
Qed.

Lemma launch_step_cases i j st c' :
  launch_step C (i, j, st) = Some c' ->
  (exists l, layers st !! i = Some l /\ Pages l !! j = None /\ c' = (S i, 0, st)) \/
  (exists l la, layers st !! i = Some l /\ Pages l !! j = Some la /\
     Status la = "fetched" /\ c' = (i, S j, st)) \/
  (exists l la, layers st !! i = Some l /\ Pages l !! j = Some la /\
     Status la <> "fetched" /\ c' = (i, S j, (visit_page C st l la).2)).
Proof.
  unfold launch_step. destruct (layers st !! i) as [l|]; [|done].
  destruct (Pages l !! j) as [la|] eqn:Hj.
  - destruct (decide (Status la = "fetched")); intros H; inversion H; subst.
    + right; left. eauto 10.
    + right; right. eauto 10.
  - intros H; inversion H; subst. left. eauto.
Qed.

Lemma launch_step_dedup c c' :
  launch_step C c = Some c' ->
  seen_covers (seenURLs c.2) (layers c.2) /\ one_layer_each (layers c.2) ->
  seen_covers (seenURLs c'.2) (layers c'.2) /\ one_layer_each (layers c'.2).
Proof.
  destruct c as [[i j] st]. intros Hs [Hcov Hone].
  apply launch_step_cases in Hs as
    [(l & Hi & Hj & ->)|[(l & la & Hi & Hj & Hf & ->)|(l & la & Hi & Hj & Hf & ->)]];
    simpl; [done|done|].
  destruct (visit_page_effect st l la) as (_ & Hsub & Hfc).
  by eapply frontier_change_dedup.
Qed.

Lemma launch_step_nodup c c' :
  launch_step C c = Some c' ->
  seen_covers (seenURLs c.2) (layers c.2) /\ NoDup (urls (all_pages (layers c.2))) ->
  seen_covers (seenURLs c'.2) (layers c'.2) /\ NoDup (urls (all_pages (layers c'.2))).
Proof.
  destruct c as [[i j] st]. intros Hs [Hcov Hnd].
  apply launch_step_cases in Hs as
    [(l & Hi & Hj & ->)|[(l & la & Hi & Hj & Hf & ->)|(l & la & Hi & Hj & Hf & ->)]];
    simpl; [done|done|].
  destruct (visit_page_effect st l la) as (_ & Hsub & Hfc).
  destruct (frontier_change_in_layer _ _ _ _ _ Hfc) as (d & N & HN & Hin).
  split.
  - intros idx u [Hu|[_ Hu]]%Hin; [|set_solver]. apply Hsub. eauto.
  - by apply (frontier_change_pages _ _ _ _ _ Hfc).
Qed.

Definition not_fetched (p : Page) : Prop := Status p <> "fetched".

#[local] Instance not_fetched_dec p : Decision (not_fetched p).
Proof. unfold not_fetched. apply _. Defined.

(** What holds of a run that starts from the frontier [L0]. *)
Definition resume_inv (L0 : list Layer) (c : nat * nat * State W) : Prop :=
  forward (layers c.2) /\
  NoDup (urls (all_pages (layers c.2))) /\
  seen_covers (seenURLs c.2) (layers c.2) /\
  kept L0 (layers c.2) /\
  visits c.2 = filter not_fetched (passed c.1.1 c.1.2 (layers c.2)).

Lemma passed_next_layer i j L l :
  L !! i = Some l -> Pages l !! j = None -> passed (S i) 0 L = passed i j L.
Proof.
  intros Hi Hj. unfold passed. rewrite Hi.
  rewrite (take_S_r _ _ _ Hi), all_pages_app.
  rewrite (take_ge (Pages l)) by (by apply lookup_ge_None).
  unfold all_pages at 2. simpl. rewrite app_nil_r.
  destruct (L !! S i); simpl; by rewrite ?take_0, app_nil_r.
Qed.

Lemma passed_next_page i j L l la :
  L !! i = Some l -> Pages l !! j = Some la -> passed i (S j) L = passed i j L ++ [la].
Proof.
  intros Hi Hj. unfold passed. rewrite Hi, (take_S_r _ _ _ Hj). by rewrite app_assoc.
Qed.

Lemma passed_prefix i j L L' :
  take (S i) L' = take (S i) L -> passed i j L' = passed i j L.
Proof.
  intros Ht. unfold passed.
  assert (take i L' = take i L) as ->.
  { rewrite <- (Nat.min_l i (S i)) by lia. rewrite <- !take_take. by rewrite Ht. }
  assert (L' !! i = L !! i) as ->; [|done].
  rewrite <- (lookup_take_lt L' (S i) i), <- (lookup_take_lt L (S i) i) by lia. by rewrite Ht.
Qed.

Lemma passed_end i j L : L !! i = None -> passed i j L = all_pages L.
Proof.
  intros Hi. unfold passed. rewrite Hi, app_nil_r.
  rewrite take_ge; [done|]. by apply lookup_ge_None.
Qed.

Lemma resume_inv_step L0 c c' :
  resume_inv L0 c -> launch_step C c = Some c' -> resume_inv L0 c'.
Proof.
  destruct c as [[i j] st]. intros (Hfw & Hnd & Hcov & Hkept & Hvis) Hs.
  simpl in *.
  apply launch_step_cases in Hs as
    [(l & Hi & Hj & ->)|[(l & la & Hi & Hj & Hf & ->)|(l & la & Hi & Hj & Hf & ->)]];
    unfold resume_inv; simpl.
  - repeat (split; [done|]). by rewrite (passed_next_layer _ _ _ _ Hi Hj).
  - repeat (split; [done|]). rewrite (passed_next_page _ _ _ _ _ Hi Hj), filter_app.
    rewrite filter_cons_False by (unfold not_fetched; tauto).
    by rewrite filter_nil, app_nil_r.
  - destruct (visit_page_effect st l la) as (Hv & Hsub & Hfc).
    destruct (frontier_change_pages _ _ _ _ _ Hfc Hnd Hcov) as [Hnd' Hkept'].
    destruct (frontier_change_in_layer _ _ _ _ _ Hfc) as (d & N & HN & Hin).
    split; [by eapply frontier_change_forward|].
    split; [done|].
    split. { intros idx u [Hu|[_ Hu]]%Hin; [|set_solver]. apply Hsub. eauto. }
    split; [by eapply kept_trans|].
    rewrite Hv, Hvis.
    rewrite (passed_prefix i (S j) _ _ (frontier_change_prefix _ _ _ _ _ _ _ Hfc (Hfw _ _ Hi) Hi)).
    rewrite (passed_next_page _ _ _ _ _ Hi Hj), filter_app.
    by rewrite filter_cons_True, filter_nil by done.
Qed.

Section Bounded.
Variable U : gset string.
Hypothesis Run_in_U : forall w p w' outlinks e,
  Run C w p = (w', Returned (outlinks, e)) -> outlink_urls outlinks ⊆ U.

Lemma visit_page_seen_bound st l la :
  seenURLs (visit_page C st l la).2 ⊆ seenURLs st ∪ U.
Proof.
  unfold visit_page.
  destruct (Run C (world st) _) as [w [[outlinks [e|]]|]] eqn:HR; simpl; [set_solver| |set_solver].
  apply Run_in_U in HR.
  destruct (dedup_outlinks outlinks (seenURLs st) ∅) as [r seen'] eqn:Hd.
  pose proof (dedup_outlinks_seen _ _ _ _ _ Hd) as [_ Hsub].
  assert (seen' ⊆ seenURLs st ∪ U) by set_solver.
  destruct r as [uniq|]; simpl; [|done].
  destruct (decide _); simpl; [|done].
  destruct (add_to_next_layer _ _ _ _ _); simpl; done.
Qed.

(** A bound on the turns the loops still take: two for each identifier of
    [U] not yet seen, and what the frontier holds from the place reached. *)
Definition turns_bound (c : nat * nat * State W) : nat :=
  2 * size (U ∖ seenURLs c.2) + remaining c.1.1 c.1.2 (layers c.2).

Lemma launch_step_decreases c c' :
  launch_step C c = Some c' -> turns_bound c' < turns_bound c.
Proof.
  destruct c as [[i j] st]. intros Hs.
  apply launch_step_cases in Hs as
    [(l & Hi & Hj & ->)|[(l & la & Hi & Hj & Hf & ->)|(l & la & Hi & Hj & Hf & ->)]];
    unfold turns_bound; simpl.
  - unfold remaining. rewrite Hi.
    destruct (layers st !! S i) as [l'|] eqn:Hi'.
    + rewrite (drop_S _ _ _ Hi'). simpl. lia.
    + lia.
  - pose proof (lookup_lt_Some _ _ _ Hj). unfold remaining. rewrite Hi. lia.
  - pose proof (visit_page_effect st l la) as (_ & Hsub & Hfc).
    pose proof (visit_page_seen_bound st l la) as Hb.
    set (st' := (visit_page C st l la).2) in *.
    assert (U ∖ seenURLs st = (U ∖ seenURLs st') ∪ ((seenURLs st' ∖ seenURLs st) ∩ U)) as Hsplit.
    { apply set_eq. intros u. rewrite elem_of_union, elem_of_intersection, !elem_of_difference.
      destruct (decide (u ∈ seenURLs st')); set_solver. }
    assert (seenURLs st' ∖ seenURLs st ⊆ U) as HinU by set_solver.
    assert ((seenURLs st' ∖ seenURLs st) ∩ U = seenURLs st' ∖ seenURLs st) as Heq by set_solver.
    rewrite Heq in Hsplit.
    assert (size (U ∖ seenURLs st) = size (U ∖ seenURLs st') + size (seenURLs st' ∖ seenURLs st)) as Hsz.
    { rewrite Hsplit at 1. apply size_union. set_solver. }
    destruct (remaining_change _ _ _ _ _ _ _ _ _ Hfc Hi Hj) as [[Hk Hle]|[HL Hlt]]; lia.
Qed.

Lemma launch_loop_terminates n : forall c,
  turns_bound c < n -> is_Some (launch_loop C n c).
Proof.
  induction n as [|n IH]; intros c Hlt; [lia|]. simpl.
  destruct (launch_step C c) as [c'|] eqn:Hs; [|eauto].
  apply IH. apply launch_step_decreases in Hs. lia.
Qed.

Lemma launch_ends seeds L0 w :
  is_Some (launch C (S (turns_bound (launch_start seeds L0 w))) seeds L0 w).
Proof. apply launch_loop_terminates. lia. Qed.

(** What a run from a frontier of distinct, seeded identifiers ends with. *)
Lemma launch_run_spec fuel seeds L0 w fin :
  launch C fuel seeds L0 w = Some fin ->
  forward L0 -> NoDup (urls (all_pages L0)) -> seen_covers (list_to_set seeds) L0 ->
  NoDup (urls (all_pages (layers fin))) /\ kept L0 (layers fin) /\
  visits fin = filter not_fetched (all_pages (layers fin)).
Proof.
  intros Hrun Hfw Hnd Hcov.
  assert (resume_inv L0 (launch_start seeds L0 w)) as Hstart.
  { unfold resume_inv, launch_start; simpl. repeat (split; [done|]).
    split; [apply kept_refl|]. unfold passed. simpl.
    by destruct L0. }
  destruct (launch_loop_invariant (resume_inv L0) (resume_inv_step L0) _ _ _ Hstart Hrun)
    as (i & j & (_ & Hnd' & _ & Hkept & Hvis) & Hend).
  simpl in *. split; [done|]. split; [done|].
  rewrite Hvis. f_equal. apply passed_end.
  unfold launch_step in Hend. destruct (layers fin !! i) as [l|]; [|done].
  by destruct (Pages l !! j) as [la|]; [destruct (decide _)|].
Qed.

Lemma kept_all_pages L L' p : kept L L' -> p ∈ all_pages L -> p ∈ all_pages L'.
Proof.
  intros Hk (idx & l & Hl & Hp)%elem_of_all_pages.
  destruct (Hk _ _ Hl) as (l' & Hl' & Hsub). apply elem_of_all_pages. eauto.
Qed.

(** A visit fails when [crawl.Run] panics or returns an error. *)
Definition Run_failed (r : outcome (list (option Page) * error)) : Prop :=
  match r with
  | Panicked => True
  | Returned (_, Some _) => True
  | Returned (_, None) => False
  end.

(** What a failed visit leaves behind, in the code as it is written.
    Whatever [crawl.Run] does, with outlinks drawn from a finite set [U]:
    a visit that fails, by an error or by a panic, leaves [list] and
    [seenURLs] as they were (the status that the error branch assigns
    goes to the copy [la], never to [list]); a panic leaves the status of
    the copy as it was; the loop goes on to the next page; the run ends;
    and when the frontier starts with distinct identifiers, all of them
    seeded, every page of it that is not fetched is visited, the failures
    of other pages notwithstanding. *)
Theorem launch_fault_isolation seeds L0 w :
  (forall st l la,
     Run_failed (Run C (world st) (mkPage (URL la) (Status la) (now C (world st)))).2 ->
     seenURLs (visit_page C st l la).2 = seenURLs st /\
     layers (visit_page C st l la).2 = layers st) /\
  (forall st l la,
     (Run C (world st) (mkPage (URL la) (Status la) (now C (world st)))).2 = Panicked ->
     Status (visit_page C st l la).1 = Status la) /\
  (forall i j st l la,
     layers st !! i = Some l -> Pages l !! j = Some la -> Status la <> "fetched" ->
     launch_step C (i, j, st) = Some (i, S j, (visit_page C st l la).2)) /\
  exists fuel fin, launch C fuel seeds L0 w = Some fin /\
    (forward L0 -> NoDup (urls (all_pages L0)) -> seen_covers (list_to_set seeds) L0 ->
     forall p, p ∈ all_pages L0 -> Status p <> "fetched" -> p ∈ visits fin).
Proof.
  split; [|split; [|split]].
  - intros st l la Hf. unfold visit_page.
    destruct (Run C (world st) _) as [w' [[outlinks [e|]]|]]; simpl in *; done.
  - intros st l la Hf. unfold visit_page.
    destruct (Run C (world st) _) as [w' r]; simpl in *. by subst.
  - intros i j st l la Hi Hj Hs. unfold launch_step. rewrite Hi, Hj.
    by destruct (decide (Status la = "fetched")).
  - destruct (launch_ends seeds L0 w) as [fin Hrun].
    exists (S (turns_bound (launch_start seeds L0 w))), fin. split; [done|].
    intros Hfw Hnd Hcov p Hp Hs.
    destruct (launch_run_spec _ _ _ _ _ Hrun Hfw Hnd Hcov) as (_ & Hkept & ->).
    apply list_elem_of_filter. split; [done|]. by eapply kept_all_pages.
Qed.

(** A run that resumes on a frontier of seeds. From a frontier whose
    identifiers are distinct and all in the seed list, each layer sending
    its pages forward, with outlinks drawn from a finite set: the run
    ends; it visits no page
    twice; it visits a page of the starting frontier exactly when that
    page is not fetched (so a page left in error is visited again); every
    page of the starting frontier, the fetched ones among them, is still
    in its layer, unchanged; and the visits made to pages of the starting
    frontier number its pages less the fetched ones. *)
Theorem launch_resume_visits seeds L0 w :
  forward L0 -> NoDup (urls (all_pages L0)) -> seen_covers (list_to_set seeds) L0 ->
  exists fuel fin, launch C fuel seeds L0 w = Some fin /\
    NoDup (visits fin) /\
    (forall p, p ∈ all_pages L0 -> (p ∈ visits fin <-> Status p <> "fetched")) /\
    kept L0 (layers fin) /\
    length (filter (fun p => p ∈ all_pages L0) (visits fin)) +
      length (filter (fun p => Status p = "fetched") (all_pages L0)) =
    length (all_pages L0).
Proof.
  intros Hfw Hnd Hcov.
  destruct (launch_ends seeds L0 w) as [fin Hrun].
  exists (S (turns_bound (launch_start seeds L0 w))), fin. split; [done|].
  destruct (launch_run_spec _ _ _ _ _ Hrun Hfw Hnd Hcov) as (Hnd' & Hkept & Hvis).
  assert (NoDup (visits fin)) as Hndv.
  { rewrite Hvis. apply NoDup_filter. by eapply NoDup_fmap_1. }
  assert (forall p, p ∈ all_pages L0 -> p ∈ visits fin <-> Status p <> "fetched") as Hiff.
  { intros p Hp. rewrite Hvis, list_elem_of_filter. unfold not_fetched.
    split; [tauto|]. intros Hs. split; [done|]. by eapply kept_all_pages. }
  do 3 (split; [done|]).
  assert (filter (fun p => p ∈ all_pages L0) (visits fin) ≡ₚ filter not_fetched (all_pages L0)) as ->.
  { apply NoDup_Permutation.
    - by apply NoDup_filter.
    - apply NoDup_filter. by eapply NoDup_fmap_1.
    - intros p. rewrite !list_elem_of_filter. split.
      + intros [Hp Hv]. split; [|done]. by apply Hiff.
      + intros [Hs Hp]. split; [done|]. by apply Hiff. }
  clear. induction (all_pages L0) as [|p l IH]; [done|].
  rewrite !filter_cons. unfold not_fetched at 1.
  destruct (decide (Status p <> "fetched")), (decide (Status p = "fetched")); simpl; try lia; tauto.
Qed.

End Bounded.

(** The runs on which no identifier comes to lie in two layers. From a
    frontier whose identifiers are all in the seed list, as those of a
    freshly seeded one are, and in which no identifier is in two layers,
    at every point of the run no identifier is in two layers and every identifier of the
    frontier is in [seenURLs]; one visit adds to the frontier only
    identifiers that [seenURLs] did not hold; identifiers that are
    distinct at the start stay distinct, in the whole frontier; and
    seeded with "a", whose visit finds b, a, b, the run ends with the
    single page "b" in layer 1. *)
Theorem launch_dedup_invariant seeds L0 w n :
  seen_covers (list_to_set seeds) L0 -> one_layer_each L0 ->
  one_layer_each (layers (launch_after C n (launch_start seeds L0 w)).2) /\
  seen_covers (seenURLs (launch_after C n (launch_start seeds L0 w)).2)
    (layers (launch_after C n (launch_start seeds L0 w)).2) /\
  (forall st l la idx u,
     in_layer (layers (visit_page C st l la).2) idx u ->
     in_layer (layers st) idx u \/ u ∉ seenURLs st) /\
  (NoDup (urls (all_pages L0)) ->
   NoDup (urls (all_pages (layers (launch_after C n (launch_start seeds L0 w)).2)))) /\
  layers <$> launch (finds "a" ["b"; "a"; "b"]) 5 ["a"] (seed_layers ["a"]) tt =
    Some [mkLayer 0 [unvisited "a"]; mkLayer 1 [unvisited "b"]].
Proof.
  intros Hcov Hone.
  pose proof (launch_after_invariant
    (fun c => seen_covers (seenURLs c.2) (layers c.2) /\ one_layer_each (layers c.2))
    (fun c c' H Hs => launch_step_dedup c c' Hs H) n (launch_start seeds L0 w)
    (conj Hcov Hone)) as [Hc Ho].
  split; [done|]. split; [done|]. split; [|split; [|by vm_compute]].
  - intros st l la idx u Hin.
    destruct (visit_page_effect st l la) as (_ & _ & Hfc).
    destruct (frontier_change_in_layer _ _ _ _ _ Hfc) as (d & N & HN & Hiff).
    apply Hiff in Hin as [Hin|[_ Hin]]; [by left|right]. set_solver.
  - intros Hnd.
    apply (launch_after_invariant
      (fun c => seen_covers (seenURLs c.2) (layers c.2) /\ NoDup (urls (all_pages (layers c.2))))
      (fun c c' H Hs => launch_step_nodup c c' Hs H) n (launch_start seeds L0 w)
      (conj Hcov Hnd)).
Qed.

End Facts.

(** A freshly seeded frontier has all its identifiers in the seed list,
    in one layer that sends its pages to the next. *)
Lemma seed_layers_covered seeds : seen_covers (list_to_set seeds) (seed_layers seeds).
Proof.
  intros [|idx] u (l & Hl & Hu); [|done]. inversion Hl; subst. simpl in Hu.
  apply elem_of_list_to_set. unfold urls in Hu.
  rewrite <- list_fmap_compose in Hu. apply list_elem_of_fmap in Hu as (v & -> & Hv). done.
Qed.

Lemma seed_layers_one_layer seeds : one_layer_each (seed_layers seeds).
Proof.
  intros [|a] [|b] u (la & Ha & _) (lb & Hb & _); done.
Qed.

Lemma seed_layers_forward seeds : forward (seed_layers seeds).
Proof. intros [|idx] l Hl; [|done]. inversion Hl; subst. left. by vm_compute. Qed.

(** ** Concrete runs *)

Local Open Scope nat_scope.

(** A crawl in which visiting "a" panics, visiting "b" returns an error,
    and visiting anything else finds "d". *)
Definition faulty : Collaborators unit :=
  mkCollaborators unit (fun _ => 0%Z)
    (fun w p => (w, if decide (URL p = "a") then Panicked
                    else if decide (URL p = "b") then Returned ([], Some "timeout")
                    else Returned ([Some (unvisited "d")], None)))
    (fun w _ => (w, Returned None))
    (fun _ l => l) (fun _ l => Permutation_refl l).

Lemma finds_outlinks src found w p w' outlinks e :
  Run (finds src found) w p = (w', Returned (outlinks, e)) ->
  outlink_urls outlinks ⊆ list_to_set found.
Proof.
  unfold finds; simpl. intros H. inversion H; subst; clear H.
  destruct (decide (URL p = src)); [|set_solver].
  unfold outlink_urls. induction found as [|u found IH]; simpl; set_solver.
Qed.

Lemma faulty_outlinks w p w' outlinks e :
  Run faulty w p = (w', Returned (outlinks, e)) -> outlink_urls outlinks ⊆ {["d"]}.
Proof.
  unfold faulty; simpl. intros H.
  destruct (decide (URL p = "a")); [done|].
  destruct (decide (URL p = "b")); inversion H; subst; set_solver.
Qed.

(** [launch_fault_isolation] at a run in which one visit panics and one
    returns an error. *)
Lemma launch_fault_isolation_faulty :
  (forall w p w' outlinks e,
     Run faulty w p = (w', Returned (outlinks, e)) -> outlink_urls outlinks ⊆ {["d"]}) /\
  exists fuel fin,
    launch faulty fuel ["a"; "b"; "c"] (seed_layers ["a"; "b"; "c"]) tt = Some fin /\
    (forward (seed_layers ["a"; "b"; "c"]) ->
     NoDup (urls (all_pages (seed_layers ["a"; "b"; "c"]))) ->
     seen_covers (list_to_set ["a"; "b"; "c"]) (seed_layers ["a"; "b"; "c"]) ->
     forall p, p ∈ all_pages (seed_layers ["a"; "b"; "c"]) ->
       Status p <> "fetched" -> p ∈ visits fin).
Proof.
  split; [exact faulty_outlinks|].
  exact (proj2 (proj2 (proj2
    (launch_fault_isolation faulty {["d"]} faulty_outlinks
       ["a"; "b"; "c"] (seed_layers ["a"; "b"; "c"]) tt)))).
Defined.

(** A crawl that keeps its checkpoint: the world is the frontier last
    handed to [StoreLayers]. [visit] says what [crawl.Run] does on the
    page of each identifier: it panics, or it returns the identifiers
    found, as pages not yet visited, and an error. *)
Definition recording (visit : string -> outcome (list string * error))
    : Collaborators (list Layer) :=
  mkCollaborators (list Layer) (fun _ => 0%Z)
    (fun w p => (w, match visit (URL p) with
                    | Returned (found, e) =>
                        Returned ((fun u => Some (unvisited u)) <$> found, e)
                    | Panicked => Panicked
                    end))
    (fun _ L => (L, Returned None))
    (fun _ l => l) (fun _ l => Permutation_refl l).

(** Visiting "a" panics, visiting "b" returns an error, and visiting
    anything else finds "d". *)
Definition faulty_visit (u : string) : outcome (list string * error) :=
  if decide (u = "a") then Panicked
  else if decide (u = "b") then Returned ([], Some "timeout")
  else Returned (["d"], None).

(** C1, where the code departs from it. Seeded with "a", "b" and "c", the
    visit of "a" panics and the visit of "b" returns an error. The error
    branch sets the status "error" on [la], the copy of [l.Pages[j]]:
    the visit of "b" ends with the copy in error and with [list], which
    is what [StoreLayers] is then handed, as it was. The run visits all
    four pages and ends; the frontier it ends with, and the one it
    stored last, hold "a" and "b" as they were seeded, neither of them
    in error, and "c" not fetched. *)
Theorem launch_failed_visit_status :
  visit_page (recording faulty_visit)
    (mkState (list_to_set ["a"; "b"; "c"]) (seed_layers ["a"; "b"; "c"]) []
       [unvisited "a"])
    (mkLayer 0 [unvisited "a"; unvisited "b"; unvisited "c"]) (unvisited "b") =
    (mkPage "b" "error" 0,
     mkState (list_to_set ["a"; "b"; "c"]) (seed_layers ["a"; "b"; "c"])
       (seed_layers ["a"; "b"; "c"]) [unvisited "a"; unvisited "b"]) /\
  (fun st => (layers st, world st, visits st)) <$>
    launch (recording faulty_visit) 10 ["a"; "b"; "c"] (seed_layers ["a"; "b"; "c"]) [] =
  Some ([mkLayer 0 [unvisited "a"; unvisited "b"; unvisited "c"];
         mkLayer 1 [unvisited "d"]],
        [mkLayer 0 [unvisited "a"; unvisited "b"; unvisited "c"];
         mkLayer 1 [unvisited "d"]],
        [unvisited "a"; unvisited "b"; unvisited "c"; unvisited "d"]).
Proof. split; vm_compute; reflexivity. Qed.

(** A frontier as a run that resumes finds it: "a" fetched, "b" left in
    error, both seeded. *)
Definition resumed : list Layer :=
  [mkLayer 0 [mkPage "a" "fetched" 0; mkPage "b" "error" 0]].

(** [launch_resume_visits] at that frontier: "b" is visited again, "a" is
    not. *)
Lemma launch_resume_visits_resumed :
  (forall w p w' outlinks e,
     Run (finds "b" ["c"]) w p = (w', Returned (outlinks, e)) ->
     outlink_urls outlinks ⊆ list_to_set ["c"]) /\
  forward resumed /\
  NoDup (urls (all_pages resumed)) /\
  seen_covers (list_to_set ["a"; "b"]) resumed /\
  exists fuel fin, launch (finds "b" ["c"]) fuel ["a"; "b"] resumed tt = Some fin /\
    NoDup (visits fin) /\
    (forall p, p ∈ all_pages resumed -> (p ∈ visits fin <-> Status p <> "fetched")) /\
    kept resumed (layers fin) /\
    length (filter (fun p => p ∈ all_pages resumed) (visits fin)) +
      length (filter (fun p => Status p = "fetched") (all_pages resumed)) =
    length (all_pages resumed).
Proof.
  assert (forward resumed) as Hfw.
  { intros [|idx] l Hl; [|done]. inversion Hl; subst. left. by vm_compute. }
  assert (NoDup (urls (all_pages resumed))) as Hnd.
  { apply (bool_decide_unpack _). by vm_compute. }
  assert (seen_covers (list_to_set ["a"; "b"]) resumed) as Hcov.
  { intros [|idx] u (l & Hl & Hu); [|done]. inversion Hl; subst.
    vm_compute in Hu. set_solver. }
  split; [apply finds_outlinks|]. do 3 (split; [done|]).
  exact (launch_resume_visits (finds "b" ["c"]) (list_to_set ["c"])
           (finds_outlinks "b" ["c"]) ["a"; "b"] resumed tt Hfw Hnd Hcov).
Defined.

(** C2, where the code departs from it. A run seeded with "a" and "c"
    resumes on the frontier of an earlier one: "a" fetched and "c" left
    in error in layer 0, and "b", which "a" led to, fetched in layer 1.
    [seenURLs] is filled from the seed strings alone, so "b" is not in
    it: the visit of "c" finds "b", the page found takes the place of the
    fetched one in layer 1, and it is visited. Of the three pages one was
    not fetched; two visits are made, and a fetched page is replaced. *)
Theorem launch_revisits_fetched :
  (fun st => (layers st, visits st)) <$>
    launch (finds "c" ["b"]) 10 ["a"; "c"]
      [mkLayer 0 [mkPage "a" "fetched" 0; mkPage "c" "error" 0];
       mkLayer 1 [mkPage "b" "fetched" 0]] tt =
  Some ([mkLayer 0 [mkPage "a" "fetched" 0; mkPage "c" "error" 0];
         mkLayer 1 [unvisited "b"]],
        [mkPage "c" "error" 0; unvisited "b"]).
Proof. vm_compute. reflexivity. Qed.

(** [launch_dedup_invariant] at the run seeded with "a" whose visit finds
    b, a, b. *)
Lemma launch_dedup_invariant_scenario :
  seen_covers (list_to_set ["a"]) (seed_layers ["a"]) /\
  one_layer_each (seed_layers ["a"]) /\
  one_layer_each
    (layers (launch_after (finds "a" ["b"; "a"; "b"]) 4
               (launch_start ["a"] (seed_layers ["a"]) tt)).2).
Proof.
  split; [apply seed_layers_covered|]. split; [apply seed_layers_one_layer|].
  exact (proj1 (launch_dedup_invariant (finds "a" ["b"; "a"; "b"]) ["a"]
                  (seed_layers ["a"]) tt 4
                  (seed_layers_covered ["a"]) (seed_layers_one_layer ["a"]))).
Defined.

(** The first attempt at "a" times out, "b" links to "c" and "c" to "d";
    at the second attempt "a" is reached, and it links to "d". *)
Definition first_attempt (u : string) : outcome (list string * error) :=
  if decide (u = "a") then Returned ([], Some "timeout")
  else if decide (u = "b") then Returned (["c"], None)
  else if decide (u = "c") then Returned (["d"], None)
  else Returned ([], None).
Definition second_attempt (u : string) : outcome (list string * error) :=
  if decide (u = "a") then Returned (["d"], None) else first_attempt u.

(** The frontier that the first run, seeded with "a" and "b", hands to
    [StoreLayers] last. *)
Definition interrupted : list Layer :=
  [mkLayer 0 [unvisited "a"; unvisited "b"]; mkLayer 1 [unvisited "c"];
   mkLayer 2 [unvisited "d"]].

(** C3, where the code departs from it. A first run seeded with "a" and
    "b", in which the visit of "a" fails, stores a frontier with "c" in
    layer 1 and "d" in layer 2, no identifier in two layers. A second
    run with the same seeds resumes on that frontier. [seenURLs] is
    filled from the seed strings alone, so "d" is not in it: the visit of
    "a" finds "d" and it enters layer 1, where it stays beside the "d" of
    layer 2, in the frontier the run ends with and in the one it stored
    last; "d" is visited twice. *)
Theorem launch_duplicates_identifier :
  world <$> launch (recording first_attempt) 10 ["a"; "b"] (seed_layers ["a"; "b"]) [] =
    Some interrupted /\
  one_layer_each interrupted /\
  (fun st => (layers st, world st, visits st)) <$>
    launch (recording second_attempt) 10 ["a"; "b"] interrupted interrupted =
  Some ([mkLayer 0 [unvisited "a"; unvisited "b"];
         mkLayer 1 [unvisited "c"; unvisited "d"];
         mkLayer 2 [unvisited "d"]],
        [mkLayer 0 [unvisited "a"; unvisited "b"];
         mkLayer 1 [unvisited "c"; unvisited "d"];
         mkLayer 2 [unvisited "d"]],
        [unvisited "a"; unvisited "b"; unvisited "c"; unvisited "d"; unvisited "d"]) /\
  ~ one_layer_each
      [mkLayer 0 [unvisited "a"; unvisited "b"];
       mkLayer 1 [unvisited "c"; unvisited "d"];
       mkLayer 2 [unvisited "d"]].
Proof.
  split; [vm_compute; reflexivity|]. split.
  { intros a b u (la & Ha & Hua) (lb & Hb & Hub).
    destruct a as [|[|[|a]]], b as [|[|[|b]]]; try done;
      simpl in Ha, Hb; injection Ha as <-; injection Hb as <-;
      vm_compute in Hua, Hub; set_solver. }
  split; [vm_compute; reflexivity|].
  intros Hone.
  assert (1 = 2) as Heq; [|discriminate].
  apply (Hone 1 2 "d");
    (eexists; split; [reflexivity|apply (bool_decide_unpack _); by vm_compute]).
Qed.

End LaunchFacts.

(* ================================================================== *)
(** * Properties of the extractor *)
(* ================================================================== *)

Module ExtractFacts.
Import Extractor.

(** [strings.Split] never returns an empty slice. *)
Lemma Split_nonempty s sep : Split s sep <> [].
Proof.
  destruct s as [|c rest]; simpl; [done|].
  destruct (Ascii.eqb c sep); [done|]. by destruct (Split rest sep).
Qed.

Lemma Split_last s sep : is_Some (last (Split s sep)).
Proof.
  pose proof (Split_nonempty s sep) as H.
  destruct (Split s sep) as [|x l] using rev_ind; [done|]. rewrite last_snoc. eauto.
Qed.

Section Facts.
Context {W : Type} (P : Platform W).

(** ** What a computation leaves alone *)

(** [m] leaves the part [f] of the frame as it was, whether it returns
    or panics. *)
Definition keeps {X A : Type} (f : Frame W -> X) (m : M W A) : Prop :=
  forall s, f (m s).2 = f s.

Lemma keeps_ret {X A} (f : Frame W -> X) (a : A) : keeps f (ret a).
Proof. done. Qed.

Lemma keeps_panic {X A} (f : Frame W -> X) : keeps f (@panic W A).
Proof. done. Qed.

Lemma keeps_deref {X A} (f : Frame W -> X) (p : option A) : keeps f (deref p).
Proof. by destruct p. Qed.

Lemma keeps_bind {X A B} (f : Frame W -> X) (m : M W A) (k : A -> M W B) :
  keeps f m -> (forall a, keeps f (k a)) -> keeps f (bind m k).
Proof.
  intros Hm Hk s. unfold bind. specialize (Hm s).
  destruct (m s) as [[a|] s1]; simpl in *; [|done]. by rewrite Hk.
Qed.

(** The locals of [ParseMessage] that a call of a collaborator cannot
    reach. *)
Definition locals (s : Frame W) : Post * error * bool * bool :=
  (post s, err s, comments_recover s, reactions_recover s).
Definition flags (s : Frame W) : bool * bool :=
  (comments_recover s, reactions_recover s).

Lemma keeps_call_locals {A} ev (f : W -> W * outcome A) : keeps locals (call ev f).
Proof. intros s. unfold call. by destruct (f (world s)). Qed.

Lemma keeps_locals_post {A} (m : M W A) : keeps locals m -> keeps post m.
Proof. intros H s. specialize (H s). unfold locals in H. congruence. Qed.

Lemma keeps_locals_flags {A} (m : M W A) : keeps locals m -> keeps flags m.
Proof. intros H s. specialize (H s). unfold locals, flags in *. congruence. Qed.

Lemma keeps_set_err_post e : keeps post (@set_err W e).
Proof. done. Qed.
Lemma keeps_set_err_flags e : keeps flags (@set_err W e).
Proof. done. Qed.
Lemma keeps_defer_comments_post : keeps post (@defer_comments_recover W).
Proof. done. Qed.
Lemma keeps_defer_reactions_post : keeps post (@defer_reactions_recover W).
Proof. done. Qed.
Lemma keeps_set_post_flags p : keeps flags (@set_post W p).
Proof. done. Qed.

Lemma fetchfilefromtelegram_frame id s :
  (fetchfilefromtelegram P id s).2 = (fetchfilefromtelegram_body P id s).2.
Proof.
  unfold fetchfilefromtelegram.
  by destruct (fetchfilefromtelegram_body P id s) as [[path|] s'].
Qed.

Lemma keeps_fetchfilefromtelegram {X} (f : Frame W -> X) id :
  keeps f (fetchfilefromtelegram_body P id) -> keeps f (fetchfilefromtelegram P id).
Proof. intros H s. by rewrite fetchfilefromtelegram_frame. Qed.

Ltac keeps_step :=
  first
    [ apply keeps_ret | apply keeps_panic | apply keeps_deref
    | apply keeps_locals_post, keeps_call_locals
    | apply keeps_locals_flags, keeps_call_locals
    | apply keeps_set_err_post | apply keeps_set_err_flags
    | apply keeps_defer_comments_post | apply keeps_defer_reactions_post
    | apply keeps_set_post_flags
    | apply keeps_fetchfilefromtelegram; unfold fetchfilefromtelegram_body
    | apply keeps_bind; [|intros ?]
    | match goal with
      | |- keeps _ (match ?x with _ => _ end) => destruct x
      | |- keeps _ (if ?x then _ else _) => destruct x
      | |- keeps _ (let '(_, _) := ?x in _) => destruct x
      end ].
Ltac keeps_tac := repeat keeps_step.

Lemma keeps_post_fetch_and_upload c ch l id : keeps post (fetch_and_upload P c ch l id).
Proof. unfold fetch_and_upload. keeps_tac. Qed.
Lemma keeps_flags_fetch_and_upload c ch l id : keeps flags (fetch_and_upload P c ch l id).
Proof. unfold fetch_and_upload. keeps_tac. Qed.

Lemma keeps_post_extract_content c ch l content :
  keeps post (extract_content P c ch l content).
Proof.
  unfold extract_content, processMessageSafely, thumbnail_remote_id, file_remote_id.
  repeat first [apply keeps_post_fetch_and_upload | keeps_step].
Qed.

Lemma keeps_flags_extract_content c ch l content :
  keeps flags (extract_content P c ch l content).
Proof.
  unfold extract_content, processMessageSafely, thumbnail_remote_id, file_remote_id.
  repeat first [apply keeps_flags_fetch_and_upload | keeps_step].
Qed.

Lemma keeps_post_fetch_comments msg chat ch : keeps post (fetch_comments P msg chat ch).
Proof. unfold fetch_comments. keeps_tac. Qed.

Lemma keeps_post_aggregate_reactions msg : keeps post (@aggregate_reactions W msg).
Proof. unfold aggregate_reactions. keeps_tac. Qed.

(** ** Stepping through a computation *)

Lemma bind_elim {A B} (Q : outcome B * Frame W -> Prop) (m : M W A) (k : A -> M W B) s :
  (forall s1, m s = (Panicked, s1) -> Q (Panicked, s1)) ->
  (forall a s1, m s = (Returned a, s1) -> Q (k a s1)) ->
  Q (bind m k s).
Proof.
  intros Hp Hr. unfold bind. destruct (m s) as [[a|] s1]; [by apply Hr | by apply Hp].
Qed.

Lemma keeps_eq {X A} (f : Frame W -> X) (m : M W A) s r s1 :
  keeps f m -> m s = (r, s1) -> f s1 = f s.
Proof. intros Hk Hm. specialize (Hk s). by rewrite Hm in Hk. Qed.

(** The frame [ParseMessage] starts from. *)
Definition start (w : W) : Frame W := mkFrame w [] emptyPost None false false.

(** ** The cutoff *)

(** C6. A message published before 2018 gives the empty record and a nil
    error; no collaborator is called, so nothing is handed to the store. *)
Theorem ParseMessage_cutoff crawlid msg mlr chat info postcount viewcount channelName w :
  (Year (local_offset P (Date msg)) (Date msg) < 2018)%Z ->
  ParseMessage P crawlid (Some msg) mlr chat info postcount viewcount channelName w =
    (emptyPost, None, start w) /\
  forall c n p,
    Stored c n p ∉ trace (ParseMessage P crawlid (Some msg) mlr chat info postcount
                            viewcount channelName w).2.
Proof.
  intros Hy.
  assert (ParseMessage P crawlid (Some msg) mlr chat info postcount viewcount channelName w =
            (emptyPost, None, start w)) as ->.
  { unfold ParseMessage, ParseMessage_body, bind. simpl.
    by destruct (decide (Year (local_offset P (Date msg)) (Date msg) < 2018)%Z). }
  split; [done|]. intros c n p. simpl. apply not_elem_of_nil.
Qed.

(** ** Fetching a file *)

(** C10. [fetchfilefromtelegram] always returns, and returns a path other
    than the empty string only when the remote file was found, the
    download succeeded and the downloaded file has that path; and the
    path it returns, empty or not, is the one handed to the blob sink
    next. *)
Theorem fetchfilefromtelegram_never_fails downloadid s :
  exists path s1,
    fetchfilefromtelegram P downloadid s = (Returned path, s1) /\
    (path <> "" ->
     exists w1 f w2 d loc,
       GetRemoteFile P (world s) downloadid = (w1, Returned (Some f, None)) /\
       DownloadFile P w1 (File_Id f) = (w2, Returned (Some d, None)) /\
       File_Local d = Some loc /\ LocalFile_Path loc = path) /\
    forall crawlid channelName link,
      trace (fetch_and_upload P crawlid channelName link downloadid s).2 =
      trace s1 ++ [Uploaded crawlid channelName link path].
Proof.
  assert (exists path s1, fetchfilefromtelegram P downloadid s = (Returned path, s1) /\
    (path <> "" ->
     exists w1 f w2 d loc,
       GetRemoteFile P (world s) downloadid = (w1, Returned (Some f, None)) /\
       DownloadFile P w1 (File_Id f) = (w2, Returned (Some d, None)) /\
       File_Local d = Some loc /\ LocalFile_Path loc = path)) as (path & s1 & Hf & Hpath).
  { unfold fetchfilefromtelegram, fetchfilefromtelegram_body, bind, call. simpl.
    destruct (GetRemoteFile P (world s) downloadid) as [w1 [[f [e|]]|]] eqn:HG; simpl;
      try (eexists _, _; split; [reflexivity|done]).
    destruct f as [f|]; simpl; [|eexists _, _; split; [reflexivity|done]].
    destruct (DownloadFile P w1 (File_Id f)) as [w2 [[d [e|]]|]] eqn:HD; simpl;
      try (eexists _, _; split; [reflexivity|done]).
    destruct d as [d|]; simpl; [|eexists _, _; split; [reflexivity|done]].
    destruct (File_Local d) as [loc|] eqn:HL; simpl;
      [|eexists _, _; split; [reflexivity|done]].
    destruct (decide (LocalFile_Path loc = "")); simpl;
      eexists _, _; (split; [reflexivity|]); [done|].
    intros _. eauto 10. }
  exists path, s1. split; [done|]. split; [done|].
  intros crawlid channelName link. unfold fetch_and_upload, bind. rewrite Hf.
  unfold call. destruct (UploadBlobFileAndDelete P (world s1) _ _ _ _) as [w' [e|]]; done.
Qed.

(** ** What [ParseMessage] returns *)

(** The record returned: the one the [return] statement names, or, after
    a panic, the named result [post] as it stands. *)
Definition res_post (rs : outcome (Post * error) * Frame W) : Post :=
  match rs.1 with
  | Returned (p, _) => p
  | Panicked => post rs.2
  end.

Definition nil_error (rs : outcome (Post * error) * Frame W) : Prop :=
  match rs.1 with
  | Returned (_, e) => e = None
  | Panicked => True
  end.

Lemma ParseMessage_res_post crawlid message mlr chat info postcount viewcount channelName w :
  (ParseMessage P crawlid message mlr chat info postcount viewcount channelName w).1.1 =
  res_post (ParseMessage_body P crawlid message mlr chat info postcount viewcount
              channelName (start w)).
Proof.
  unfold ParseMessage, res_post. fold (start w).
  destruct (ParseMessage_body _ _ _ _ _ _ _ _ _ _) as [[[p e]|] s]; simpl; [done|].
  by destruct (_ || _).
Qed.

Ltac run_step Q :=
  first
    [ apply (bind_elim Q); [intros ? ?|intros ? ? ?]
    | match goal with
      | |- Q ((if ?x then _ else _) _) => destruct x
      | |- Q ((match ?x with _ => _ end) _) => destruct x eqn:?
      | |- Q ((let '(_, _) := ?x in _) _) => destruct x eqn:?
      end ].

(** Every [return] of the body names a nil error. *)
Lemma ParseMessage_body_nil_error crawlid message mlr chat info postcount viewcount
    channelName s :
  nil_error (ParseMessage_body P crawlid message mlr chat info postcount viewcount
               channelName s).
Proof.
  unfold ParseMessage_body.
  repeat (run_step nil_error; try done).
Qed.

(** What is known of the record returned for a message and a link that
    are there: it is empty, or it was put together after the comments
    and the content were read, from what those steps returned. *)
Definition made_record (crawlid channelName : string) (msg : Message)
    (lnk : MessageLink) (chat : option Chat) (s0 : Frame W)
    (rs : outcome (Post * error) * Frame W) : Prop :=
  res_post rs = emptyPost \/
  exists messageNumber comments s1 description thumbnailPath videoPath s2,
    last (Split (Link lnk) "/") = Some messageNumber /\
    fetch_comments P msg chat channelName s0 = (Returned comments, s1) /\
    extract_content P crawlid channelName (Link lnk) (Content msg) s1 =
      (Returned (description, thumbnailPath, videoPath), s2) /\
    PostUID (res_post rs) = (messageNumber +:+ "-" +:+ channelName)%string /\
    Description (res_post rs) = description /\
    ThumbURL (res_post rs) = thumbnailPath /\
    MediaURL (res_post rs) = videoPath /\
    Comments (res_post rs) = comments /\
    PlatformName (res_post rs) = "Telegram".

Ltac post_kept H :=
  let Hk := fresh "Hkeeps" in
  let Hp := fresh "Hpost" in
  match type of H with
  | ?m ?s = _ =>
      assert (keeps post m) as Hk
        by (first [apply keeps_post_extract_content | apply keeps_post_fetch_comments
                  | apply keeps_post_aggregate_reactions | keeps_tac]);
      pose proof (keeps_eq post m _ _ _ Hk H) as Hp; clear Hk
  end.

Lemma ParseMessage_body_post crawlid msg lnk chat info postcount viewcount channelName s0 :
  post s0 = emptyPost ->
  made_record crawlid channelName msg lnk chat s0
    (ParseMessage_body P crawlid (Some msg) (Some lnk) chat info postcount viewcount
       channelName s0).
Proof.
  intros H0. unfold ParseMessage_body.
  set (Q := made_record crawlid channelName msg lnk chat s0).
  apply (bind_elim Q); [done|intros ? ? [= <- <-]].
  destruct (decide _); [by left|].
  apply (bind_elim Q); [done|intros ? ? [= <- <-]].
  destruct (last (Split (Link lnk) "/")) as [messageNumber|] eqn:Hlast; [|by left].
  apply (bind_elim Q); [intros s1 Hc|intros comments s1 Hc]; post_kept Hc.
  { left. unfold res_post; simpl. congruence. }
  apply (bind_elim Q); [intros s2 He|intros [[description thumbnailPath] videoPath] s2 He];
    post_kept He.
  { left. unfold res_post; simpl. congruence. }
  apply (bind_elim Q); [intros s3 Hr|intros reactions s3 Hr]; post_kept Hr.
  { left. unfold res_post; simpl. congruence. }
  apply (bind_elim Q); [intros s4 Hd|intros content s4 Hd]; post_kept Hd.
  { left. unfold res_post; simpl. congruence. }
  apply (bind_elim Q); [intros s5 Hv|intros vc s5 Hv]; post_kept Hv.
  { left. unfold res_post; simpl. congruence. }
  apply (bind_elim Q); [intros s6 Hch|intros ch s6 Hch]; post_kept Hch.
  { left. unfold res_post; simpl. congruence. }
  apply (bind_elim Q); [intros s7 Hsc|intros sc s7 Hsc]; post_kept Hsc.
  { left. unfold res_post; simpl. congruence. }
  apply (bind_elim Q); [intros s8 Hi|intros inf s8 Hi]; post_kept Hi.
  { left. unfold res_post; simpl. congruence. }
  apply (bind_elim Q); [done|intros [] s9 [= <-]].
  apply (bind_elim Q); [intros s10 Hst|intros e s10 Hst]; post_kept Hst.
  { right. unfold res_post; simpl.
    match goal with H : post s10 = _ |- _ => rewrite H end. simpl. eauto 20. }
  apply (bind_elim Q); [done|intros [] s11 [= <-]].
  right. unfold res_post; simpl. eauto 20.
Qed.

(** ** The record id *)

(** The permalink always has a last segment (the whole permalink when
    it holds no slash, the empty string when it is empty or ends in a
    slash), so the [else] branch of [len(linkParts) > 0] is never taken;
    and a record that is not empty has that segment, a hyphen and the
    channel name as its id. *)
Theorem ParseMessage_id crawlid msg lnk chat info postcount viewcount channelName w :
  exists messageNumber,
    last (Split (Link lnk) "/") = Some messageNumber /\
    ((ParseMessage P crawlid (Some msg) (Some lnk) chat info postcount viewcount
        channelName w).1.1 = emptyPost \/
     PostUID (ParseMessage P crawlid (Some msg) (Some lnk) chat info postcount viewcount
                channelName w).1.1 = (messageNumber +:+ "-" +:+ channelName)%string).
Proof.
  destruct (Split_last (Link lnk) "/") as [messageNumber Hlast].
  exists messageNumber. split; [done|].
  rewrite ParseMessage_res_post.
  destruct (ParseMessage_body_post crawlid msg lnk chat info postcount viewcount
              channelName (start w) eq_refl)
    as [Hempty|(mn & comments & s1 & d & t & v & s2 & Hl & _ & _ & Huid & _)]; [by left|].
  right. rewrite Huid. congruence.
Qed.

(** ** The error returned *)

(** The message sets up neither inner recover: it has no reply info, and
    no reaction entries. *)
Definition no_inner_recover (message : option Message) : Prop :=
  match message with
  | Some msg =>
      match InteractionInfo msg with
      | Some info =>
          ReplyInfo info = None /\
          (Reactions info = None \/ Reactions info = Some (mkMessageReactions []))
      | None => True
      end
  | None => True
  end.

Lemma keeps_bind_ret {X A B} (f : Frame W -> X) (a : A) (k : A -> M W B) :
  keeps f (k a) -> keeps f (bind (ret a) k).
Proof. intros H s. apply H. Qed.

Lemma keeps_flags_body crawlid message mlr chat info postcount viewcount channelName :
  no_inner_recover message ->
  keeps flags (ParseMessage_body P crawlid message mlr chat info postcount viewcount
                 channelName).
Proof.
  intros Hno. unfold ParseMessage_body.
  destruct message as [msg|]; [|keeps_tac]. simpl in Hno.
  cbn [deref]. apply keeps_bind_ret.
  assert (fetch_comments P msg chat channelName = ret []) as Hfc.
  { unfold fetch_comments. destruct (InteractionInfo msg) as [[r x]|]; [|done].
    simpl in Hno. destruct Hno as [-> _]. done. }
  assert (@aggregate_reactions W msg = ret ∅) as Har.
  { unfold aggregate_reactions. destruct (InteractionInfo msg) as [[r x]|]; [|done].
    simpl in Hno. by destruct Hno as [_ [->| ->]]. }
  rewrite Hfc, Har.
  repeat first [apply keeps_flags_extract_content | keeps_step].
Qed.

(** When the body returns, the error is nil; so an error that is not
    nil comes only after a panic; and when the message sets up neither
    inner recover, a panic gives the error "failed to parse message". *)
Theorem ParseMessage_error crawlid message mlr chat info postcount viewcount channelName w :
  (forall r s,
     ParseMessage_body P crawlid message mlr chat info postcount viewcount channelName
       (start w) = (Returned r, s) ->
     (ParseMessage P crawlid message mlr chat info postcount viewcount channelName w).1.2
       = None) /\
  ((ParseMessage P crawlid message mlr chat info postcount viewcount channelName w).1.2
     <> None ->
   exists s,
     ParseMessage_body P crawlid message mlr chat info postcount viewcount channelName
       (start w) = (Panicked, s)) /\
  (no_inner_recover message ->
   forall s,
     ParseMessage_body P crawlid message mlr chat info postcount viewcount channelName
       (start w) = (Panicked, s) ->
     (ParseMessage P crawlid message mlr chat info postcount viewcount channelName w).1.2
       = Some "failed to parse message").
Proof.
  pose proof (ParseMessage_body_nil_error crawlid message mlr chat info postcount
                viewcount channelName (start w)) as Hnil.
  unfold ParseMessage. fold (start w). unfold nil_error in Hnil.
  split; [|split].
  - intros [p e] s Hb. rewrite Hb in Hnil |- *. simpl in *. done.
  - destruct (ParseMessage_body _ _ _ _ _ _ _ _ _ _) as [[[p e]|] s]; simpl in *; [done|].
    eauto.
  - intros Hno s Hb.
    pose proof (keeps_eq flags _ _ _ _
                  (keeps_flags_body crawlid message mlr chat info postcount viewcount
                     channelName Hno) Hb) as Hfl.
    rewrite Hb. unfold flags in Hfl. simpl in Hfl.
    injection Hfl as -> ->. done.
Qed.

(** ** Which files are asked for *)

(** [m] adds to the trace only events that satisfy [ok]. *)
Definition adds_only {A : Type} (ok : Event -> Prop) (m : M W A) : Prop :=
  forall s, exists evs, trace (m s).2 = trace s ++ evs /\ Forall ok evs.

Lemma adds_only_nothing {A} ok (m : M W A) :
  (forall s, trace (m s).2 = trace s) -> adds_only ok m.
Proof. intros H s. exists []. by rewrite app_nil_r. Qed.

Lemma adds_only_ret {A} ok (a : A) : adds_only ok (@ret W A a).
Proof. by apply adds_only_nothing. Qed.
Lemma adds_only_panic {A} ok : adds_only ok (@panic W A).
Proof. by apply adds_only_nothing. Qed.
Lemma adds_only_deref {A} ok (p : option A) : adds_only ok (@deref W A p).
Proof. apply adds_only_nothing. by destruct p. Qed.
Lemma adds_only_set_err ok e : adds_only ok (@set_err W e).
Proof. by apply adds_only_nothing. Qed.
Lemma adds_only_set_post ok p : adds_only ok (@set_post W p).
Proof. by apply adds_only_nothing. Qed.
Lemma adds_only_defer_comments ok : adds_only ok (@defer_comments_recover W).
Proof. by apply adds_only_nothing. Qed.
Lemma adds_only_defer_reactions ok : adds_only ok (@defer_reactions_recover W).
Proof. by apply adds_only_nothing. Qed.

Lemma adds_only_call {A} (ok : Event -> Prop) ev (f : W -> W * outcome A) :
  ok ev -> adds_only ok (call ev f).
Proof.
  intros Hok s. exists [ev]. unfold call. destruct (f (world s)); simpl.
  split; [done|]. by constructor.
Qed.

Lemma adds_only_bind {A B} ok (m : M W A) (k : A -> M W B) :
  adds_only ok m -> (forall a, adds_only ok (k a)) -> adds_only ok (bind m k).
Proof.
  intros Hm Hk s. unfold bind. destruct (Hm s) as (evs & Ht & Hok).
  destruct (m s) as [[a|] s1]; simpl in *; [|eauto].
  destruct (Hk a s1) as (evs' & Ht' & Hok').
  exists (evs ++ evs'). rewrite Ht', Ht, app_assoc. split; [done|].
  by apply Forall_app.
Qed.

Lemma adds_only_bind_ret {A B} ok (a : A) (k : A -> M W B) :
  adds_only ok (k a) -> adds_only ok (bind (ret a) k).
Proof. intros H s. apply H. Qed.

Lemma adds_only_fetchfilefromtelegram ok id :
  adds_only ok (fetchfilefromtelegram_body P id) -> adds_only ok (fetchfilefromtelegram P id).
Proof. intros H s. rewrite fetchfilefromtelegram_frame. apply H. Qed.

(** An event that asks for no remote file other than [id]. *)
Definition asks_only_for (id : string) (ev : Event) : Prop :=
  match ev with
  | AskedRemoteFile id' => id' = id
  | _ => True
  end.

Ltac adds_step :=
  first
    [ apply adds_only_ret | apply adds_only_panic | apply adds_only_deref
    | apply adds_only_set_err | apply adds_only_set_post
    | apply adds_only_defer_comments | apply adds_only_defer_reactions
    | apply adds_only_call; exact I
    | apply adds_only_fetchfilefromtelegram; unfold fetchfilefromtelegram_body
    | apply adds_only_bind; [|intros ?]
    | match goal with
      | |- adds_only _ (match ?x with _ => _ end) => destruct x
      | |- adds_only _ (if ?x then _ else _) => destruct x
      | |- adds_only _ (let '(_, _) := ?x in _) => destruct x
      end ].

Lemma adds_only_fetch_and_upload c ch l id :
  adds_only (asks_only_for id) (fetch_and_upload P c ch l id).
Proof.
  unfold fetch_and_upload.
  repeat first [apply adds_only_call; reflexivity | adds_step].
Qed.

Lemma adds_only_fetch_comments id msg chat ch :
  adds_only (asks_only_for id) (fetch_comments P msg chat ch).
Proof. unfold fetch_comments. repeat adds_step. Qed.

Lemma adds_only_aggregate_reactions id msg :
  adds_only (asks_only_for id) (@aggregate_reactions W msg).
Proof. unfold aggregate_reactions. repeat adds_step. Qed.

(** A file pointer with remote id [rid]. *)
Definition remote (fileId : Z) (rid : string) : option File :=
  Some (mkFile fileId (Some (mkRemoteFile rid)) None).

(** A video note, and a document, whose thumbnail has remote id [T] and
    whose body has remote id [V]. *)
Definition video_note (T V : string) : MessageContent :=
  ContentVideoNote (Some (mkMessageVideoNote (Some
    (mkVideoNote (Some (mkThumbnail (remote 1 T))) (remote 2 V))))).
Definition document (name T V : string) : MessageContent :=
  ContentDocument (Some (mkMessageDocument (Some
    (mkDocument name (Some (mkThumbnail (remote 1 T))) (remote 2 V))))).
Definition video (caption T V : string) : MessageContent :=
  ContentVideo (Some (mkMessageVideo
    (Some (mkVideo (Some (mkThumbnail (remote 1 T))) (remote 2 V)))
    (Some (mkFormattedText caption)))).

Lemma extract_content_video_note c ch l T V :
  extract_content P c ch l (Some (video_note T V)) =
  (fetch_and_upload P c ch l T ;;; fetch_and_upload P c ch l T ;;; ret ("", T, V)).
Proof. reflexivity. Qed.

Lemma extract_content_document c ch l name T V :
  extract_content P c ch l (Some (document name T V)) =
  (fetch_and_upload P c ch l T ;;; fetch_and_upload P c ch l T ;;; ret (name, T, V)).
Proof. reflexivity. Qed.

Lemma extract_content_video c ch l caption T V :
  extract_content P c ch l (Some (video caption T V)) =
  (fetch_and_upload P c ch l T ;;; fetch_and_upload P c ch l V ;;; ret (caption, T, V)).
Proof. reflexivity. Qed.

Lemma ParseMessage_frame crawlid message mlr chat info postcount viewcount channelName w :
  (ParseMessage P crawlid message mlr chat info postcount viewcount channelName w).2 =
  (ParseMessage_body P crawlid message mlr chat info postcount viewcount channelName
     (start w)).2.
Proof.
  unfold ParseMessage. fold (start w).
  destruct (ParseMessage_body _ _ _ _ _ _ _ _ _ _) as [[[p e]|] s]; simpl; [done|].
  by destruct (_ || _).
Qed.

Lemma adds_only_body id crawlid msg mlr chat info postcount viewcount channelName :
  (forall l, adds_only (asks_only_for id)
               (extract_content P crawlid channelName l (Content msg))) ->
  adds_only (asks_only_for id)
    (ParseMessage_body P crawlid (Some msg) mlr chat info postcount viewcount channelName).
Proof.
  intros Hc. unfold ParseMessage_body. cbn [deref]. apply adds_only_bind_ret.
  repeat first [apply Hc | apply adds_only_fetch_comments
               | apply adds_only_aggregate_reactions | adds_step].
Qed.

(** ** The thumbnail of a photo *)

(** [content.Photo.Sizes[0].Photo.Remote.Id], when every pointer on the
    way is there. *)
Definition first_size_remote_id (content : MessagePhoto) : option string :=
  photo ← MessagePhoto_Photo content;
  size0 ← mjoin (Photo_Sizes photo !! 0%nat);
  f ← PhotoSize_Photo size0;
  r ← File_Remote f;
  Some (RemoteFile_Id r).

Lemma extract_content_photo crawlid channelName link content s d t v s' :
  extract_content P crawlid channelName link (Some (ContentPhoto (Some content))) s =
    (Returned (d, t, v), s') ->
  first_size_remote_id content = Some t /\ v = "".
Proof.
  unfold extract_content, first_size_remote_id, file_remote_id, bind. simpl.
  destruct (MessagePhoto_Caption content) as [caption|]; simpl; [|done].
  destruct (MessagePhoto_Photo content) as [photo|]; simpl; [|done].
  destruct (Photo_Sizes photo !! 0%nat) as [[size0|]|]; simpl; [|done|done].
  destruct (PhotoSize_Photo size0) as [f|]; simpl; [|done].
  destruct (File_Remote f) as [r|]; simpl; [|done].
  destruct (fetch_and_upload P crawlid channelName link (RemoteFile_Id r) s)
    as [[[]|] s1]; simpl; [|done].
  by intros [= <- <- <- <-].
Qed.

(** The lookup of the remote file [id] is the first thing
    [fetch_and_upload] adds to the trace. *)
Lemma fetch_and_upload_asks c ch l id s :
  exists evs,
    trace (fetch_and_upload P c ch l id s).2 = trace s ++ AskedRemoteFile id :: evs.
Proof.
  unfold fetch_and_upload, bind at 1.
  destruct (fetchfilefromtelegram P id s) as [r s1] eqn:Hf.
  assert (exists evs1, trace s1 = trace s ++ AskedRemoteFile id :: evs1) as [evs1 H1].
  { pose proof (fetchfilefromtelegram_frame id s) as Hfr. rewrite Hf in Hfr. simpl in Hfr.
    rewrite Hfr. unfold fetchfilefromtelegram_body, bind at 1.
    unfold call at 1. destruct (GetRemoteFile P (world s) id) as [w1 r1].
    set (s' := mkFrame w1 _ _ _ _ _).
    assert (forall A (m : M W A), adds_only (fun _ => True) m ->
              exists evs, trace (m s').2 = trace s ++ AskedRemoteFile id :: evs) as Hm.
    { intros A m Hm. destruct (Hm s') as (evs & -> & _). exists evs.
      unfold s'; simpl. by rewrite <- app_assoc. }
    destruct r1 as [r1|]; simpl; [|by exists []].
    apply Hm. repeat adds_step. }
  destruct r as [path|]; simpl; [|eauto].
  match goal with |- exists evs, trace (?m s1).2 = _ =>
    assert (adds_only (fun _ => True) m) as Hk by repeat adds_step;
    destruct (Hk s1) as (evs & -> & _)
  end.
  rewrite H1. exists (evs1 ++ evs). by rewrite <- app_assoc.
Qed.

Lemma extract_content_photo_asked c ch l content s d t v s' :
  extract_content P c ch l (Some (ContentPhoto (Some content))) s =
    (Returned (d, t, v), s') ->
  exists evs, trace s' = trace s ++ AskedRemoteFile t :: evs.
Proof.
  unfold extract_content, file_remote_id, bind. simpl.
  destruct (MessagePhoto_Caption content) as [caption|]; simpl; [|done].
  destruct (MessagePhoto_Photo content) as [photo|]; simpl; [|done].
  destruct (Photo_Sizes photo !! 0%nat) as [[size0|]|]; simpl; [|done|done].
  destruct (PhotoSize_Photo size0) as [f|]; simpl; [|done].
  destruct (File_Remote f) as [r|]; simpl; [|done].
  destruct (fetch_and_upload_asks c ch l (RemoteFile_Id r) s) as [evs Hevs].
  destruct (fetch_and_upload P c ch l (RemoteFile_Id r) s) as [[[]|] s1]; simpl in *; [|done].
  intros [= <- <- <- <-]. eauto.
Qed.

(** Whatever the platform does, the case of a photo asks for no remote
    file other than that of the first photo size. *)
Lemma adds_only_photo c ch l content t :
  first_size_remote_id content = Some t ->
  adds_only (asks_only_for t)
    (extract_content P c ch l (Some (ContentPhoto (Some content)))).
Proof.
  intros H s. unfold first_size_remote_id in H.
  unfold extract_content, file_remote_id, bind. simpl.
  destruct (MessagePhoto_Caption content) as [caption|]; simpl;
    [|exists []; by rewrite app_nil_r].
  destruct (MessagePhoto_Photo content) as [photo|]; simpl in *; [|done].
  destruct (Photo_Sizes photo !! 0%nat) as [[size0|]|]; simpl in *; [|done|done].
  destruct (PhotoSize_Photo size0) as [f|]; simpl in *; [|done].
  destruct (File_Remote f) as [r|]; simpl in *; [|done].
  injection H as <-.
  destruct (adds_only_fetch_and_upload c ch l (RemoteFile_Id r) s) as (evs & He & Hok).
  destruct (fetch_and_upload P c ch l (RemoteFile_Id r) s) as [[[]|] s1]; simpl in *; eauto.
Qed.

(** A record that is not empty comes after the comments and the content
    were read: the trace holds what those steps left in it. *)
Lemma ParseMessage_body_trace crawlid msg lnk chat info postcount viewcount channelName s0 :
  post s0 = emptyPost ->
  res_post (ParseMessage_body P crawlid (Some msg) (Some lnk) chat info postcount
              viewcount channelName s0) <> emptyPost ->
  exists comments s1 c s2 evs,
    fetch_comments P msg chat channelName s0 = (Returned comments, s1) /\
    extract_content P crawlid channelName (Link lnk) (Content msg) s1 = (Returned c, s2) /\
    trace (ParseMessage_body P crawlid (Some msg) (Some lnk) chat info postcount
             viewcount channelName s0).2 = trace s2 ++ evs.
Proof.
  intros H0.
  set (Q := fun rs : outcome (Post * error) * Frame W =>
    res_post rs <> emptyPost ->
    exists comments s1 c s2 evs,
      fetch_comments P msg chat channelName s0 = (Returned comments, s1) /\
      extract_content P crawlid channelName (Link lnk) (Content msg) s1 = (Returned c, s2) /\
      trace rs.2 = trace s2 ++ evs).
  change (Q (ParseMessage_body P crawlid (Some msg) (Some lnk) chat info postcount
               viewcount channelName s0)).
  unfold ParseMessage_body.
  apply (bind_elim Q); [done|intros ? ? [= <- <-]].
  destruct (decide _); [by intros Hne|].
  apply (bind_elim Q); [done|intros ? ? [= <- <-]].
  destruct (last (Split (Link lnk) "/")) as [messageNumber|]; [|by intros Hne].
  apply (bind_elim Q); [intros s1 Hc|intros comments s1 Hc].
  { intros Hne. exfalso. apply Hne. unfold res_post; simpl. rewrite <- H0.
    by eapply keeps_eq; [apply keeps_post_fetch_comments|]. }
  apply (bind_elim Q); [intros s2 He|intros c s2 He].
  { intros Hne. exfalso. apply Hne. unfold res_post; simpl. rewrite <- H0.
    rewrite (keeps_eq post _ _ _ _ (keeps_post_extract_content _ _ _ _) He).
    by eapply keeps_eq; [apply keeps_post_fetch_comments|]. }
  intros _. exists comments, s1, c, s2.
  match goal with |- exists evs, _ /\ _ /\ trace (?m s2).2 = _ =>
    assert (adds_only (fun _ => True) m) as Hk
  end.
  { destruct c as [[d t] v]. unfold aggregate_reactions. repeat adds_step. }
  destruct (Hk s2) as (evs & -> & _). eauto.
Qed.

(** C5 (as amended). For a photo message, the thumbnail field of a record
    that is not empty is the remote file id of the first photo size and
    the media field is empty, whatever path the download gave and
    whatever the blob sink returned; that remote id is the one the file
    was asked for from the platform by, and no other remote file was
    asked for. *)
Theorem ParseMessage_photo_thumbnail crawlid msg lnk chat info postcount viewcount
    channelName w content :
  Content msg = Some (ContentPhoto (Some content)) ->
  (ParseMessage P crawlid (Some msg) (Some lnk) chat info postcount viewcount
     channelName w).1.1 <> emptyPost ->
  first_size_remote_id content =
    Some (ThumbURL (ParseMessage P crawlid (Some msg) (Some lnk) chat info postcount
                      viewcount channelName w).1.1) /\
  MediaURL (ParseMessage P crawlid (Some msg) (Some lnk) chat info postcount
              viewcount channelName w).1.1 = "" /\
  AskedRemoteFile (ThumbURL (ParseMessage P crawlid (Some msg) (Some lnk) chat info
                               postcount viewcount channelName w).1.1)
    ∈ trace (ParseMessage P crawlid (Some msg) (Some lnk) chat info postcount viewcount
               channelName w).2 /\
  Forall (asks_only_for (ThumbURL (ParseMessage P crawlid (Some msg) (Some lnk) chat info
                                     postcount viewcount channelName w).1.1))
    (trace (ParseMessage P crawlid (Some msg) (Some lnk) chat info postcount viewcount
              channelName w).2).
Proof.
  intros Hc. rewrite ParseMessage_res_post, ParseMessage_frame. intros Hne.
  destruct (ParseMessage_body_post crawlid msg lnk chat info postcount viewcount
              channelName (start w) eq_refl)
    as [Hempty|(mn & comments & s1 & d & t & v & s2 & _ & Hf & He & _ & _ & Ht & Hv & _)];
    [done|].
  destruct (ParseMessage_body_trace crawlid msg lnk chat info postcount viewcount
              channelName (start w) eq_refl Hne)
    as (comments' & s1' & c' & s2' & evs & Hf' & He' & Htr).
  rewrite Hf in Hf'. injection Hf' as <- <-.
  rewrite He in He'. injection He' as <- <-.
  rewrite Hc in He.
  pose proof (extract_content_photo _ _ _ _ _ _ _ _ _ He) as [Hid ->].
  destruct (extract_content_photo_asked _ _ _ _ _ _ _ _ _ He) as [evs' Hasked].
  rewrite Ht, Hv. split; [done|]. split; [done|]. split.
  - rewrite Htr, Hasked. set_solver.
  - destruct (adds_only_body t crawlid msg (Some lnk) chat info postcount viewcount
                channelName) with (s := start w) as (evs0 & -> & Hok); [|done].
    intros l. rewrite Hc. by apply adds_only_photo.
Qed.

(** C4, where the code departs from it. For a video note and for a
    document, whatever the collaborators do, the only remote file ever
    asked for is the thumbnail: the body, of remote id [V], is asked for
    only if [V] is the thumbnail's id. *)
Theorem ParseMessage_asks_thumbnail_only crawlid mid chatId date editDate interaction
    mlr chat info postcount viewcount channelName w name T V :
  Forall (asks_only_for T)
    (trace (ParseMessage P crawlid
              (Some (mkMessage mid chatId date editDate interaction (Some (video_note T V))))
              mlr chat info postcount viewcount channelName w).2) /\
  Forall (asks_only_for T)
    (trace (ParseMessage P crawlid
              (Some (mkMessage mid chatId date editDate interaction (Some (document name T V))))
              mlr chat info postcount viewcount channelName w).2).
Proof.
  split; rewrite ParseMessage_frame.
  - destruct (adds_only_body T crawlid
                (mkMessage mid chatId date editDate interaction (Some (video_note T V)))
                mlr chat info postcount viewcount channelName) with (s := start w)
      as (evs & -> & Hok); [|done].
    intros l. cbn [Content]. rewrite extract_content_video_note.
    repeat first [apply adds_only_fetch_and_upload | adds_step].
  - destruct (adds_only_body T crawlid
                (mkMessage mid chatId date editDate interaction (Some (document name T V)))
                mlr chat info postcount viewcount channelName) with (s := start w)
      as (evs & -> & Hok); [|done].
    intros l. cbn [Content]. rewrite extract_content_document.
    repeat first [apply adds_only_fetch_and_upload | adds_step].
Qed.

End Facts.

(** ** Reactions *)

(** The emoji and the count of an entry the loop takes up: one whose
    type is an emoji. *)
Definition emoji_count (entry : option MessageReaction) : option (string * Z) :=
  match entry with
  | Some reaction =>
      match Reaction_Type reaction with
      | Some (ReactionEmoji (Some emojiReaction)) =>
          Some (Emoji emojiReaction, TotalCount reaction)
      | _ => None
      end
  | None => None
  end.

(** The aggregation as the specification words it: "sum per-emoji
    reaction counts into a mapping", any other entry skipped. *)
Fixpoint spec_reaction_sums (entries : list (option MessageReaction))
    (sums : gmap string Z) : gmap string Z :=
  match entries with
  | [] => sums
  | entry :: rest =>
      match emoji_count entry with
      | Some (emoji, n) =>
          spec_reaction_sums rest (<[emoji := (default 0 (sums !! emoji) + n)%Z]> sums)
      | None => spec_reaction_sums rest sums
      end
  end.

(** The counts, in entry order, of the entries for [emoji]. *)
Definition counts_for (emoji : string) (entries : list (option MessageReaction)) : list Z :=
  omap (fun p : string * Z => if decide (p.1 = emoji) then Some p.2 else None)
       (omap emoji_count entries).

Lemma count_reactions_lookup entries : forall reactions reactions' emoji,
  count_reactions entries reactions = Returned reactions' ->
  reactions' !! emoji =
    match last (counts_for emoji entries) with
    | Some n => Some n
    | None => reactions !! emoji
    end.
Proof.
  induction entries as [|[reaction|] rest IH]; intros reactions reactions' emoji H;
    simpl in H; [by inversion H| |done].
  unfold counts_for in *. simpl.
  destruct (Reaction_Type reaction) as [[[e|]| |]|] eqn:Ht; simpl; try done;
    try (by apply IH).
  rewrite (IH _ _ emoji H). simpl.
  destruct (decide (Emoji e = emoji)) as [<-|Hne]; simpl.
  - rewrite lookup_insert_eq, last_cons. by destruct (last _).
  - by rewrite lookup_insert_ne.
Qed.

Lemma count_reactions_sums entries : forall reactions reactions',
  count_reactions entries reactions = Returned reactions' ->
  NoDup (omap emoji_count entries).*1 ->
  (forall emoji, emoji ∈ (omap emoji_count entries).*1 -> reactions !! emoji = None) ->
  reactions' = spec_reaction_sums entries reactions.
Proof.
  induction entries as [|[reaction|] rest IH]; intros reactions reactions' H Hnd Hnew;
    simpl in H; [by inversion H| |done].
  simpl in *.
  destruct (Reaction_Type reaction) as [[[e|]| |]|] eqn:Ht; simpl in *; try done;
    try (by apply IH).
  apply NoDup_cons in Hnd as [Hnin Hnd].
  rewrite (Hnew (Emoji e)) by (by left). simpl.
  apply IH; [done|done|].
  intros emoji Hin. rewrite lookup_insert_ne.
  - apply Hnew. by right.
  - intros <-. done.
Qed.

(** C8 (as amended). When the loop over the entries ends, the mapping
    holds for each emoji the count of the last entry with that emoji,
    and nothing for an emoji with no entry; an entry whose type is absent
    or is not an emoji counts for nothing. When no emoji has two entries,
    that is the sum of the emoji's counts. *)
Theorem count_reactions_last_wins entries reactions :
  count_reactions entries ∅ = Returned reactions ->
  (forall emoji, reactions !! emoji = last (counts_for emoji entries)) /\
  (NoDup (omap emoji_count entries).*1 -> reactions = spec_reaction_sums entries ∅).
Proof.
  intros H. split.
  - intros emoji. rewrite (count_reactions_lookup _ _ _ emoji H).
    rewrite lookup_empty. by destruct (last _).
  - intros Hnd. apply (count_reactions_sums _ _ _ H Hnd). intros. apply lookup_empty.
Qed.

(** ** Concrete messages *)

(** A platform on which every call returns: a remote file is found under
    the id asked for, it downloads to [path], uploads and stores succeed,
    and fetching comments returns [commentsErr]. *)
Definition steady (path : string) (commentsErr : error) : Platform unit :=
  mkPlatform unit (fun _ => 0%Z)
    (fun w _ _ _ => (w, Returned ([], commentsErr)))
    (fun w rid => (w, Returned (Some (mkFile 7 (Some (mkRemoteFile rid)) None), None)))
    (fun w fid => (w, Returned (Some (mkFile fid None (Some (mkLocalFile path))), None)))
    (fun w _ _ _ _ => (w, Returned None))
    (fun w _ _ => (w, Returned 10%Z))
    (fun w _ _ _ => (w, Returned (3%Z, None)))
    (fun w _ _ _ => (w, Returned None)).

(** [ParseMessage] on that platform, for a message of channel "chan"
    published at [date] with permalink [link]. *)
Definition parse (path : string) (commentsErr : error) (date : Z)
    (interaction : option MessageInteractionInfo) (content : MessageContent)
    (link : string) : Post * error * Frame unit :=
  ParseMessage (steady path commentsErr) "crawl"
    (Some (mkMessage 42 7 date date interaction (Some content)))
    (Some (mkMessageLink link)) (Some (mkChat 7 "Channel"))
    (Some (mkSupergroupFullInfo 100)) 1 2 "chan" tt.

Definition text (body : string) : MessageContent :=
  ContentText (Some (mkMessageText (Some (mkFormattedText body)))).
Definition photo (caption rid : string) : MessageContent :=
  ContentPhoto (Some (mkMessagePhoto
    (Some (mkPhoto [Some (mkPhotoSize (remote 1 rid))]))
    (Some (mkFormattedText caption)))).

(** The remote files asked for, in order. *)
Definition asked_files (events : list Event) : list string :=
  omap (fun ev => match ev with AskedRemoteFile id => Some id | _ => None end) events.

(** C6 at a message dated 2015-01-01. *)
Lemma ParseMessage_cutoff_2015 :
  (Year 0 1420070400 < 2018)%Z /\
  parse "/tmp/x" None 1420070400 None (text "hello") "https://t.me/chan/42" =
    (emptyPost, None, start tt).
Proof.
  split; [by vm_compute|].
  apply (ParseMessage_cutoff (steady "/tmp/x" None) "crawl"
           (mkMessage 42 7 1420070400 1420070400 None (Some (text "hello")))).
  by vm_compute.
Defined.

(** The text message of the specification: id "42-chan", description
    "hello", no media. *)
Example ParseMessage_text :
  (fun r : Post * error * Frame unit =>
     (PostUID r.1.1, Description r.1.1, ThumbURL r.1.1, MediaURL r.1.1, r.1.2))
    (parse "/tmp/x" None 1600000000 None (text "hello") "https://t.me/chan/42") =
  ("42-chan", "hello", "", "", None).
Proof. vm_compute. reflexivity. Qed.

(** C7, where the code departs from it. The empty permalink has no
    segment to take a message number from. [strings.Split] gives one
    part for it, the empty string, so [len(linkParts) > 0] holds and the
    branch that skips the message is not taken: extraction does not
    return the empty result, it returns, with a nil error, a record with
    the id "-chan", after handing it to the store. *)
Theorem ParseMessage_empty_permalink :
  (fun r : Post * error * Frame unit =>
     (PostUID r.1.1, PlatformName r.1.1, r.1.2, last (trace r.2)))
    (parse "/tmp/x" None 1600000000 None (text "hello") "") =
  ("-chan", "Telegram", None,
   Some (Stored "crawl" "chan"
           (parse "/tmp/x" None 1600000000 None (text "hello") "").1.1)).
Proof. vm_compute. reflexivity. Qed.

(** C5 at a photo whose first size has remote id "AgAD-photo". *)
Lemma ParseMessage_photo_thumbnail_example :
  (parse "/tmp/x" None 1600000000 None (photo "sunset" "AgAD-photo")
     "https://t.me/chan/42").1.1 <> emptyPost /\
  first_size_remote_id
    (mkMessagePhoto (Some (mkPhoto [Some (mkPhotoSize (remote 1 "AgAD-photo"))]))
       (Some (mkFormattedText "sunset"))) =
    Some (ThumbURL (parse "/tmp/x" None 1600000000 None (photo "sunset" "AgAD-photo")
                      "https://t.me/chan/42").1.1).
Proof.
  assert ((parse "/tmp/x" None 1600000000 None (photo "sunset" "AgAD-photo")
             "https://t.me/chan/42").1.1 <> emptyPost) as Hne.
  { intros H. apply (f_equal PlatformName) in H. vm_compute in H. discriminate. }
  split; [exact Hne|].
  exact (proj1 (ParseMessage_photo_thumbnail (steady "/tmp/x" None) "crawl"
                  (mkMessage 42 7 1600000000 1600000000 None
                     (Some (photo "sunset" "AgAD-photo")))
                  (mkMessageLink "https://t.me/chan/42") (Some (mkChat 7 "Channel"))
                  (Some (mkSupergroupFullInfo 100)) 1 2 "chan" tt _ eq_refl Hne)).
Defined.

(** C5 as the specification states it does not hold: two photos handed
    to the blob sink with the same arguments get different thumbnail
    fields, each the remote id of its file; so the field is no function
    of where the blob went. *)
Lemma ParseMessage_photo_thumbnail_is_remote_id :
  ThumbURL (parse "/tmp/x" None 1600000000 None (photo "" "A") "https://t.me/chan/42").1.1
    = "A" /\
  ~ exists blobref : string -> string -> string -> string -> string,
      forall rid c n l p,
        Uploaded c n l p ∈
          trace (parse "/tmp/x" None 1600000000 None (photo "" rid)
                   "https://t.me/chan/42").2 ->
        ThumbURL (parse "/tmp/x" None 1600000000 None (photo "" rid)
                    "https://t.me/chan/42").1.1 = blobref c n l p.
Proof.
  split; [by vm_compute|]. intros [blobref H].
  assert (forall rid,
            Uploaded "crawl" "chan" "https://t.me/chan/42" "/tmp/x" ∈
              trace (parse "/tmp/x" None 1600000000 None (photo "" rid)
                       "https://t.me/chan/42").2) as Hup.
  { intros rid. apply (list_elem_of_lookup_2 _ 2). reflexivity. }
  pose proof (H "A" _ _ _ _ (Hup "A")) as HA.
  pose proof (H "B" _ _ _ _ (Hup "B")) as HB.
  vm_compute in HA, HB. congruence.
Qed.

(** C9, where the code departs from it. A document without thumbnail, on
    a message with replies whose comments cannot be fetched. Reading the
    thumbnail panics; the recover deferred in the comments block runs
    first and takes the panic, so the outer one never sets its error; and
    the error returned with the empty record is the one of the comment
    fetch, not "failed to parse message". *)
Theorem ParseMessage_leaks_comment_error :
  (ParseMessage_body (steady "/tmp/x" (Some "comments unavailable")) "crawl"
     (Some (mkMessage 42 7 1600000000 1600000000
              (Some (mkMessageInteractionInfo (Some (mkMessageReplyInfo 3)) None))
              (Some (ContentDocument (Some (mkMessageDocument (Some
                 (mkDocument "report.pdf" None (remote 2 "V")))))))))
     (Some (mkMessageLink "https://t.me/chan/42")) (Some (mkChat 7 "Channel"))
     (Some (mkSupergroupFullInfo 100)) 1 2 "chan" (start tt)).1 = Panicked /\
  (parse "/tmp/x" (Some "comments unavailable") 1600000000
     (Some (mkMessageInteractionInfo (Some (mkMessageReplyInfo 3)) None))
     (ContentDocument (Some (mkMessageDocument (Some
        (mkDocument "report.pdf" None (remote 2 "V"))))))
     "https://t.me/chan/42").1 = (emptyPost, Some "comments unavailable").
Proof. split; vm_compute; reflexivity. Qed.

(** C4 at a video note, a document and a video with thumbnail "T" and
    body "V": the first two ask for "T" twice and never for "V", though
    the media field names "V"; the video asks for both. *)
Example ParseMessage_media_asked :
  (fun r : Post * error * Frame unit => (asked_files (trace r.2), MediaURL r.1.1))
    (parse "/tmp/x" None 1600000000 None (video_note "T" "V") "https://t.me/chan/42")
    = (["T"; "T"], "V") /\
  (fun r : Post * error * Frame unit => (asked_files (trace r.2), MediaURL r.1.1))
    (parse "/tmp/x" None 1600000000 None (document "a.pdf" "T" "V") "https://t.me/chan/42")
    = (["T"; "T"], "V") /\
  (fun r : Post * error * Frame unit => (asked_files (trace r.2), MediaURL r.1.1))
    (parse "/tmp/x" None 1600000000 None (video "clip" "T" "V") "https://t.me/chan/42")
    = (["T"; "V"], "V").
Proof. repeat split; vm_compute; reflexivity. Qed.

(** Reaction entries: an emoji with a count, a custom emoji, an entry
    with no type. *)
Definition emoji_entry (emoji : string) (n : Z) : option MessageReaction :=
  Some (mkMessageReaction (Some (ReactionEmoji (Some (mkReactionTypeEmoji emoji)))) n).
Definition custom_entry (n : Z) : option MessageReaction :=
  Some (mkMessageReaction (Some ReactionCustomEmoji) n).
Definition untyped_entry (n : Z) : option MessageReaction :=
  Some (mkMessageReaction None n).

(** C8 at four entries, two of them skipped. *)
Lemma count_reactions_last_wins_example :
  count_reactions [emoji_entry "like" 2; custom_entry 9; untyped_entry 4;
                   emoji_entry "fire" 3] ∅ =
    Returned {[ "like" := 2%Z; "fire" := 3%Z ]} /\
  forall emoji,
    ({[ "like" := 2%Z; "fire" := 3%Z ]} : gmap string Z) !! emoji =
    last (counts_for emoji [emoji_entry "like" 2; custom_entry 9; untyped_entry 4;
                            emoji_entry "fire" 3]).
Proof.
  assert (count_reactions [emoji_entry "like" 2; custom_entry 9; untyped_entry 4;
                           emoji_entry "fire" 3] ∅ =
            Returned {[ "like" := 2%Z; "fire" := 3%Z ]}) as H.
  { vm_compute. reflexivity. }
  split; [exact H|].
  exact (proj1 (count_reactions_last_wins _ _ H)).
Defined.

(** C8 as the specification states it does not hold: with two entries
    for one emoji the mapping holds the count of the second, not the
    sum. *)
Lemma count_reactions_not_a_sum :
  count_reactions [emoji_entry "like" 2; emoji_entry "like" 3] ∅ =
    Returned {[ "like" := 3%Z ]} /\
  spec_reaction_sums [emoji_entry "like" 2; emoji_entry "like" 3] ∅ =
    {[ "like" := 5%Z ]} /\
  count_reactions [emoji_entry "like" 2; emoji_entry "like" 3] ∅ <>
    Returned (spec_reaction_sums [emoji_entry "like" 2; emoji_entry "like" 3] ∅).
Proof.
  assert (count_reactions [emoji_entry "like" 2; emoji_entry "like" 3] ∅ =
            Returned {[ "like" := 3%Z ]}) as H1 by (vm_compute; reflexivity).
  assert (spec_reaction_sums [emoji_entry "like" 2; emoji_entry "like" 3] ∅ =
            {[ "like" := 5%Z ]}) as H2 by (vm_compute; reflexivity).
  split; [done|]. split; [done|].
  rewrite H1, H2. by intros [= H].
Qed.

End ExtractFacts.

(* ================================================================== *)
(** * The frontier during a run of [launch] *)
(* ================================================================== *)

Module FrontierFacts.
Import Orchestrator LaunchFacts.
Set Warnings "-clear-no-such-hyp".

(** Every layer has its index as [Depth] (and the index fits an [int]). *)
Definition depth_is_index (L : list Layer) : Prop :=
  forall idx l, L !! idx = Some l -> Depth l = Z.of_nat idx /\ Z.of_nat idx < 2 ^ 63.


#[local] Existing Instance not_fetched_dec.

Section Facts.
Context {W : Type} (C : Collaborators W).

(** ** Depths *)

Lemma frontier_change_depth seen seen' l L L' i :
  frontier_change C seen seen' l L L' -> L !! i = Some l -> depth_is_index L ->
  depth_is_index L' /\
  forall idx u, in_layer L' idx u -> in_layer L idx u \/ idx = S i.
Proof.
  intros Hfc Hi Hd. destruct (Hd _ _ Hi) as [Hdl Hlt].
  pose proof (lookup_lt_Some _ _ _ Hi) as Hilt.
  assert (0 <= next_depth l \/ Z.of_nat (length L) <= next_depth l ->
          next_depth l = Z.of_nat (S i) /\ Z.of_nat (S i) < 2 ^ 63) as Hnext.
  { intros Hor. unfold next_depth in *. rewrite Hdl in *.
    destruct (decide (Z.of_nat i + 1 < 2 ^ 63)).
    - rewrite wrap64_small; lia.
    - assert (Z.of_nat i + 1 = 2 ^ 63) as He by lia. rewrite He, wrap64_max in Hor. lia. }
  destruct Hfc as [->|w existing pag Hne Hnd Hset Hpos Hex ->|pag Hne Hnd Hset Hge ->].
  - split; [done|]. by left.
  - rewrite (proj1 (Hnext (or_introl Hpos))), Nat2Z.id in *. split.
    + intros idx x. rewrite list_lookup_insert.
      destruct (decide _) as [[<- _]|_]; [|apply Hd].
      intros Hx. inversion Hx; subst; simpl. apply (Hd _ _ Hex).
    + intros idx u (x & Hx & Hu). destruct (decide (idx = S i)) as [->|Hn]; [by right|].
      left. rewrite list_lookup_insert_ne in Hx by done. by exists x.
  - assert (length L = S i) as Hlen by (destruct (Hnext (or_intror Hge)); lia).
    split.
    + intros idx x Hx. destruct (decide (idx < length L)%nat) as [Hl|Hl].
      * rewrite lookup_app_l in Hx by done. by apply Hd.
      * assert (idx = length L) as ->.
        { apply lookup_lt_Some in Hx. rewrite length_app in Hx. simpl in Hx. lia. }
        rewrite lookup_app_r, Nat.sub_diag in Hx by lia. inversion Hx; subst; simpl.
        destruct (Hnext (or_intror Hge)) as [-> ?]. lia.
    + intros idx u (x & Hx & Hu). destruct (decide (idx = S i)) as [->|Hn]; [by right|].
      left. exists x. split; [|done].
      rewrite lookup_app_l in Hx; [done|].
      apply lookup_lt_Some in Hx. rewrite length_app in Hx. simpl in Hx. lia.
Qed.

Lemma launch_step_depth c c' :
  depth_is_index (layers c.2) -> launch_step C c = Some c' -> depth_is_index (layers c'.2).
Proof.
  destruct c as [[i j] st]. intros Hd Hs.
  apply launch_step_cases in Hs as
    [(l & Hi & Hj & ->)|[(l & la & Hi & Hj & Hf & ->)|(l & la & Hi & Hj & Hf & ->)]];
    simpl; [done|done|].
  destruct (visit_page_effect C st l la) as (_ & _ & Hfc).
  by destruct (frontier_change_depth _ _ _ _ _ _ Hfc Hi Hd).
Qed.

(** X1. From a frontier in which every layer has its index as [Depth], at
    every point of the run every layer still has its index as [Depth]
    (the depths are 0, 1, 2, ... with no gap), and a visit made from the
    layer at index [i] puts the identifiers it adds in the layer at index
    [i+1] and nowhere else. *)
Theorem launch_depth_is_index seeds L0 w n :
  depth_is_index L0 ->
  depth_is_index (layers (launch_after C n (launch_start seeds L0 w)).2) /\
  forall st i l la idx u,
    depth_is_index (layers st) -> layers st !! i = Some l ->
    in_layer (layers (visit_page C st l la).2) idx u ->
    in_layer (layers st) idx u \/ idx = S i.
Proof.
  intros Hd. split.
  - by apply (launch_after_invariant C (fun c => depth_is_index (layers c.2)) launch_step_depth).
  - intros st i l la idx u Hdi Hi Hin.
    destruct (visit_page_effect C st l la) as (_ & _ & Hfc).
    destruct (frontier_change_depth _ _ _ _ _ _ Hfc Hi Hdi) as [_ H]. by apply H.
Qed.

(** ** Where the pages of the frontier come from *)





(** ** Identifiers already seen *)




(** ** The visits a run makes *)

Local Open Scope nat_scope.

(** The pages from layer [i], page [j] on. *)
Definition pending (i j : nat) (L : list Layer) : nat :=
  match L !! i with
  | None => 0
  | Some l => (length (Pages l) - j) + length (all_pages (drop (S i) L))
  end.

Lemma all_pages_cons (l : Layer) ls : all_pages (l :: ls) = Pages l ++ all_pages ls.
Proof. done. Qed.

Lemma all_pages_length_insert ls n old x :
  ls !! n = Some old ->
  length (all_pages (<[n := x]> ls)) + length (Pages old) =
  length (all_pages ls) + length (Pages x).
Proof.
  intros H. destruct (all_pages_insert ls n old x H) as [-> ->].
  rewrite !length_app. lia.
Qed.

Lemma pending_change seen seen' l L L' i j l0 la :
  frontier_change C seen seen' l L L' ->
  L !! i = Some l0 -> Pages l0 !! j = Some la ->
  pending i (S j) L' + 1 <= pending i j L + size (seen' ∖ seen).
Proof.
  intros Hfc Hi Hj.
  pose proof (lookup_lt_Some _ _ _ Hj) as Hjlt.
  pose proof (lookup_lt_Some _ _ _ Hi) as Hilt.
  destruct Hfc as [->|w existing pag Hne Hnd Hset Hpos Hex ->|pag Hne Hnd Hset Hge ->].
  - unfold pending. rewrite Hi. lia.
  - rewrite <- Hset, (size_list_to_set _ Hnd). unfold urls. rewrite length_fmap.
    set (d := Z.to_nat (next_depth l)) in *.
    set (x := mkLayer _ _).
    assert (length (Pages x) <= length (Pages existing) + length pag) as Hx.
    { unfold x; simpl. etrans; [apply rebuilt_length|]. by rewrite length_app. }
    pose proof (lookup_lt_Some _ _ _ Hex) as Hdlt.
    clearbody x.
    unfold pending. rewrite list_lookup_insert, Hi.
    destruct (decide (d = i ∧ d < length L)) as [[-> _]|Hn].
    + rewrite drop_insert_lt by lia. rewrite Hex in Hi. inversion Hi; subst. lia.
    + destruct (decide (d < S i)).
      * rewrite drop_insert_lt by lia. lia.
      * rewrite drop_insert_ge by lia.
        assert (drop (S i) L !! (d - S i) = Some existing) as Hdrop.
        { rewrite lookup_drop. rewrite <- Hex. f_equal. lia. }
        pose proof (all_pages_length_insert _ _ _ x Hdrop). lia.
  - rewrite <- Hset, (size_list_to_set _ Hnd). unfold urls. rewrite length_fmap.
    unfold pending. rewrite lookup_app_l by done. rewrite Hi.
    rewrite drop_app_le by lia. rewrite all_pages_app, length_app.
    unfold all_pages at 2. simpl. rewrite app_nil_r. lia.
Qed.

Section Work.
Variable U : gset string.
Hypothesis Run_in_U : forall w p w' outlinks e,
  Run C w p = (w', Returned (outlinks, e)) -> outlink_urls outlinks ⊆ U.

(** Visits made, pages still ahead, identifiers never seen. *)
Definition work (c : nat * nat * State W) : nat :=
  length (visits c.2) + pending c.1.1 c.1.2 (layers c.2) + size (U ∖ seenURLs c.2).

Lemma launch_step_work c c' : launch_step C c = Some c' -> work c' <= work c.
Proof.
  destruct c as [[i j] st]. intros Hs.
  apply launch_step_cases in Hs as
    [(l & Hi & Hj & ->)|[(l & la & Hi & Hj & Hf & ->)|(l & la & Hi & Hj & Hf & ->)]];
    unfold work; simpl.
  - unfold pending. rewrite Hi.
    destruct (layers st !! S i) as [l'|] eqn:Hi'; [|lia].
    rewrite (drop_S _ _ _ Hi'), all_pages_cons, length_app. lia.
  - pose proof (lookup_lt_Some _ _ _ Hj). unfold pending. rewrite Hi. lia.
  - pose proof (visit_page_effect C st l la) as (Hv & Hsub & Hfc).
    pose proof (visit_page_seen_bound C U Run_in_U st l la) as Hb.
    set (st' := (visit_page C st l la).2) in *.
    assert (U ∖ seenURLs st = (U ∖ seenURLs st') ∪ (seenURLs st' ∖ seenURLs st)) as Hsplit.
    { apply set_eq. intros u. rewrite elem_of_union, !elem_of_difference.
      destruct (decide (u ∈ seenURLs st')); set_solver. }
    assert (size (U ∖ seenURLs st) = size (U ∖ seenURLs st') + size (seenURLs st' ∖ seenURLs st)) as Hsz.
    { rewrite Hsplit at 1. apply size_union. set_solver. }
    pose proof (pending_change _ _ _ _ _ _ _ _ _ Hfc Hi Hj).
    rewrite Hv, length_app. simpl. lia.
Qed.

(** X4. When the outlinks are drawn from a finite set [U] of identifiers,
    a run makes at most as many visits as the frontier it starts from has
    pages plus the identifiers of [U] that are not seeds; so does every
    run that ends. *)
Theorem launch_visits_bound seeds L0 w :
  (forall n, length (visits (launch_after C n (launch_start seeds L0 w)).2) <=
             length (all_pages L0) + size (U ∖ list_to_set seeds)) /\
  (forall fuel fin, launch C fuel seeds L0 w = Some fin ->
     length (visits fin) <= length (all_pages L0) + size (U ∖ list_to_set seeds)).
Proof.
  set (B := length (all_pages L0) + size (U ∖ list_to_set seeds)).
  assert (work (launch_start seeds L0 w) <= B) as Hstart.
  { unfold work, launch_start, pending, B; simpl.
    destruct L0 as [|l0 L0']; simpl; [lia|].
    rewrite drop_0, all_pages_cons, length_app. lia. }
  assert (forall c c', work c <= B -> launch_step C c = Some c' -> work c' <= B) as Hstep.
  { intros c c' Hc Hs. apply launch_step_work in Hs. lia. }
  split.
  - intros n.
    pose proof (launch_after_invariant C (fun c => work c <= B) Hstep n _ Hstart) as H.
    unfold work in H. lia.
  - intros fuel fin Hrun.
    destruct (launch_loop_invariant C (fun c => work c <= B) Hstep _ _ _ Hstart Hrun)
      as (i & j & H & _).
    unfold work in H. simpl in H. lia.
Qed.

(** X5. From a frontier of distinct identifiers that are all seeds, each
    layer sending its pages forward, with outlinks drawn from a finite
    set: the run ends, and the pages it has visited are, in the order of
    the visits, the pages of the frontier it ends with that are not
    marked fetched, layer after layer and in each layer's order. So every
    page discovered is visited unless it came marked fetched, and no page
    of a layer is visited before a page of an earlier layer. *)
Theorem launch_visits_whole_frontier seeds L0 w :
  forward L0 -> NoDup (urls (all_pages L0)) -> seen_covers (list_to_set seeds) L0 ->
  (exists fuel fin, launch C fuel seeds L0 w = Some fin) /\
  forall fuel fin, launch C fuel seeds L0 w = Some fin ->
    visits fin = filter not_fetched (all_pages (layers fin)) /\
    NoDup (urls (all_pages (layers fin))).
Proof.
  intros Hfw Hnd Hcov. split.
  - destruct (launch_ends C U Run_in_U seeds L0 w) as [fin Hrun]. eauto.
  - intros fuel fin Hrun.
    destruct (launch_run_spec C _ _ _ _ _ Hrun Hfw Hnd Hcov) as (? & _ & ?). done.
Qed.

End Work.
End Facts.

(** ** Concrete runs *)

Local Open Scope nat_scope.

Lemma seed_layers_depth seeds : depth_is_index (seed_layers seeds).
Proof.
  intros [|idx] l Hl; [|done]. inversion Hl; subst. simpl. split; [done|]. by vm_compute.
Qed.

(** X1 at a freshly seeded run in which "a" links to "b". *)
Lemma launch_depth_is_index_seeded :
  depth_is_index (seed_layers ["a"]) /\
  depth_is_index
    (layers (launch_after (finds "a" ["b"]) 4 (launch_start ["a"] (seed_layers ["a"]) tt)).2).
Proof.
  split; [apply seed_layers_depth|].
  exact (proj1 (launch_depth_is_index (finds "a" ["b"]) ["a"] (seed_layers ["a"]) tt 4
                  (seed_layers_depth ["a"]))).
Defined.


(** A crawl in which the visit of "a" returns the outlink "b" followed by
    a nil outlink. *)
Definition finds_then_nil : Collaborators unit :=
  mkCollaborators unit (fun _ => 0%Z)
    (fun w p => (w, Returned (if decide (URL p = "a")
                              then [Some (unvisited "b"); None] else [], None)))
    (fun w _ => (w, Returned None))
    (fun _ l => l) (fun _ l => Permutation_refl l).

(** The nil outlink makes the visit of "a" panic after "b" was marked
    seen: "b" is in [seenURLs], it is in no layer, and it is not visited. *)
Example launch_loses_seen_outlink :
  (fun st => (bool_decide ("b" ∈ seenURLs st), layers st, visits st)) <$>
    launch finds_then_nil 5 ["a"] (seed_layers ["a"]) tt =
  Some (true, [mkLayer 0 [unvisited "a"]], [unvisited "a"]).
Proof. by vm_compute. Qed.

(** X4 at a run in which "a" links to "b" and "c". *)
Lemma launch_visits_bound_finds :
  (forall w p w' outlinks e,
     Run (finds "a" ["b"; "c"]) w p = (w', Returned (outlinks, e)) ->
     outlink_urls outlinks ⊆ list_to_set ["b"; "c"]) /\
  forall n,
    length (visits (launch_after (finds "a" ["b"; "c"]) n
                      (launch_start ["a"] (seed_layers ["a"]) tt)).2) <=
    length (all_pages (seed_layers ["a"])) +
      size (list_to_set ["b"; "c"] ∖ list_to_set (C:=gset string) ["a"]).
Proof.
  split; [apply finds_outlinks|].
  exact (proj1 (launch_visits_bound (finds "a" ["b"; "c"]) (list_to_set ["b"; "c"])
                  (finds_outlinks "a" ["b"; "c"]) ["a"] (seed_layers ["a"]) tt)).
Defined.

(** X5 at a run in which "a" links to "b" and "c". *)
Lemma launch_visits_whole_frontier_finds :
  (forall w p w' outlinks e,
     Run (finds "a" ["b"; "c"]) w p = (w', Returned (outlinks, e)) ->
     outlink_urls outlinks ⊆ list_to_set ["b"; "c"]) /\
  forward (seed_layers ["a"]) /\
  NoDup (urls (all_pages (seed_layers ["a"]))) /\
  seen_covers (list_to_set ["a"]) (seed_layers ["a"]) /\
  forall fuel fin, launch (finds "a" ["b"; "c"]) fuel ["a"] (seed_layers ["a"]) tt = Some fin ->
    visits fin = filter not_fetched (all_pages (layers fin)) /\
    NoDup (urls (all_pages (layers fin))).
Proof.
  assert (NoDup (urls (all_pages (seed_layers ["a"])))) as Hnd.
  { apply (bool_decide_unpack _). by vm_compute. }
  split; [apply finds_outlinks|]. split; [apply seed_layers_forward|].
  split; [exact Hnd|]. split; [apply seed_layers_covered|].
  exact (proj2 (launch_visits_whole_frontier (finds "a" ["b"; "c"]) (list_to_set ["b"; "c"])
                  (finds_outlinks "a" ["b"; "c"]) ["a"] (seed_layers ["a"]) tt
                  (seed_layers_forward ["a"]) Hnd (seed_layers_covered ["a"]))).
Defined.

(** The visits of that run: "a", then its two outlinks, in the order in
    which the map that held them was ranged over. *)
Example launch_visits_in_order :
  (fun st => (visits st, all_pages (layers st))) <$>
    launch (finds "a" ["b"; "c"]) 6 ["a"] (seed_layers ["a"]) tt =
  Some ([unvisited "a"; unvisited "c"; unvisited "b"],
        [unvisited "a"; unvisited "c"; unvisited "b"]).
Proof. by vm_compute. Qed.

End FrontierFacts.

(* ================================================================== *)
(** * The calls and the record of [ParseMessage] *)
(* ================================================================== *)

Module RecordFacts.
Import Extractor ExtractFacts.

(** An event other than a call of [StoreData]. *)
Definition not_stored (ev : Event) : Prop :=
  match ev with Stored _ _ _ => False | _ => True end.

(** An event that touches no file: no lookup, no download, no upload. *)
Definition no_file_event (ev : Event) : Prop :=
  match ev with
  | AskedRemoteFile _ | AskedDownload _ | Uploaded _ _ _ _ => False
  | _ => True
  end.

(** The kinds of content whose case of the type switch names no file. *)
Definition carries_no_file (content : option MessageContent) : Prop :=
  match content with
  | Some (ContentVideo _) | Some (ContentPhoto _) | Some (ContentAnimation _)
  | Some (ContentSticker _) | Some (ContentVideoNote _) | Some (ContentDocument _) => False
  | _ => True
  end.

(** The message has reply info with a positive reply count. *)
Definition has_replies (msg : Message) : Prop :=
  match InteractionInfo msg with
  | Some (mkMessageInteractionInfo (Some replyInfo) _) => 0 < ReplyCount replyInfo
  | _ => False
  end.

(** An event that, if it asks for comments, asks for those of [msg] in
    [chat], and only when [msg] has replies. *)
Definition comments_of (msg : Message) (chat : option Chat) (channelName : string)
    (ev : Event) : Prop :=
  match ev with
  | AskedComments chatId messageId name =>
      has_replies msg /\ Chat_Id <$> chat = Some chatId /\ messageId = Id msg /\
      name = channelName
  | _ => True
  end.

(** A video message for which [processMessageSafely] returns its error:
    the message, its video or the video's thumbnail is nil. *)
Definition no_thumbnail (content : option MessageVideo) : Prop :=
  match content with
  | None => True
  | Some m =>
      match MessageVideo_Video m with
      | None => True
      | Some v => Video_Thumbnail v = None
      end
  end.

Section Facts.
Context {W : Type} (P : Platform W).

Ltac adds_step :=
  first
    [ apply adds_only_ret | apply adds_only_panic | apply adds_only_deref
    | apply adds_only_set_err | apply adds_only_set_post
    | apply adds_only_defer_comments | apply adds_only_defer_reactions
    | apply adds_only_call; first [exact I | assumption]
    | apply adds_only_fetchfilefromtelegram; unfold fetchfilefromtelegram_body
    | apply adds_only_bind; [|intros ?]
    | match goal with
      | |- adds_only _ (match ?x with _ => _ end) => destruct x
      | |- adds_only _ (if ?x then _ else _) => destruct x
      | |- adds_only _ (let '(_, _) := ?x in _) => destruct x
      end ].

(** ** What the steps of the body add to the trace *)

Lemma adds_only_reactions ok msg : adds_only ok (@aggregate_reactions W msg).
Proof. unfold aggregate_reactions. repeat adds_step. Qed.

(** Besides file events, the type switch adds nothing. *)
Lemma adds_only_content ok c ch l content :
  (forall id, ok (AskedRemoteFile id)) -> (forall fid, ok (AskedDownload fid)) ->
  (forall a b d e, ok (Uploaded a b d e)) ->
  adds_only ok (extract_content P c ch l content).
Proof.
  intros H1 H2 H3.
  unfold extract_content, processMessageSafely, thumbnail_remote_id, file_remote_id,
    fetch_and_upload.
  repeat first [apply adds_only_call; first [apply H1 | apply H2 | apply H3] | adds_step].
Qed.

Lemma adds_only_no_file_content ok c ch l content :
  carries_no_file content -> adds_only ok (extract_content P c ch l content).
Proof.
  intros H. unfold extract_content.
  destruct content as [[]|]; simpl in H; try done; repeat adds_step.
Qed.

Lemma adds_only_comments msg chat channelName :
  adds_only (comments_of msg chat channelName) (fetch_comments P msg chat channelName).
Proof.
  unfold fetch_comments.
  destruct (InteractionInfo msg) as [[[replyInfo|] x]|] eqn:Hi; try (by repeat adds_step).
  apply adds_only_bind; [adds_step|intros _].
  destruct (decide _) as [Hpos|]; [|adds_step].
  destruct chat as [ch|]; [|repeat adds_step].
  cbn [deref]. apply adds_only_bind_ret.
  apply adds_only_bind; [|intros; repeat adds_step].
  apply adds_only_call. unfold comments_of, has_replies. by rewrite Hi.
Qed.

Lemma adds_only_comments_other ok msg chat ch :
  (forall a b c, ok (AskedComments a b c)) -> adds_only ok (fetch_comments P msg chat ch).
Proof.
  intros H. unfold fetch_comments.
  repeat first [apply adds_only_call; apply H | adds_step].
Qed.

(** The trace of the whole body, from what the comments step and the
    type switch add. *)
Lemma adds_only_body_of (ok : Event -> Prop) crawlid message mlr chat info postcount
    viewcount channelName :
  (forall c, ok (AskedViewCount c)) -> (forall a b c, ok (AskedShareCount a b c)) ->
  (forall c n p, ok (Stored c n p)) ->
  (forall msg, message = Some msg ->
     adds_only ok (fetch_comments P msg chat channelName) /\
     forall l, adds_only ok (extract_content P crawlid channelName l (Content msg))) ->
  adds_only ok
    (ParseMessage_body P crawlid message mlr chat info postcount viewcount channelName).
Proof.
  intros H1 H2 H3 Hm. unfold ParseMessage_body.
  destruct message as [msg|]; [|repeat adds_step].
  destruct (Hm msg eq_refl) as [Hc He].
  cbn [deref]. apply adds_only_bind_ret.
  repeat first [apply He | apply Hc | apply adds_only_reactions
               | apply adds_only_call; first [apply H1 | apply H2 | apply H3] | adds_step].
Qed.

(** ** The store *)

(** Nothing has been stored, and the named result is still empty. *)
Definition idle (s : Frame W) : Prop := post s = emptyPost /\ Forall not_stored (trace s).

Lemma idle_step {A} (m : M W A) s r s1 :
  keeps post m -> adds_only not_stored m -> m s = (r, s1) -> idle s -> idle s1.
Proof.
  intros Hk Ha Hm [Hp Ht]. split.
  - rewrite <- Hp. by eapply keeps_eq.
  - destruct (Ha s) as (evs & He & Hok). rewrite Hm in He. simpl in He.
    rewrite He. by apply Forall_app.
Qed.

(** The store was not called and the record is empty; or it was called
    once, last, with the record returned. *)
Definition stored_last (crawlid channelName : string)
    (rs : outcome (Post * error) * Frame W) : Prop :=
  exists evs, Forall not_stored evs /\
    ((res_post rs = emptyPost /\ trace rs.2 = evs) \/
     (res_post rs <> emptyPost /\
      trace rs.2 = evs ++ [Stored crawlid channelName (res_post rs)])).

Lemma idle_stored_last crawlid channelName r s :
  idle s -> match r with Returned (p, _) => p = emptyPost | Panicked => True end ->
  stored_last crawlid channelName (r, s).
Proof.
  intros [Hp Ht] Hr. exists (trace s). split; [done|]. left. split; [|done].
  unfold res_post; simpl. by destruct r as [[p e]|].
Qed.

Lemma ParseMessage_body_stored crawlid message mlr chat info postcount viewcount
    channelName s0 :
  idle s0 ->
  stored_last crawlid channelName
    (ParseMessage_body P crawlid message mlr chat info postcount viewcount channelName s0).
Proof.
  intros H0. unfold ParseMessage_body.
  set (Q := stored_last crawlid channelName).
  assert (forall {A} (m : M W A) s r s1,
            keeps post m -> adds_only not_stored m -> idle s -> m s = (r, s1) -> idle s1)
    as Hstep by (intros; by eapply idle_step).
  apply (bind_elim Q); [intros s1 H|intros msg s1 H];
    eapply Hstep in H; try done; try (by apply idle_stored_last);
    try apply keeps_deref; try apply adds_only_deref.
  destruct (decide _); [by apply idle_stored_last|].
  apply (bind_elim Q); [intros s2 H2|intros lnk s2 H2];
    eapply Hstep in H2; try done; try (by apply idle_stored_last);
    try apply keeps_deref; try apply adds_only_deref.
  destruct (last (Split (Link lnk) "/")) as [messageNumber|]; [|by apply idle_stored_last].
  apply (bind_elim Q); [intros s3 H3|intros comments s3 H3];
    eapply Hstep in H3; try done; try (by apply idle_stored_last);
    try apply keeps_post_fetch_comments; try (by apply adds_only_comments_other).
  apply (bind_elim Q); [intros s4 H4|intros [[description thumbnailPath] videoPath] s4 H4];
    eapply Hstep in H4; try done; try (by apply idle_stored_last);
    try apply keeps_post_extract_content; try (by apply adds_only_content).
  apply (bind_elim Q); [intros s5 H5|intros reactions s5 H5];
    eapply Hstep in H5; try done; try (by apply idle_stored_last);
    try apply keeps_post_aggregate_reactions; try apply adds_only_reactions.
  apply (bind_elim Q); [intros s6 H6|intros content s6 H6];
    eapply Hstep in H6; try done; try (by apply idle_stored_last);
    try apply keeps_deref; try apply adds_only_deref.
  apply (bind_elim Q); [intros s7 H7|intros vc s7 H7];
    eapply Hstep in H7; try done; try (by apply idle_stored_last);
    try (apply keeps_locals_post, keeps_call_locals); try (by apply adds_only_call).
  apply (bind_elim Q); [intros s8 H8|intros ch s8 H8];
    eapply Hstep in H8; try done; try (by apply idle_stored_last);
    try apply keeps_deref; try apply adds_only_deref.
  apply (bind_elim Q); [intros s9 H9|intros sc s9 H9];
    eapply Hstep in H9; try done; try (by apply idle_stored_last);
    try (apply keeps_locals_post, keeps_call_locals); try (by apply adds_only_call).
  apply (bind_elim Q); [intros s10 H10|intros inf s10 H10];
    eapply Hstep in H10; try done; try (by apply idle_stored_last);
    try apply keeps_deref; try apply adds_only_deref.
  destruct H10 as [Hpost Htrace].
  set (p := mkPost _ _ _ _ _ _ _ _ _ _ _ _ _ _ _ _ _ _ _ _ _ _ _ _ _ _ _ _ _ _).
  assert (p <> emptyPost) as Hne by (intros Hp; by apply (f_equal PlatformName) in Hp).
  clearbody p.
  apply (bind_elim Q); [done|intros [] s11 [= <-]].
  unfold bind, call; simpl.
  destruct (StoreData P (world s10) crawlid channelName p) as [w' [e|]]; simpl;
    exists (trace s10); (split; [done|]); right; by unfold res_post.
Qed.

(** X6. The call of [StoreData] is the last call [ParseMessage] makes, it is
    made at most once, and what it is handed is the record returned,
    whether the store accepts it, fails or panics; when the record
    returned is empty, the store was not called. *)
Theorem ParseMessage_stores_what_it_returns crawlid message mlr chat info postcount
    viewcount channelName w :
  exists evs, Forall not_stored evs /\
    (((ParseMessage P crawlid message mlr chat info postcount viewcount channelName w).1.1
        = emptyPost /\
      trace (ParseMessage P crawlid message mlr chat info postcount viewcount
               channelName w).2 = evs) \/
     ((ParseMessage P crawlid message mlr chat info postcount viewcount channelName w).1.1
        <> emptyPost /\
      trace (ParseMessage P crawlid message mlr chat info postcount viewcount
               channelName w).2 =
        evs ++ [Stored crawlid channelName
                  (ParseMessage P crawlid message mlr chat info postcount viewcount
                     channelName w).1.1])).
Proof.
  rewrite ParseMessage_res_post, ParseMessage_frame.
  apply ParseMessage_body_stored. split; [done|]. simpl. constructor.
Qed.

(** ** The fields of the record *)

(** The reaction entries of a message: none when it has no interaction
    info or no reactions. *)
Definition reaction_entries (msg : Message) : list (option MessageReaction) :=
  match InteractionInfo msg with
  | Some (mkMessageInteractionInfo _ (Some (mkMessageReactions entries))) => entries
  | _ => []
  end.

Lemma aggregate_reactions_returned msg (s s' : Frame W) reactions :
  aggregate_reactions msg s = (Returned reactions, s') ->
  count_reactions (reaction_entries msg) ∅ = Returned reactions.
Proof.
  unfold aggregate_reactions, reaction_entries.
  destruct (InteractionInfo msg) as [[ri [[[|entry entries]]|]]|];
    try (by intros [= <- _]).
  unfold bind, defer_reactions_recover. cbv beta iota.
  destruct (count_reactions (entry :: entries) ∅) as [r|]; [|done].
  by intros [= <- _].
Qed.

Lemma deref_returned {A} (p : option A) (s s' : Frame W) a :
  deref p s = (Returned a, s') -> p = Some a.
Proof. destruct p; simpl; [by intros [= <- _]|done]. Qed.

(** What the fields of a record say of each other and of the message. *)
Definition record_of (msg : Message) (lnk : MessageLink) (p : Post) : Prop :=
  PostLink p = Link lnk /\ URL p = Link lnk /\
  ChannelID p = ChatId msg /\ C_ChannelID (Channel p) = ChatId msg /\
  PublishedAt p = Date msg /\ CreatedAt p = EditDate msg /\
  LikeCount p = 0 /\ LikesCount p = 0 /\
  ViewCount p = Engagement p /\ ViewsCount p = Engagement p /\
  SharesCount p = ShareCount p /\
  CommentCount p = Z.of_nat (length (Comments p)) /\ CommentsCount p = CommentCount p /\
  C_ChannelName (Channel p) = ChannelName p /\
  (exists content, Content msg = Some content /\ PostType p = [MessageContentType content]) /\
  count_reactions (reaction_entries msg) ∅ = Returned (PostReactions p).

Lemma ParseMessage_body_fields crawlid msg lnk chat info postcount viewcount channelName s0 :
  post s0 = emptyPost ->
  (fun rs => res_post rs = emptyPost \/ record_of msg lnk (res_post rs))
    (ParseMessage_body P crawlid (Some msg) (Some lnk) chat info postcount viewcount
       channelName s0).
Proof.
  intros H0. unfold ParseMessage_body.
  set (Q := fun rs : outcome (Post * error) * Frame W =>
              res_post rs = emptyPost \/ record_of msg lnk (res_post rs)).
  assert (forall {A} (m : M W A) s r s1,
            keeps post m -> post s = emptyPost -> m s = (r, s1) -> post s1 = emptyPost)
    as Hstep.
  { intros A m s r s1 Hk Hs Hm. rewrite <- Hs. by eapply keeps_eq. }
  assert (forall s, post s = emptyPost -> Q (Panicked, s)) as Hpanic by (intros; by left).
  apply (bind_elim Q); [done|intros ? ? [= <- <-]].
  destruct (decide _); [by left|].
  apply (bind_elim Q); [done|intros ? ? [= <- <-]].
  destruct (last (Split (Link lnk) "/")) as [messageNumber|]; [|by left].
  apply (bind_elim Q); [intros s1 H1|intros comments s1 H1];
    eapply Hstep in H1; try done; try (by apply Hpanic);
    try apply keeps_post_fetch_comments.
  apply (bind_elim Q); [intros s2 H2|intros [[description thumbnailPath] videoPath] s2 H2];
    eapply Hstep in H2; try done; try (by apply Hpanic);
    try apply keeps_post_extract_content.
  apply (bind_elim Q); [intros s3 H3|intros reactions s3 H3];
    [eapply Hstep in H3; try done; try (by apply Hpanic);
     apply keeps_post_aggregate_reactions|].
  pose proof (aggregate_reactions_returned _ _ _ _ H3) as Hreact.
  eapply Hstep in H3; try done; try apply keeps_post_aggregate_reactions.
  apply (bind_elim Q); [intros s4 H4|intros content s4 H4];
    [eapply Hstep in H4; try done; try (by apply Hpanic); apply keeps_deref|].
  pose proof (deref_returned _ _ _ _ H4) as Hcontent.
  eapply Hstep in H4; try done; try apply keeps_deref.
  apply (bind_elim Q); [intros s5 H5|intros vc s5 H5];
    eapply Hstep in H5; try done; try (by apply Hpanic);
    try (apply keeps_locals_post, keeps_call_locals).
  apply (bind_elim Q); [intros s6 H6|intros ch s6 H6];
    eapply Hstep in H6; try done; try (by apply Hpanic); try apply keeps_deref.
  apply (bind_elim Q); [intros s7 H7|intros sc s7 H7];
    eapply Hstep in H7; try done; try (by apply Hpanic);
    try (apply keeps_locals_post, keeps_call_locals).
  apply (bind_elim Q); [intros s8 H8|intros inf s8 H8];
    eapply Hstep in H8; try done; try (by apply Hpanic); try apply keeps_deref.
  apply (bind_elim Q); [done|intros [] s9 [= <-]].
  unfold bind, call; simpl.
  destruct (StoreData P (world s8) crawlid channelName _) as [w' [e|]]; simpl;
    right; unfold res_post, record_of; simpl; eauto 20.
Qed.

(** X7. In every record that [ParseMessage] returns, other than the empty
    one: the link, the channel id and the two dates are those of the
    message; both like counts are 0, whatever the reactions; the view
    count is given three times and the share count and the comment count
    twice, the comment count being the number of comments in the record;
    the post type is the type name of the content; and the reactions are
    what the loop over the message's reaction entries leaves. *)
Theorem ParseMessage_record_fields crawlid msg lnk chat info postcount viewcount
    channelName w :
  (ParseMessage P crawlid (Some msg) (Some lnk) chat info postcount viewcount
     channelName w).1.1 = emptyPost \/
  record_of msg lnk
    (ParseMessage P crawlid (Some msg) (Some lnk) chat info postcount viewcount
       channelName w).1.1.
Proof.
  rewrite ParseMessage_res_post.
  by apply (ParseMessage_body_fields crawlid msg lnk chat info postcount viewcount
              channelName (start w)).
Qed.

(** ** Files *)

(** X8. For a message whose content is text, an animated emoji, a poll, a
    giveaway, paid media, of a kind the type switch does not know, or
    nil, [ParseMessage] looks up, downloads and uploads no file. *)
Theorem ParseMessage_no_file crawlid msg mlr chat info postcount viewcount channelName w :
  carries_no_file (Content msg) ->
  Forall no_file_event
    (trace (ParseMessage P crawlid (Some msg) mlr chat info postcount viewcount
              channelName w).2).
Proof.
  intros Hc. rewrite ParseMessage_frame.
  destruct (adds_only_body_of no_file_event crawlid (Some msg) mlr chat info postcount
              viewcount channelName) with (s := start w) as (evs & -> & Hok); try done.
  intros ? [= <-]. split.
  - by apply adds_only_comments_other.
  - intros l. by apply adds_only_no_file_content.
Qed.

(** X9. [fetchfilefromtelegram] makes one call of the client, the lookup of
    the id it was given, or two, the second being the download of the
    file that the lookup returned with a nil error; it leaves the named
    results and the deferred recovers of its caller as they were. *)
Theorem fetchfilefromtelegram_calls downloadid s :
  (trace (fetchfilefromtelegram P downloadid s).2 = trace s ++ [AskedRemoteFile downloadid] \/
   exists w1 f,
     GetRemoteFile P (world s) downloadid = (w1, Returned (Some f, None)) /\
     trace (fetchfilefromtelegram P downloadid s).2 =
       trace s ++ [AskedRemoteFile downloadid; AskedDownload (File_Id f)]) /\
  locals (fetchfilefromtelegram P downloadid s).2 = locals s.
Proof.
  unfold fetchfilefromtelegram, fetchfilefromtelegram_body, bind, call, locals. simpl.
  destruct (GetRemoteFile P (world s) downloadid) as [w1 [[f [e|]]|]] eqn:HG; simpl;
    try (split; [by left|done]).
  destruct f as [f|]; simpl; [|split; [by left|done]].
  destruct (DownloadFile P w1 (File_Id f)) as [w2 [[d [e|]]|]] eqn:HD; simpl;
    try (split; [right; exists w1, f; by rewrite <- app_assoc|done]).
  destruct d as [d|]; simpl; [|split; [right; exists w1, f; by rewrite <- app_assoc|done]].
  destruct (File_Local d) as [loc|]; simpl;
    [|split; [right; exists w1, f; by rewrite <- app_assoc|done]].
  destruct (decide _); simpl; (split; [right; exists w1, f; by rewrite <- app_assoc|done]).
Qed.

(** ** Comments *)

(** X10. [GetMessageComments] is called only for a message that has reply info
    with a positive reply count, and then for this message, in this chat,
    under this channel name. *)
Theorem ParseMessage_asks_comments crawlid msg mlr chat info postcount viewcount
    channelName w :
  Forall (comments_of msg chat channelName)
    (trace (ParseMessage P crawlid (Some msg) mlr chat info postcount viewcount
              channelName w).2).
Proof.
  rewrite ParseMessage_frame.
  destruct (adds_only_body_of (comments_of msg chat channelName) crawlid (Some msg) mlr
              chat info postcount viewcount channelName) with (s := start w)
    as (evs & -> & Hok); try done.
  intros ? [= <-]. split.
  - apply adds_only_comments.
  - intros l. by apply adds_only_content.
Qed.

(** ** A video without thumbnail *)

Lemma extract_content_no_thumbnail crawlid channelName link content :
  no_thumbnail content ->
  extract_content P crawlid channelName link (Some (ContentVideo content)) =
  (fetch_and_upload P crawlid channelName link "" ;;;
   fetch_and_upload P crawlid channelName link "" ;;; ret ("", "", "")).
Proof.
  unfold extract_content, processMessageSafely, no_thumbnail.
  destruct content as [m|]; [|done].
  destruct (MessageVideo_Video m) as [v|]; [|done]. by intros ->.
Qed.

(** X11. For a video message whose thumbnail (or video, or content) is nil,
    [processMessageSafely] returns its error, which [ParseMessage] drops:
    the only remote file id asked for is the empty one, so the video
    itself is never fetched, and a record that is not empty has an empty
    description, thumbnail field and media field, whatever the caption
    and the video's remote id are. *)
Theorem ParseMessage_video_without_thumbnail crawlid msg lnk chat info postcount
    viewcount channelName w content :
  Content msg = Some (ContentVideo content) -> no_thumbnail content ->
  Forall (asks_only_for "")
    (trace (ParseMessage P crawlid (Some msg) (Some lnk) chat info postcount viewcount
              channelName w).2) /\
  ((ParseMessage P crawlid (Some msg) (Some lnk) chat info postcount viewcount
      channelName w).1.1 = emptyPost \/
   (fun p => (Description p, ThumbURL p, MediaURL p))
     (ParseMessage P crawlid (Some msg) (Some lnk) chat info postcount viewcount
        channelName w).1.1 = ("", "", "")).
Proof.
  intros Hc Hno. split.
  - rewrite ParseMessage_frame.
    destruct (adds_only_body P "" crawlid msg (Some lnk) chat info postcount viewcount
                channelName) with (s := start w) as (evs & -> & Hok); [|done].
    intros l. rewrite Hc, (extract_content_no_thumbnail _ _ _ _ Hno).
    repeat first [apply adds_only_fetch_and_upload | apply adds_only_bind; [|intros ?]
                 | apply adds_only_ret].
  - rewrite ParseMessage_res_post.
    destruct (ParseMessage_body_post P crawlid msg lnk chat info postcount viewcount
                channelName (start w) eq_refl)
      as [Hempty|(mn & comments & s1 & d & t & v & s2 & _ & _ & He & _ & Hd & Ht & Hv & _)];
      [by left|right].
    rewrite Hc, (extract_content_no_thumbnail _ _ _ _ Hno) in He.
    unfold bind in He.
    destruct (fetch_and_upload P crawlid channelName (Link lnk) "" s1) as [[[]|] s1']; [|done].
    destruct (fetch_and_upload P crawlid channelName (Link lnk) "" s1') as [[[]|] s1'']; [|done].
    injection He as <- <- <- <-. by rewrite Hd, Ht, Hv.
Qed.

(** ** The comments of the record *)



(** ** Errors that do not matter *)

(** The platform [P] with other errors returned by the blob sink and by
    the store: [upload] and [store] give the error returned in place of
    the one [P] returns. *)
Definition with_errors (upload store : error -> error) : Platform W :=
  mkPlatform W (local_offset P) (GetMessageComments P) (GetRemoteFile P) (DownloadFile P)
    (fun w crawlid channelName link path =>
       let '(w', r) := UploadBlobFileAndDelete P w crawlid channelName link path in
       (w', match r with Returned e => Returned (upload e) | Panicked => Panicked end))
    (GetViewCount P) (GetMessageShareCount P)
    (fun w crawlid channelName p =>
       let '(w', r) := StoreData P w crawlid channelName p in
       (w', match r with Returned e => Returned (store e) | Panicked => Panicked end)).

(** Two frames that agree on all but the named result [err]. *)
Definition same_but_err (s s' : Frame W) : Prop :=
  world s = world s' /\ trace s = trace s' /\ post s = post s' /\
  comments_recover s = comments_recover s' /\ reactions_recover s = reactions_recover s'.

(** [m'] does what [m] does, up to [err]. *)
Definition alike {A} (m m' : M W A) : Prop :=
  forall s s', same_but_err s s' ->
    (m s).1 = (m' s').1 /\ same_but_err (m s).2 (m' s').2.

Lemma alike_ret {A} (a : A) : alike (@ret W A a) (ret a).
Proof. by intros s s' H. Qed.
Lemma alike_panic {A} : alike (@panic W A) panic.
Proof. by intros s s' H. Qed.
Lemma alike_deref {A} (p : option A) : alike (@deref W A p) (deref p).
Proof. destruct p; [apply alike_ret | apply alike_panic]. Qed.
Lemma alike_set_err e e' : alike (@set_err W e) (set_err e').
Proof. by intros s s' H. Qed.
Lemma alike_set_post p : alike (@set_post W p) (set_post p).
Proof. intros s s' (? & ? & ? & ? & ?). by repeat split. Qed.
Lemma alike_defer_comments : alike (@defer_comments_recover W) defer_comments_recover.
Proof. intros s s' (? & ? & ? & ? & ?). by repeat split. Qed.
Lemma alike_defer_reactions : alike (@defer_reactions_recover W) defer_reactions_recover.
Proof. intros s s' (? & ? & ? & ? & ?). by repeat split. Qed.

Lemma alike_call {A} ev (f : W -> W * outcome A) : alike (call ev f) (call ev f).
Proof.
  intros s s' (Hw & Ht & Hp & Hc & Hr). unfold call. rewrite Hw.
  destruct (f (world s')) as [w r]. simpl. repeat split; simpl; congruence.
Qed.

Lemma alike_bind {A B} (m m' : M W A) (k k' : A -> M W B) :
  alike m m' -> (forall a, alike (k a) (k' a)) -> alike (bind m k) (bind m' k').
Proof.
  intros Hm Hk s s' Hs. unfold bind. destruct (Hm s s' Hs) as [Hr Hs1].
  destruct (m s) as [[a|] s1], (m' s') as [[a'|] s1']; simpl in *; try done.
  injection Hr as <-. by apply Hk.
Qed.

Lemma alike_fetchfilefromtelegram upload store id :
  alike (fetchfilefromtelegram P id) (fetchfilefromtelegram (with_errors upload store) id).
Proof.
  assert (alike (fetchfilefromtelegram_body P id)
            (fetchfilefromtelegram_body (with_errors upload store) id)) as Hb.
  { unfold fetchfilefromtelegram_body. simpl.
    repeat first [ apply alike_ret | apply alike_deref | apply alike_call
                 | apply alike_bind; [|intros ?]
                 | match goal with
                   | |- alike (match ?x with _ => _ end) _ => destruct x
                   | |- alike (if ?x then _ else _) _ => destruct x
                   end ]. }
  intros s s' Hs. unfold fetchfilefromtelegram. destruct (Hb s s' Hs) as [Hr Hs1].
  destruct (fetchfilefromtelegram_body P id s) as [[a|] s1],
           (fetchfilefromtelegram_body (with_errors upload store) id s') as [[a'|] s1'];
    simpl in *; done.
Qed.

Lemma alike_upload upload c ch l path :
  alike (e <- call (Uploaded c ch l path)
               (fun w => UploadBlobFileAndDelete P w c ch l path) ;; set_err e)
        (e <- call (Uploaded c ch l path)
               (fun w => let '(w', r) := UploadBlobFileAndDelete P w c ch l path in
                         (w', match r with
                              | Returned e => Returned (upload e)
                              | Panicked => Panicked
                              end)) ;; set_err e).
Proof.
  intros s s' (Hw & Ht & Hp & Hc & Hr). unfold bind, call. rewrite Hw.
  destruct (UploadBlobFileAndDelete P (world s') c ch l path) as [w [e|]]; simpl;
    repeat split; simpl; congruence.
Qed.

Lemma alike_fetch_and_upload upload store c ch l id :
  alike (fetch_and_upload P c ch l id) (fetch_and_upload (with_errors upload store) c ch l id).
Proof.
  unfold fetch_and_upload. apply alike_bind; [apply alike_fetchfilefromtelegram|].
  intros path. apply alike_upload.
Qed.

Ltac alike_step upload store :=
  first
    [ apply alike_ret | apply alike_panic | apply alike_deref | apply alike_call
    | apply alike_set_err | apply alike_set_post
    | apply alike_defer_comments | apply alike_defer_reactions
    | apply (alike_fetch_and_upload upload store)
    | apply alike_bind; [|intros ?]
    | match goal with
      | |- alike (match ?x with _ => _ end) _ => destruct x
      | |- alike (if ?x then _ else _) _ => destruct x
      | |- alike (let '(_, _) := ?x in _) _ => destruct x
      end ].

Lemma alike_extract_content upload store c ch l content :
  alike (extract_content P c ch l content)
        (extract_content (with_errors upload store) c ch l content).
Proof.
  unfold extract_content, processMessageSafely, thumbnail_remote_id, file_remote_id.
  repeat alike_step upload store.
Qed.

Lemma alike_store store c ch p :
  alike (e <- call (Stored c ch p) (fun w => StoreData P w c ch p) ;;
         set_err e ;;; ret (p, @None string))
        (e <- call (Stored c ch p)
               (fun w => let '(w', r) := StoreData P w c ch p in
                         (w', match r with
                              | Returned e => Returned (store e)
                              | Panicked => Panicked
                              end)) ;;
         set_err e ;;; ret (p, None)).
Proof.
  intros s s' (Hw & Ht & Hp & Hc & Hr). unfold bind, call. rewrite Hw.
  destruct (StoreData P (world s') c ch p) as [w [e|]]; simpl;
    repeat split; simpl; congruence.
Qed.

Lemma alike_body upload store crawlid message mlr chat info postcount viewcount channelName :
  alike (ParseMessage_body P crawlid message mlr chat info postcount viewcount channelName)
        (ParseMessage_body (with_errors upload store) crawlid message mlr chat info
           postcount viewcount channelName).
Proof.
  unfold ParseMessage_body, fetch_comments, aggregate_reactions. simpl.
  repeat first [ apply alike_store | apply (alike_extract_content upload store)
               | alike_step upload store ].
Qed.

(** X13. Whatever errors the blob sink and the store return in place
    of theirs, as long as they panic when they did and leave the world as
    they did, [ParseMessage] returns the same record, after the same
    calls, in the same world; and when its body returns, the same
    error. *)
Theorem ParseMessage_ignores_sink_errors upload store crawlid message mlr chat info
    postcount viewcount channelName w :
  (ParseMessage (with_errors upload store) crawlid message mlr chat info postcount
     viewcount channelName w).1.1 =
  (ParseMessage P crawlid message mlr chat info postcount viewcount channelName w).1.1 /\
  same_but_err
    (ParseMessage (with_errors upload store) crawlid message mlr chat info postcount
       viewcount channelName w).2
    (ParseMessage P crawlid message mlr chat info postcount viewcount channelName w).2 /\
  (forall r s,
     ParseMessage_body P crawlid message mlr chat info postcount viewcount channelName
       (start w) = (Returned r, s) ->
     (ParseMessage (with_errors upload store) crawlid message mlr chat info postcount
        viewcount channelName w).1.2 =
     (ParseMessage P crawlid message mlr chat info postcount viewcount channelName w).1.2).
Proof.
  destruct (alike_body upload store crawlid message mlr chat info postcount viewcount
              channelName (start w) (start w)) as [Hr (Hw & Ht & Hp & Hc & Hre)];
    [by repeat split|].
  split; [|split].
  - rewrite !ParseMessage_res_post. unfold res_post.
    destruct (ParseMessage_body P _ _ _ _ _ _ _ _ _) as [[[p e]|] s],
             (ParseMessage_body (with_errors upload store) _ _ _ _ _ _ _ _ _)
               as [[[p' e']|] s']; simpl in *; try done.
    by injection Hr as <- <-.
  - rewrite !ParseMessage_frame. by repeat split.
  - intros r s Hb. unfold ParseMessage. fold (start w). rewrite Hb in Hr |- *.
    destruct (ParseMessage_body (with_errors upload store) _ _ _ _ _ _ _ _ _)
      as [[[p' e']|] s']; simpl in *; [|done].
    destruct r as [p e]. by injection Hr as <- <-.
Qed.

(** ** Nil arguments *)

(** X14. A nil message makes [ParseMessage] return the empty record and the
    error "failed to parse message"; so does a nil message link, unless
    the message is from before 2018, which gives the empty record and a
    nil error. Neither calls any collaborator. *)
Theorem ParseMessage_nil_arguments crawlid msg mlr chat info postcount viewcount
    channelName w :
  ParseMessage P crawlid None mlr chat info postcount viewcount channelName w =
    (emptyPost, Some "failed to parse message", start w) /\
  ParseMessage P crawlid (Some msg) None chat info postcount viewcount channelName w =
    (emptyPost,
     if decide (Year (local_offset P (Date msg)) (Date msg) < 2018) then None
     else Some "failed to parse message",
     start w).
Proof.
  split; [done|].
  unfold ParseMessage, ParseMessage_body, bind. simpl.
  by destruct (decide _).
Qed.

(** ** The cutoff as an instant *)

(** The year of a day is before 2018 exactly when the day is before day
    17532 from 1970-01-01, which is 2018-01-01. *)
Lemma year_of_days_2018 d : year_of_days d < 2018 <-> d < 17532.
Proof.
  unfold year_of_days.
  set (z := d + 719468).
  set (era := z / 146097).
  set (doe := z - era * 146097).
  set (yoe := (doe - doe / 1460 + doe / 36524 - doe / 146096) / 365).
  set (doy := doe - (365 * yoe + yoe / 4 - yoe / 100)).
  set (mp := (5 * doy + 2) / 153).
  destruct (Z.ltb_spec mp 10); unfold mp, doy, yoe, doe, era, z in *;
    Z.div_mod_to_equations; lia.
Qed.

(** What a [return] of the body names: the empty record for a message
    from before 2018, and otherwise a record with the message's date. *)
Definition returned_record (msg : Message) (rs : outcome (Post * error) * Frame W) : Prop :=
  match rs.1 with
  | Returned (p, _) =>
      (Year (local_offset P (Date msg)) (Date msg) < 2018 /\ p = emptyPost) \/
      (~ Year (local_offset P (Date msg)) (Date msg) < 2018 /\
       PlatformName p = "Telegram" /\ PublishedAt p = Date msg)
  | Panicked => True
  end.

Lemma ParseMessage_body_returned crawlid msg mlr chat info postcount viewcount
    channelName s0 :
  returned_record msg
    (ParseMessage_body P crawlid (Some msg) mlr chat info postcount viewcount
       channelName s0).
Proof.
  unfold ParseMessage_body. set (Q := returned_record msg).
  apply (bind_elim Q); [done|intros ? ? [= <- <-]].
  destruct (decide _) as [Hy|Hy]; [by left|].
  apply (bind_elim Q); [done|intros lnk s1 _].
  destruct (Split_last (Link lnk) "/") as [messageNumber ->].
  apply (bind_elim Q); [done|intros comments s2 _].
  apply (bind_elim Q); [done|intros [[description thumbnailPath] videoPath] s3 _].
  apply (bind_elim Q); [done|intros reactions s4 _].
  apply (bind_elim Q); [done|intros content s5 _].
  apply (bind_elim Q); [done|intros vc s6 _].
  apply (bind_elim Q); [done|intros ch s7 _].
  apply (bind_elim Q); [done|intros sc s8 _].
  apply (bind_elim Q); [done|intros inf s9 _].
  apply (bind_elim Q); [done|intros [] s10 _].
  apply (bind_elim Q); [done|intros e s11 _].
  apply (bind_elim Q); [done|intros [] s12 _].
  right. done.
Qed.

(** X15. The cutoff is an instant of the local zone: a message is
    taken for one from before 2018 exactly when its date, moved by the
    offset of the local zone at that date, is before 1514764800 seconds,
    which is 2018-01-01T00:00:00. A message before that instant gives
    the empty record and a nil error, whatever else it holds; the body
    returns the empty record for those messages and for no other; for a
    message at or after the instant every return of the body gives, with
    a nil error, a record that is not empty, that carries the date of the
    message and that was handed to the store by the last call; so such a
    message comes back with the empty record only through a recovered
    panic. *)
Theorem ParseMessage_cutoff_instant crawlid msg mlr chat info postcount viewcount
    channelName w :
  (Year (local_offset P (Date msg)) (Date msg) < 2018 <->
   Date msg + local_offset P (Date msg) < 1514764800) /\
  (Date msg + local_offset P (Date msg) < 1514764800 ->
   ParseMessage P crawlid (Some msg) mlr chat info postcount viewcount channelName w =
     (emptyPost, None, start w)) /\
  ((exists e s,
      ParseMessage_body P crawlid (Some msg) mlr chat info postcount viewcount channelName
        (start w) = (Returned (emptyPost, e), s)) <->
   Date msg + local_offset P (Date msg) < 1514764800) /\
  (1514764800 <= Date msg + local_offset P (Date msg) ->
   forall p e s,
     ParseMessage_body P crawlid (Some msg) mlr chat info postcount viewcount channelName
       (start w) = (Returned (p, e), s) ->
     ParseMessage P crawlid (Some msg) mlr chat info postcount viewcount channelName w =
       (p, None, s) /\
     p <> emptyPost /\ PublishedAt p = Date msg /\
     last (trace s) = Some (Stored crawlid channelName p)) /\
  (1514764800 <= Date msg + local_offset P (Date msg) ->
   (ParseMessage P crawlid (Some msg) mlr chat info postcount viewcount channelName w).1.1
     = emptyPost ->
   exists s,
     ParseMessage_body P crawlid (Some msg) mlr chat info postcount viewcount channelName
       (start w) = (Panicked, s)).
Proof.
  assert (Year (local_offset P (Date msg)) (Date msg) < 2018 <->
          Date msg + local_offset P (Date msg) < 1514764800) as Hiff.
  { unfold Year. rewrite year_of_days_2018. Z.div_mod_to_equations. lia. }
  assert (Date msg + local_offset P (Date msg) < 1514764800 ->
          ParseMessage_body P crawlid (Some msg) mlr chat info postcount viewcount
            channelName (start w) = (Returned (emptyPost, None), start w)) as Hbefore.
  { intros Hlt%Hiff. unfold ParseMessage_body, bind. simpl.
    by destruct (decide (Year (local_offset P (Date msg)) (Date msg) < 2018)). }
  assert (1514764800 <= Date msg + local_offset P (Date msg) ->
          forall p e s,
            ParseMessage_body P crawlid (Some msg) mlr chat info postcount viewcount
              channelName (start w) = (Returned (p, e), s) ->
            e = None /\ p <> emptyPost /\ PublishedAt p = Date msg /\
            last (trace s) = Some (Stored crawlid channelName p)) as Hafter.
  { intros Hge p e s Hb.
    pose proof (ParseMessage_body_returned crawlid msg mlr chat info postcount viewcount
                  channelName (start w)) as Hr.
    pose proof (ParseMessage_body_nil_error P crawlid (Some msg) mlr chat info postcount
                  viewcount channelName (start w)) as Hnil.
    pose proof (ParseMessage_body_stored crawlid (Some msg) mlr chat info postcount
                  viewcount channelName (start w)) as Hst.
    unfold returned_record, nil_error, stored_last, res_post in *.
    rewrite Hb in Hr, Hnil, Hst. simpl in *.
    destruct Hr as [[Hy _]|(_ & Hname & Hdate)]; [apply Hiff in Hy; lia|].
    assert (p <> emptyPost) as Hne by (intros ->; done).
    destruct Hst as (evs & _ & [[Hp _]|[_ ->]]); [by split; constructor|done|].
    by rewrite last_snoc. }
  split; [exact Hiff|]. split; [|split; [|split]].
  - intros Hlt. unfold ParseMessage. fold (start w). by rewrite (Hbefore Hlt).
  - split; [|intros Hlt; eauto].
    intros (e & s & Hb). apply Z.nle_gt. intros Hge.
    by destruct (Hafter Hge _ _ _ Hb) as (_ & Hne & _).
  - intros Hge p e s Hb.
    destruct (Hafter Hge _ _ _ Hb) as (-> & Hne & Hdate & Hlast).
    unfold ParseMessage. fold (start w). by rewrite Hb.
  - intros Hge. rewrite ParseMessage_res_post. unfold res_post.
    destruct (ParseMessage_body P crawlid (Some msg) mlr chat info postcount viewcount
                channelName (start w)) as [[[p e]|] s] eqn:Hb; simpl; [|eauto].
    intros ->. by destruct (Hafter Hge _ _ _ eq_refl) as (_ & Hne & _).
Qed.

End Facts.

(** ** Concrete messages *)

(** X8 at the text message of the specification. *)
Lemma ParseMessage_no_file_text :
  carries_no_file (Some (text "hello")) /\
  Forall no_file_event
    (trace (parse "/tmp/x" None 1600000000 None (text "hello") "https://t.me/chan/42").2).
Proof.
  split; [exact I|].
  exact (ParseMessage_no_file (steady "/tmp/x" None) "crawl"
           (mkMessage 42 7 1600000000 1600000000 None (Some (text "hello")))
           (Some (mkMessageLink "https://t.me/chan/42")) (Some (mkChat 7 "Channel"))
           (Some (mkSupergroupFullInfo 100)) 1 2 "chan" tt I).
Defined.

(** A video message with caption "clip" whose video has remote id "V"
    and no thumbnail. *)
Definition video_no_thumbnail : MessageVideo :=
  mkMessageVideo (Some (mkVideo None (remote 2 "V"))) (Some (mkFormattedText "clip")).

(** X11 at that message. *)
Lemma ParseMessage_video_without_thumbnail_clip :
  no_thumbnail (Some video_no_thumbnail) /\
  Forall (asks_only_for "")
    (trace (parse "/tmp/x" None 1600000000 None (ContentVideo (Some video_no_thumbnail))
              "https://t.me/chan/42").2).
Proof.
  split; [reflexivity|].
  exact (proj1 (ParseMessage_video_without_thumbnail (steady "/tmp/x" None) "crawl"
                  (mkMessage 42 7 1600000000 1600000000 None
                     (Some (ContentVideo (Some video_no_thumbnail))))
                  (mkMessageLink "https://t.me/chan/42") (Some (mkChat 7 "Channel"))
                  (Some (mkSupergroupFullInfo 100)) 1 2 "chan" tt
                  (Some video_no_thumbnail) eq_refl eq_refl)).
Defined.

(** The record of that message is stored with no description and no
    media, after two lookups of the empty remote id. *)
Example ParseMessage_video_no_thumbnail_record :
  (fun r : Post * error * Frame unit =>
     (asked_files (trace r.2), Description r.1.1, ThumbURL r.1.1, MediaURL r.1.1, r.1.2))
    (parse "/tmp/x" None 1600000000 None (ContentVideo (Some video_no_thumbnail))
       "https://t.me/chan/42") =
  ([""; ""], "", "", "", None).
Proof. vm_compute. reflexivity. Qed.

(** The last second of 2017 and the first of 2018, in UTC; and, three
    hours east of UTC, the instant 2017-12-31T21:00:00Z, which is in
    2018 there. *)
Example Year_2018 :
  Year 0 1514764799 = 2017 /\ Year 0 1514764800 = 2018 /\ Year 10800 1514754000 = 2018.
Proof. by vm_compute. Qed.

End RecordFacts.

(* ================================================================== *)
(** * Properties of the standalone mode *)
(* ================================================================== *)

Module StandaloneFacts.
Import Extractor Standalone.
Set Warnings "-clear-no-such-hyp".

(** ** Trimming *)

Section Trim.
Variable sp1 : ascii -> bool.
Variable sp2 : ascii -> ascii -> bool.
Variable sp3 : ascii -> ascii -> ascii -> bool.

(** Whether a white-space rune starts [l]. *)
Definition starts_with_space (l : list ascii) : bool :=
  match l with
  | c1 :: l1 =>
      sp1 c1 ||
      match l1 with
      | c2 :: l2 =>
          sp2 c1 c2 ||
          match l2 with
          | c3 :: _ => sp3 c1 c2 c3
          | [] => false
          end
      | [] => false
      end
  | [] => false
  end.

Lemma trim_spec_aux n : forall l, (length l <= n)%nat ->
  trim sp1 sp2 sp3 l `suffix_of` l /\
  starts_with_space (trim sp1 sp2 sp3 l) = false.
Proof.
  induction n as [|n IH]; intros l Hn.
  - destruct l; [|simpl in Hn; lia]. simpl. done.
  - destruct l as [|c1 l1]; [done|]. simpl in Hn.
    cbn [trim]. destruct (sp1 c1) eqn:H1.
    { destruct (IH l1) as [Hs Hf]; [lia|]. split; [by apply suffix_cons_r|done]. }
    destruct l1 as [|c2 l2]; [by simpl; rewrite H1|]. simpl in Hn.
    destruct (sp2 c1 c2) eqn:H2.
    { destruct (IH l2) as [Hs Hf]; [lia|]. split; [by do 2 apply suffix_cons_r|done]. }
    destruct l2 as [|c3 l3]; [by simpl; rewrite H1, H2|]. simpl in Hn.
    destruct (sp3 c1 c2 c3) eqn:H3.
    { destruct (IH l3) as [Hs Hf]; [lia|]. split; [by do 3 apply suffix_cons_r|done]. }
    by simpl; rewrite H1, H2, H3.
Qed.

Lemma trim_suffix l : trim sp1 sp2 sp3 l `suffix_of` l.
Proof. by apply (trim_spec_aux (length l)). Qed.

Lemma trim_head l : starts_with_space (trim sp1 sp2 sp3 l) = false.
Proof. by apply (trim_spec_aux (length l)). Qed.

Lemma trim_fixed l : starts_with_space l = false -> trim sp1 sp2 sp3 l = l.
Proof.
  destruct l as [|c1 [|c2 [|c3 l3]]]; simpl; try done.
  - by intros ->%orb_false_elim%proj1.
  - intros [-> [-> _]%orb_false_elim]%orb_false_elim. done.
  - intros [-> [-> ->]%orb_false_elim]%orb_false_elim. done.
Qed.

Lemma trim_idemp l : trim sp1 sp2 sp3 (trim sp1 sp2 sp3 l) = trim sp1 sp2 sp3 l.
Proof. apply trim_fixed, trim_head. Qed.

Lemma starts_with_space_prefix r t :
  r `prefix_of` t -> starts_with_space t = false -> starts_with_space r = false.
Proof.
  intros [k ->].
  destruct r as [|c1 [|c2 [|c3 r3]]]; simpl; try done.
  - by intros [-> _]%orb_false_elim.
  - intros [-> H]%orb_false_elim. simpl.
    destruct k; simpl in H; [done|]. by apply orb_false_elim in H as [-> _].
Qed.

End Trim.

Lemma TrimLeft_suffix l : TrimLeft l `suffix_of` l.
Proof. apply trim_suffix. Qed.

Lemma TrimRight_prefix l : TrimRight l `prefix_of` l.
Proof.
  unfold TrimRight. rewrite <- (reverse_involutive l) at 2.
  apply suffix_prefix_reverse, trim_suffix.
Qed.

(** The bytes of a trimmed string start and end with no white space, so
    trimming them again changes nothing. *)
Lemma Trim_fixed l :
  TrimLeft (TrimRight (TrimLeft l)) = TrimRight (TrimLeft l) /\
  TrimRight (TrimRight (TrimLeft l)) = TrimRight (TrimLeft l).
Proof.
  split.
  - apply trim_fixed. eapply starts_with_space_prefix; [apply TrimRight_prefix|].
    apply trim_head.
  - unfold TrimRight at 1 2. rewrite reverse_involutive. by rewrite trim_idemp.
Qed.

Lemma TrimSpace_idemp s : TrimSpace (TrimSpace s) = TrimSpace s.
Proof.
  unfold TrimSpace. rewrite String.list_ascii_of_string_of_list_ascii.
  destruct (Trim_fixed (String.list_ascii_of_string s)) as [-> ->]. done.
Qed.

Lemma TrimSpace_bytes s c :
  c ∈ String.list_ascii_of_string (TrimSpace s) -> c ∈ String.list_ascii_of_string s.
Proof.
  unfold TrimSpace. rewrite String.list_ascii_of_string_of_list_ascii. intros H.
  destruct (TrimRight_prefix (TrimLeft (String.list_ascii_of_string s))) as [k' Hk'].
  destruct (TrimLeft_suffix (String.list_ascii_of_string s)) as [k Hk].
  rewrite Hk, Hk'. apply elem_of_app. right. apply elem_of_app. by left.
Qed.

(** ** Splitting and joining *)

(** [strings.Join(parts, sep)] for a separator of one byte. *)
Fixpoint Join (parts : list string) (sep : ascii) : string :=
  match parts with
  | [] => ""
  | [part] => part
  | part :: rest => part +:+ String sep (Join rest sep)
  end.

(** [sep] is no byte of [s]. *)
Definition free_of (sep : ascii) (s : string) : Prop := sep ∉ String.list_ascii_of_string s.

Lemma Split_free s sep : free_of sep s -> Split s sep = [s].
Proof.
  unfold free_of. induction s as [|c s IH]; simpl; [done|]. intros H.
  apply not_elem_of_cons in H as [Hc Hs].
  destruct (Ascii.eqb_spec c sep) as [->|_]; [done|]. by rewrite (IH Hs).
Qed.

Lemma Split_cons part rest sep :
  free_of sep part -> Split (part +:+ String sep rest) sep = part :: Split rest sep.
Proof.
  unfold free_of. induction part as [|c part IH]; simpl; intros H.
  - by rewrite Ascii.eqb_refl.
  - apply not_elem_of_cons in H as [Hc Hs].
    destruct (Ascii.eqb_spec c sep) as [->|_]; [done|]. by rewrite (IH Hs).
Qed.

(** Splitting what was joined gives the parts back. *)
Lemma Split_Join parts sep :
  parts <> [] -> Forall (free_of sep) parts -> Split (Join parts sep) sep = parts.
Proof.
  induction parts as [|part [|part' rest] IH]; intros Hne Hfree; [done| |].
  - simpl. apply Split_free. by inversion Hfree.
  - inversion Hfree as [|? ? Hp Hrest]; subst.
    change (Join (part :: part' :: rest) sep)
      with (part +:+ String sep (Join (part' :: rest) sep)).
    rewrite (Split_cons _ _ _ Hp). f_equal. by apply IH.
Qed.

(** No part of a split holds the separator. *)
Lemma Split_parts_free s sep : Forall (free_of sep) (Split s sep).
Proof.
  induction s as [|c s IH]; simpl.
  - repeat constructor. unfold free_of. simpl. apply not_elem_of_nil.
  - destruct (Ascii.eqb_spec c sep) as [->|Hne].
    + constructor; [|done]. unfold free_of. simpl. apply not_elem_of_nil.
    + destruct (Split s sep) as [|part parts]; inversion IH; subst.
      * repeat constructor. unfold free_of. simpl. set_solver.
      * constructor; [|done]. unfold free_of in *. simpl. set_solver.
Qed.

(** ** The lines kept *)

(** A line as [readURLsFromFile] returns it: not empty, not starting
    with '#', with no white space at either end, and holding no line
    feed. *)
Definition clean (u : string) : Prop :=
  u <> "" /\ HasPrefix u "#" = false /\ TrimSpace u = u /\ free_of "010" u.

Definition keeps_line (line : string) : bool :=
  bool_decide (line <> "") && negb (HasPrefix line "#").

Lemma collect_urls_filter lines : forall urls,
  collect_urls lines urls = urls ++ filter (fun l => keeps_line l = true) (TrimSpace <$> lines).
Proof.
  induction lines as [|line rest IH]; intros urls; simpl.
  - by rewrite app_nil_r.
  - rewrite filter_cons. fold (keeps_line (TrimSpace line)).
    destruct (keeps_line (TrimSpace line)) eqn:Hk.
    + rewrite decide_True by done. rewrite IH. by rewrite <- app_assoc.
    + rewrite decide_False by done. apply IH.
Qed.

Lemma collect_urls_clean lines :
  Forall (free_of "010") lines -> Forall clean (collect_urls lines []).
Proof.
  intros Hfree. rewrite collect_urls_filter. simpl.
  apply Forall_forall. intros u [Hk Hu]%list_elem_of_filter.
  apply list_elem_of_fmap in Hu as (line & -> & Hline).
  unfold keeps_line in Hk. apply andb_prop in Hk as [Hne Hp].
  apply bool_decide_eq_true in Hne. apply negb_true_iff in Hp.
  repeat split; [done|done|apply TrimSpace_idemp|].
  intros Hin. apply TrimSpace_bytes in Hin.
  rewrite Forall_forall in Hfree. by apply (Hfree _ Hline).
Qed.

Lemma collect_urls_kept urls :
  Forall clean urls -> collect_urls urls [] = urls.
Proof.
  intros Hc. rewrite collect_urls_filter. simpl.
  induction Hc as [|u urls (Hne & Hp & Ht & _) Hrest IH]; [done|].
  rewrite fmap_cons, filter_cons, Ht.
  rewrite decide_True; [by rewrite IH|].
  unfold keeps_line. rewrite Hp. simpl. rewrite andb_true_r. by apply bool_decide_eq_true.
Qed.

(** X16. Every URL that [readURLsFromFile] returns is a line of the file
    without the white space around it, is not empty, does not start with
    '#' and holds no line feed; when the file cannot be read, no URL is
    returned and the error is the one of the read. *)
Theorem readURLsFromFile_clean ReadFile filename :
  Forall clean (readURLsFromFile ReadFile filename).1 /\
  Forall (fun u => exists line,
            line ∈ Split (ReadFile filename).1 "010" /\ u = TrimSpace line)
    (readURLsFromFile ReadFile filename).1 /\
  ((ReadFile filename).2 <> None ->
   readURLsFromFile ReadFile filename = ([], (ReadFile filename).2)).
Proof.
  unfold readURLsFromFile. destruct (ReadFile filename) as [data [e|]]; simpl.
  - split; [constructor|]. split; [constructor|done].
  - split; [apply collect_urls_clean, Split_parts_free|]. split; [|done].
    rewrite collect_urls_filter. simpl.
    apply Forall_forall. intros u [_ Hu]%list_elem_of_filter.
    apply list_elem_of_fmap in Hu as (line & -> & Hline). eauto.
Qed.

(** X17. A file that holds clean lines, one per line, reads back as those
    lines, in order; with a line feed after the last one as well. *)
Theorem readURLsFromFile_round_trip ReadFile filename urls :
  Forall clean urls ->
  ReadFile filename = (Join urls "010", None) \/
  ReadFile filename = (Join (urls ++ [""]) "010", None) ->
  readURLsFromFile ReadFile filename = (urls, None).
Proof.
  intros Hc Hfile. unfold readURLsFromFile.
  assert (Forall (free_of "010") urls) as Hfree.
  { eapply Forall_impl; [exact Hc|]. by intros u (_ & _ & _ & ?). }
  assert (TrimSpace "" = "") as Hempty by done.
  destruct Hfile as [-> | ->]; f_equal.
  - destruct urls as [|u urls']; [done|].
    rewrite Split_Join by done. by apply collect_urls_kept.
  - rewrite Split_Join.
    + rewrite collect_urls_filter. simpl. rewrite fmap_app, filter_app. simpl.
      rewrite filter_cons, Hempty. simpl. rewrite filter_nil, app_nil_r.
      rewrite <- (collect_urls_kept urls Hc) at 2. by rewrite collect_urls_filter.
    + by destruct urls.
    + apply Forall_app. split; [done|]. repeat constructor.
      unfold free_of. simpl. apply not_elem_of_nil.
Qed.

(** ** Starting the crawl *)

(** The URLs of the file named by [urlFile], when one is named. *)
Definition file_urls (ReadFile : string -> string * error) (urlFile : string) : list string :=
  if decide (urlFile <> "") then (readURLsFromFile ReadFile urlFile).1 else [].

(** A URL file is named and reading it fails. *)
Definition unreadable (ReadFile : string -> string * error) (urlFile : string) : Prop :=
  urlFile <> "" /\ (ReadFile urlFile).2 <> None.

(** X18. [launch] is called only without [generateCode], when the file, if
    one is named, could be read, and with the URLs of the command line
    followed by those of the file, of which there is at least one;
    [GenCode] is called only when the file could be read and at least
    one URL was given; when a file is named and cannot be read the
    process ends with the fatal message of the read, whatever the command
    line holds; and when there is no URL, on the command line or in the
    file, it ends with the fatal message for that, whether code
    generation was asked for or not. *)
Theorem StartDaprStandaloneMode_launches ReadFile urlList urlFile generateCode :
  match StartDaprStandaloneMode ReadFile urlList urlFile generateCode with
  | Launched urls =>
      ~ unreadable ReadFile urlFile /\
      generateCode = false /\ urls <> [] /\ urls = urlList ++ file_urls ReadFile urlFile
  | RanGenCode =>
      ~ unreadable ReadFile urlFile /\
      generateCode = true /\ urlList ++ file_urls ReadFile urlFile <> []
  | Fatal msg =>
      (unreadable ReadFile urlFile /\ msg = "Failed to read URLs from file") \/
      (~ unreadable ReadFile urlFile /\ urlList ++ file_urls ReadFile urlFile = [] /\
       msg = "No URLs provided. Use --urls or --url-file to specify URLs to crawl")
  end.
Proof.
  unfold StartDaprStandaloneMode, file_urls, readURLsFromFile, unreadable.
  assert ((if decide (0 < length urlList)%nat then [] ++ urlList else []) = urlList) as ->.
  { destruct (decide (0 < length urlList)%nat) as [|Hn]; [done|].
    destruct urlList; [done|]. simpl in Hn. lia. }
  destruct (decide (urlFile <> "")) as [Hf|Hf].
  - destruct (ReadFile urlFile) as [data [e|]]; simpl; [left; done|].
    assert (~ (urlFile <> "" /\ None <> (None : error))) as Hr by (intros [_ H]; done).
    destruct (decide _) as [Hz|Hz].
    + right. split; [done|]. split; [|done]. by apply nil_length_inv.
    + assert (urlList ++ collect_urls (Split data "010") [] <> []) as Hne.
      { intros H. by rewrite H in Hz. }
      by destruct generateCode.
  - assert (~ (urlFile <> "" /\ (ReadFile urlFile).2 <> None)) as Hr by (intros [H _]; done).
    rewrite app_nil_r. destruct (decide _) as [Hz|Hz].
    + right. split; [done|]. split; [|done]. by apply nil_length_inv.
    + assert (urlList <> []) as Hne by (intros H; by rewrite H in Hz).
      by destruct generateCode.
Qed.

(** ** Concrete files *)

(** A carriage return, and a no-break space (U+00A0) in UTF-8. *)
Definition CR : string := String "013" "".
Definition NBSP : string := String "194" (String "160" "").

(** White space goes at both ends and stays inside; a byte that is not
    the encoding of a white-space rune stays. *)
Example TrimSpace_examples :
  TrimSpace ("  https://t.me/a " +:+ CR) = "https://t.me/a" /\
  TrimSpace (NBSP +:+ "a b" +:+ NBSP) = "a b" /\
  TrimSpace (String "160" "a") = String "160" "a".
Proof. by vm_compute. Qed.

(** A file with a comment, a URL between blanks on a line that ends in
    a carriage return, an empty line and a URL on the last line. *)
Definition seeds_file : string :=
  Join ["# seeds"; "  https://t.me/a  " +:+ CR; ""; "https://t.me/b"] "010".

Example readURLsFromFile_seeds_file :
  readURLsFromFile (fun _ => (seeds_file, None)) "seeds.txt" =
    (["https://t.me/a"; "https://t.me/b"], None).
Proof. by vm_compute. Qed.

(** X17 at a file of two URLs, each followed by a line feed. *)
Lemma readURLsFromFile_round_trip_two :
  Forall clean ["https://t.me/a"; "https://t.me/b"] /\
  readURLsFromFile
    (fun _ => (Join (["https://t.me/a"; "https://t.me/b"] ++ [""]) "010", None))
    "seeds.txt" = (["https://t.me/a"; "https://t.me/b"], None).
Proof.
  assert (Forall clean ["https://t.me/a"; "https://t.me/b"]) as H.
  { repeat constructor; try done; apply (bool_decide_unpack _); by vm_compute. }
  split; [exact H|].
  exact (readURLsFromFile_round_trip
           (fun _ => (Join (["https://t.me/a"; "https://t.me/b"] ++ [""]) "010", None))
           "seeds.txt" _ H (or_intror eq_refl)).
Defined.

(** A URL on the command line and a file that cannot be read: the
    process ends with the fatal message of the read, and [launch] is not
    called. *)
Example StartDaprStandaloneMode_unreadable :
  StartDaprStandaloneMode (fun _ => ("", Some "no such file")) ["https://t.me/a"]
    "seeds.txt" false =
    Fatal "Failed to read URLs from file".
Proof. by vm_compute. Qed.

(** Code generation asked for with a file of comments only: the process
    ends with the fatal message, and [GenCode] is not called. *)
Example StartDaprStandaloneMode_no_urls :
  StartDaprStandaloneMode (fun _ => ("# nothing yet", None)) [] "seeds.txt" true =
    Fatal "No URLs provided. Use --urls or --url-file to specify URLs to crawl".
Proof. by vm_compute. Qed.

End StandaloneFacts.

(* ================================================================== *)
(** * Properties of [removeMultimedia] *)
(* ================================================================== *)

Module CleanupFacts.
Import Cleanup.

Section Facts.
Context {W : Type} (FS : FileSystem W).

(** Calls of [os.RemoveAll] that were not made on [filedir] and returned
    no error. *)
Definition removed_well (filedir : string) (log : list (string * error)) : Prop :=
  Forall (fun pe => pe.1 <> filedir /\ pe.2 = None) log.

(** The log of a walk that goes on or ends well holds only removals that
    went well; the log of a walk that ends with an error may end with the
    removal that failed. *)
Definition walk_log (filedir : string) (r : Removing W * progress error) : Prop :=
  match r.2 with
  | Running | Finished None => removed_well filedir (removed r.1)
  | Finished (Some e) =>
      removed_well filedir (removed r.1) \/
      exists front path, removed r.1 = front ++ [(path, Some e)] /\
        removed_well filedir front /\ path <> filedir
  end.

Lemma Walk_log fuel filedir : forall s,
  removed_well filedir (removed s) ->
  walk_log filedir (Walk FS fuel filedir (remove_entry FS filedir) s).
Proof.
  induction fuel as [|fuel IH]; intros s Hs; simpl; [done|].
  destruct (walk_next FS (files s) filedir) as [[[w path] err]|]; [|done].
  unfold remove_entry at 1. simpl.
  destruct err as [e|]; [by left|].
  destruct (decide (path = filedir)) as [->|Hne]; [by apply IH|].
  destruct (RemoveAll FS w path) as [w' [e|]] eqn:HR.
  - right. exists (removed s), path. done.
  - apply IH. simpl. apply Forall_app. split; [done|]. by repeat constructor.
Qed.

Lemma removed_well_last filedir front path e i pe :
  removed_well filedir front ->
  (front ++ [(path, e)]) !! i = Some pe ->
  (S i < length (front ++ [(path, e)]))%nat -> pe.2 = None.
Proof.
  intros Hf Hi Hlt. rewrite length_app in Hlt. simpl in Hlt.
  rewrite lookup_app_l in Hi by lia.
  unfold removed_well in Hf. rewrite Forall_lookup in Hf. by destruct (Hf _ _ Hi).
Qed.

(** X19. [removeMultimedia] never hands [filedir] itself to [os.RemoveAll];
    a removal that fails is the last one it makes; and it returns nil
    only when every removal it made returned nil. This holds of the
    removals made at every point of the walk, ended or not. *)
Theorem removeMultimedia_spares_root fuel filedir w :
  Forall (fun pe => pe.1 <> filedir) (removed (removeMultimedia FS fuel filedir w).1) /\
  (forall i pe,
     removed (removeMultimedia FS fuel filedir w).1 !! i = Some pe ->
     (S i < length (removed (removeMultimedia FS fuel filedir w).1))%nat ->
     pe.2 = None) /\
  ((removeMultimedia FS fuel filedir w).2 = Finished (Returned None) ->
   Forall (fun pe => pe.2 = None) (removed (removeMultimedia FS fuel filedir w).1)).
Proof.
  assert (forall log, removed_well filedir log ->
            Forall (fun pe => pe.1 <> filedir) log /\ Forall (fun pe => pe.2 = None) log /\
            forall i pe, log !! i = Some pe -> (S i < length log)%nat -> pe.2 = None)
    as Hwell.
  { intros log Hl. unfold removed_well in Hl. rewrite Forall_forall in Hl.
    split; [|split].
    - apply Forall_forall. intros pe Hpe. by destruct (Hl _ Hpe).
    - apply Forall_forall. intros pe Hpe. by destruct (Hl _ Hpe).
    - intros i pe Hi _. apply list_elem_of_lookup_2 in Hi. by destruct (Hl _ Hi). }
  unfold removeMultimedia.
  destruct (Stat FS w filedir) as [info [e|]]; simpl.
  { destruct (IsNotExist FS e); simpl; (split; [constructor|split; [done|constructor]]). }
  destruct info as [[|]|]; simpl;
    try (split; [constructor|split; [done|constructor]]).
  pose proof (Walk_log fuel filedir (mkRemoving w []) (Forall_nil_2 _)) as Hlog.
  unfold walk_log in Hlog.
  destruct (Walk FS fuel filedir (remove_entry FS filedir) (mkRemoving w []))
    as [s' [[e|]|]]; simpl in *.
  - destruct Hlog as [Hl|(front & path & -> & Hf & Hne)].
    + destruct (Hwell _ Hl) as (H1 & H2 & H3). done.
    + destruct (Hwell _ Hf) as (H1 & H2 & H3). split; [|split; [|done]].
      * apply Forall_app. split; [done|]. by repeat constructor.
      * intros i pe Hi Hlt. by eapply removed_well_last.
  - destruct (Hwell _ Hlog) as (H1 & H2 & H3). done.
  - destruct (Hwell _ Hlog) as (H1 & H2 & H3). done.
Qed.

(** X20. When [filedir] does not exist, and when it exists and is not a
    directory, [removeMultimedia] returns nil and removes nothing: the
    error it returns for what is not a directory is the nil error of
    [os.Stat]. *)
Theorem removeMultimedia_nothing_to_remove fuel filedir w :
  (exists info e, Stat FS w filedir = (info, Some e) /\ IsNotExist FS e = true) \/
  Stat FS w filedir = (Some false, None) ->
  removeMultimedia FS fuel filedir w = (mkRemoving w [], Finished (Returned None)).
Proof.
  unfold removeMultimedia. intros [(info & e & -> & HE)| ->]; simpl; [|done].
  by rewrite HE.
Qed.

End Facts.

(** A file system in which "notes.txt" is a regular file. *)
Definition one_file : FileSystem unit :=
  mkFileSystem unit
    (fun _ path => if decide (path = "notes.txt") then (Some false, None)
                   else (None, Some "no such file or directory"))
    (fun e => bool_decide (e = "no such file or directory"))
    (fun _ _ => None)
    (fun w _ => (w, None)).

(** X20 at that file. *)
Lemma removeMultimedia_nothing_to_remove_file :
  Stat one_file tt "notes.txt" = (Some false, None) /\
  removeMultimedia one_file 3 "notes.txt" tt = (mkRemoving tt [], Finished (Returned None)).
Proof.
  split; [reflexivity|].
  exact (removeMultimedia_nothing_to_remove one_file 3 "notes.txt" tt (or_intror eq_refl)).
Defined.

End CleanupFacts.

(* ================================================================== *)
(** * Properties of the extraction of an archive *)
(* ================================================================== *)

Module ArchiveFacts.
Import Archive.

Section Facts.
Context {W : Type} (T : Tools W).

(** The files created without an error, in the order of their creation. *)
Definition created (log : list (Op * error)) : list string :=
  omap (fun oe => match oe with (Created path, None) => Some path | _ => None end) log.

(** A call that closes something. *)
Definition closes (oe : Op * error) : Prop :=
  match oe.1 with Closed _ | ClosedGzip | ClosedBody => True | _ => False end.

(** While the loop runs: no call has failed, nothing has been closed,
    and the files to close are the files created. *)
Definition extracting_well (s : Extracting W) : Prop :=
  Forall (fun oe => oe.2 = None /\ ~ closes oe) (ops s) /\ deferred s = created (ops s).

(** When the loop has ended with an error, the failed call may be the
    last one made; the files to close are the files created. *)
Definition loop_log (r : Extracting W * progress error) : Prop :=
  match r.2 with
  | Running | Finished None => extracting_well r.1
  | Finished (Some e) =>
      extracting_well r.1 \/
      exists front op, ops r.1 = front ++ [(op, Some e)] /\ ~ closes (op, Some e) /\
        Forall (fun oe => oe.2 = None /\ ~ closes oe) front /\
        (deferred r.1 = created front)
  end.

Lemma created_app l1 l2 : created (l1 ++ l2) = created l1 ++ created l2.
Proof. unfold created. by rewrite omap_app. Qed.

Lemma extract_entries_log fuel targetDir : forall s,
  extracting_well s -> loop_log (extract_entries T fuel targetDir s).
Proof.
  induction fuel as [|fuel IH]; intros s [Hops Hdef]; simpl; [done|].
  destruct (Next T (disk s)) as [w [|e|header]]; [done|by left|].
  destruct (decide (Typeflag header = TypeDir)) as [Hdir|Hdir].
  { destruct (MkdirAll T w _) as [w1 [e|]].
    - right. eexists _, _. simpl. split; [done|]. split; [by intros []|]. done.
    - apply IH. split; simpl.
      + apply Forall_app. split; [done|]. repeat constructor. by intros [].
      + rewrite created_app. simpl. by rewrite app_nil_r. }
  destruct (decide (Typeflag header = TypeReg)) as [Hreg|Hreg]; [|by apply IH].
  destruct (MkdirAll T w _) as [w1 [e|]].
  { right. eexists _, _. simpl. split; [done|]. split; [by intros []|]. done. }
  assert (Forall (fun oe : Op * error => oe.2 = None /\ ~ closes oe)
            (ops s ++ [(MadeDir (Dir T (Join T targetDir (Name header))), None)])) as H1.
  { apply Forall_app. split; [done|]. repeat constructor. by intros []. }
  destruct (Create T w1 _) as [w2 [e|]].
  { right. eexists _, _. simpl. split; [done|]. split; [by intros []|]. split; [done|].
    rewrite created_app. simpl. by rewrite app_nil_r. }
  assert (Forall (fun oe : Op * error => oe.2 = None /\ ~ closes oe)
            ((ops s ++ [(MadeDir (Dir T (Join T targetDir (Name header))), None)]) ++
             [(Created (Join T targetDir (Name header)), None)])) as H2.
  { apply Forall_app. split; [done|]. repeat constructor. by intros []. }
  destruct (Copy T w2 _) as [w3 [e|]].
  { right. eexists _, _. simpl. split; [done|]. split; [by intros []|]. split; [done|].
    rewrite !created_app. simpl. by rewrite app_nil_r, Hdef. }
  apply IH. split; simpl.
  - apply Forall_app. split; [done|]. repeat constructor. by intros [].
  - rewrite !created_app. simpl. by rewrite !app_nil_r, Hdef.
Qed.

(** X21. The extraction stops at the first call that fails: in the calls it
    has made at any point, a failed call is followed by no call other
    than the closing ones. While it runs it closes nothing; when it
    returns, it has closed every file it created, each once, the last
    created first, and then the gzip reader; and it returns nil only
    when no call failed. *)
Theorem extraction_stops_and_closes fuel targetDir w :
  exists body closing,
    ops (downloadAndExtractTarballFromReader T fuel targetDir w).1 = body ++ closing /\
    Forall (fun oe => ~ closes oe) body /\
    (forall i oe, body !! i = Some oe -> (S i < length body)%nat -> oe.2 = None) /\
    match (downloadAndExtractTarballFromReader T fuel targetDir w).2 with
    | Running => closing = []
    | Finished e =>
        (e = None -> Forall (fun oe => oe.2 = None) body) /\
        (closing = [] /\ body = [] /\ e <> None \/
         closing = ((fun path => (Closed path, None)) <$> reverse (created body)) ++
                   [(ClosedGzip, None)])
    end.
Proof.
  unfold downloadAndExtractTarballFromReader.
  destruct (NewReader T w) as [w0 [e0|]].
  { exists [], []. simpl. repeat split; try done. left. done. }
  pose proof (extract_entries_log fuel targetDir (mkExtracting w0 [] [])
                (conj (Forall_nil_2 _) eq_refl)) as Hlog.
  unfold loop_log in Hlog.
  assert (forall log : list (Op * error),
            Forall (fun oe => oe.2 = None /\ ~ closes oe) log ->
            Forall (fun oe => ~ closes oe) log /\ Forall (fun oe => oe.2 = None) log /\
            forall i oe, log !! i = Some oe -> (S i < length log)%nat -> oe.2 = None)
    as Hwell.
  { intros log Hl. rewrite Forall_forall in Hl. split; [|split].
    - apply Forall_forall. intros oe Hoe. by destruct (Hl _ Hoe).
    - apply Forall_forall. intros oe Hoe. by destruct (Hl _ Hoe).
    - intros i oe Hi _. apply list_elem_of_lookup_2 in Hi. by destruct (Hl _ Hi). }
  destruct (extract_entries T fuel targetDir (mkExtracting w0 [] [])) as [s [[e0|]|]];
    simpl in *.
  - exists (ops s), (((fun path => (Closed path, None)) <$> reverse (deferred s)) ++
                     [(ClosedGzip, None)]).
    split; [done|].
    destruct Hlog as [[Hops Hdef]|(front & op & Hs & Hcl & Hfront & Hdef)].
    + destruct (Hwell _ Hops) as (H1 & H2 & H3). do 2 (split; [done|]).
      split; [done|]. right. by rewrite Hdef.
    + destruct (Hwell _ Hfront) as (H1 & H2 & H3). rewrite Hs. split; [|split].
      * apply Forall_app. split; [done|]. by repeat constructor.
      * intros i oe Hi Hlt. rewrite length_app in Hlt. simpl in Hlt.
        rewrite lookup_app_l in Hi by lia.
        rewrite Forall_lookup in H2. by eapply H2.
      * split; [done|]. right. rewrite Hdef, created_app. simpl.
        destruct op; by rewrite ?app_nil_r.
  - destruct Hlog as [Hops Hdef].
    destruct (Hwell _ Hops) as (H1 & H2 & H3).
    exists (ops s), (((fun path => (Closed path, None)) <$> reverse (deferred s)) ++
                     [(ClosedGzip, None)]).
    do 3 (split; [done|]). split; [done|]. right. by rewrite Hdef.
  - destruct Hlog as [Hops Hdef].
    destruct (Hwell _ Hops) as (H1 & H2 & H3).
    exists (ops s), []. rewrite app_nil_r. done.
Qed.

End Facts.

Section Download.
Context {W : Type} (H : Web W) (T : Tools W).

(** X22. When [http.NewRequest] gives no request, [downloadAndExtractTarball]
    panics, whatever error came with the nil request: the error of a URL
    that cannot be made into a request is never returned. When the
    function returns an error of [http.NewRequest] or of [Do], or the
    error of a status other than 200, it has made no directory and
    created no file. *)
Theorem downloadAndExtractTarball_request fuel url targetDir w :
  (forall e, NewRequest H "GET" url = (None, e) ->
     (downloadAndExtractTarball H T fuel url targetDir w).2 = Finished Panicked) /\
  ((forall req e resp,
      NewRequest H "GET" url = (Some req, e) ->
      e <> None \/
      (Do H w (Header_Set (Header_Set req "User-Agent"
                             "Mozilla/5.0 (Windows NT 10.0; Win64; x64)") "Accept" "*/*")).2
        = (resp, None) /\ (StatusCode <$> resp) <> Some 200 \/
      (exists e', (Do H w (Header_Set (Header_Set req "User-Agent"
                             "Mozilla/5.0 (Windows NT 10.0; Win64; x64)") "Accept" "*/*")).2
                    = (resp, Some e')) ->
      Forall closes (ops (downloadAndExtractTarball H T fuel url targetDir w).1))).
Proof.
  unfold downloadAndExtractTarball. split.
  - intros e ->. done.
  - intros req e resp ->. simpl.
    destruct e as [e|]; [intros _; constructor|].
    destruct (Do H w _) as [w1 [resp' [e'|]]]; simpl; [intros _; constructor|].
    intros [?|[[[= ->] Hst]|[e' [=]]]]; [done|].
    destruct resp as [resp|]; [|constructor].
    destruct (decide (StatusCode resp <> 200)) as [|Hn]; [by repeat constructor|].
    apply dec_stable in Hn. simpl in Hst. by rewrite Hn in Hst.
Qed.

End Download.

End ArchiveFacts.

(* ================================================================== *)
(** * Properties of the YouTube adapter *)
(* ================================================================== *)

Module YouTubeFacts.
Import YouTube.

Section Facts.
Context {W : Type}.

Lemma convert_messages_spec channelID messages : forall videos,
  convert_messages channelID messages videos =
  match mapM id messages with
  | Some msgs => Returned (videos ++ (video_of channelID <$> msgs))
  | None => Panicked
  end.
Proof.
  induction messages as [|[msg|] rest IH]; intros videos; simpl.
  - by rewrite app_nil_r.
  - rewrite IH. destruct (mapM id rest) as [msgs|]; simpl; [|done].
    by rewrite <- app_assoc.
  - done.
Qed.

(** The 'like' count of a message: that of its reactions, 0 when it has
    no reactions or no count under "like". *)
Definition likes (msg : Message) : Z :=
  default 0 (GetReactions msg ≫= (fun reactions => reactions !! "like")).

Lemma video_of_fields channelID msg :
  ID (video_of channelID msg) = GetID msg /\
  ChannelID (video_of channelID msg) = channelID /\
  LikeCount (video_of channelID msg) = likes msg /\
  ViewCount (video_of channelID msg) = GetViews msg /\
  CommentCount (video_of channelID msg) = GetCommentCount msg.
Proof.
  unfold video_of, likes.
  destruct (GetReactions msg) as [reactions|]; simpl; [|done].
  by destruct (reactions !! "like").
Qed.

(** X23. For an adapter that [NewClientAdapter] built: when the client fails,
    [GetVideos] returns no video and the client's error; when a message
    is nil it panics; and otherwise it returns one video for each
    message, in the order of the messages, with the message's id, the
    channel id asked for (not one taken from the message), and the
    message's count under "like", or 0, as its like count.
    [GetVideosFromChannel] does the same. *)
Theorem GetVideos_videos (c : option (Client W)) a w channelID fromTime toTime limit :
  NewClientAdapter c = (Some a, None) ->
  exists c', c = Some c' /\ GetChannelType c' = "youtube" /\
    GetVideosFromChannel a w channelID fromTime toTime limit =
      GetVideos a w channelID fromTime toTime limit /\
    (GetVideos a w channelID fromTime toTime limit).1 =
      (GetMessages c' w channelID fromTime toTime limit).1 /\
    match (GetMessages c' w channelID fromTime toTime limit).2 with
    | (_, Some e) =>
        (GetVideos a w channelID fromTime toTime limit).2 = Returned ([], Some e)
    | (messages, None) =>
        match mapM id messages with
        | None => (GetVideos a w channelID fromTime toTime limit).2 = Panicked
        | Some msgs =>
            exists videos,
              (GetVideos a w channelID fromTime toTime limit).2 = Returned (videos, None) /\
              length videos = length messages /\
              forall i msg, msgs !! i = Some msg ->
                exists video, videos !! i = Some video /\
                  ID video = GetID msg /\ ChannelID video = channelID /\
                  LikeCount video = likes msg
        end
    end.
Proof.
  unfold NewClientAdapter. destruct c as [c'|]; [|done].
  destruct (decide (GetChannelType c' <> "youtube")) as [|Hty]; [done|].
  intros [= <-]. exists c'. split; [done|]. split; [by apply dec_stable|].
  split; [done|]. unfold GetVideos. simpl.
  destruct (GetMessages c' w channelID fromTime toTime limit) as [w' [messages [e|]]]; simpl;
    [done|].
  rewrite convert_messages_spec. simpl.
  destruct (mapM id messages) as [msgs|] eqn:Hm; simpl; [|done].
  split; [done|]. eexists. split; [done|].
  split.
  - rewrite length_fmap. symmetry. by eapply length_mapM.
  - intros i msg Hi. exists (video_of channelID msg).
    rewrite list_lookup_fmap, Hi. split; [done|].
    destruct (video_of_fields channelID msg) as (? & ? & ? & _). done.
Qed.

End Facts.

(** A client of type "youtube" that returns two messages, the first
    with 5 under "like", the second with no reactions. *)
Definition two_videos : Client unit :=
  mkClient unit "youtube"
    (fun w _ _ _ _ =>
       (w, ([Some (mkMessage "v1" "first" "" 0 10 1 None "en" (Some {["like" := 5]}));
             Some (mkMessage "v2" "second" "" 0 20 0 None "en" None)], None))).

(** The id, the channel id and the like count of each video returned. *)
Definition video_summary (r : outcome (list YouTubeVideo * error))
    : list (string * string * Z) :=
  match r with
  | Returned (videos, _) => (fun v => (ID v, ChannelID v, LikeCount v)) <$> videos
  | Panicked => []
  end.

(** X23 at that client. *)
Lemma GetVideos_videos_two :
  NewClientAdapter (Some two_videos) = (Some (mkClientAdapter (Some two_videos)), None) /\
  video_summary (GetVideos (mkClientAdapter (Some two_videos)) tt "UC1" 0 0 10).2 =
    [("v1", "UC1", 5); ("v2", "UC1", 0)] /\
  GetVideosFromChannel (mkClientAdapter (Some two_videos)) tt "UC1" 0 0 10 =
    GetVideos (mkClientAdapter (Some two_videos)) tt "UC1" 0 0 10.
Proof.
  split; [reflexivity|]. split; [by vm_compute|].
  destruct (GetVideos_videos (Some two_videos) (mkClientAdapter (Some two_videos)) tt
              "UC1" 0 0 10 eq_refl) as (c' & _ & _ & Hsame & _).
  exact Hsame.
Defined.

End YouTubeFacts.
